(** * HTML2Figma: style-value parsers (scrape.js) and materializer (plugin)

    A shallow embedding of the translation core of HTML2Figma:

    - [Scrape]: the colour, gradient and box-shadow parsers that run inside
      the page (src/scrape.js), written over strings with the regular
      expressions of the source kept as syntax trees and run by a
      backtracking matcher that follows the ECMAScript matching order;
    - [Plugin]: the Figma plugin (code.js) that rebuilds the scene from the
      JSON document: paint sanitization, effects, text wrapping, the root
      frame and the validation guard, over dynamically typed JSON values, a
      property-bag scene store and a state-and-exception monad.

    Numbers.  A JavaScript number is modelled as an exact rational or NaN:
    arithmetic is exact (no binary64 rounding, no overflow to Infinity, no
    signed zero).  Strings are sequences of 8-bit characters. *)

From Stdlib Require Import Bool Arith ZArith QArith Qminmax Qround Lia List Ascii String.
Import ListNotations.

Set Implicit Arguments.
Set Warnings "-register-all".
Local Open Scope string_scope.

(* ====================================================================== *)
(** * JavaScript values used by both programs *)
(* ====================================================================== *)

Module JS.

(** ** Numbers *)

Inductive jsnum : Type :=
| Num (q : Q)
| NaN.

Definition num_of_Z (z : Z) : jsnum := Num (inject_Z z).

Definition nadd (a b : jsnum) : jsnum :=
  match a, b with
  | Num x, Num y => Num (Qred (x + y))
  | _, _ => NaN
  end.

Definition nsub (a b : jsnum) : jsnum :=
  match a, b with
  | Num x, Num y => Num (Qred (x - y))
  | _, _ => NaN
  end.

Definition nmul (a b : jsnum) : jsnum :=
  match a, b with
  | Num x, Num y => Num (Qred (x * y))
  | _, _ => NaN
  end.

(** Division by a nonzero constant; [x / 0] is infinite or NaN in
    JavaScript and has no rational value, the programs never divide by
    zero. *)
Definition ndiv (a b : jsnum) : jsnum :=
  match a, b with
  | Num x, Num y => if Qeq_bool y 0 then NaN else Num (Qred (x / y))
  | _, _ => NaN
  end.

(** [a < b] and [a > b]: false as soon as one side is NaN. *)
Definition nlt (a b : jsnum) : bool :=
  match a, b with
  | Num x, Num y => negb (Qle_bool y x)
  | _, _ => false
  end.

Definition ngt (a b : jsnum) : bool := nlt b a.

(** [Math.max(a, b)] and [Math.min(a, b)]: NaN is contagious. *)
Definition Math_max (a b : jsnum) : jsnum :=
  match a, b with
  | Num x, Num y => if Qle_bool x y then Num y else Num x
  | _, _ => NaN
  end.

Definition Math_min (a b : jsnum) : jsnum :=
  match a, b with
  | Num x, Num y => if Qle_bool x y then Num x else Num y
  | _, _ => NaN
  end.

(** Truthiness of a number: false for 0 and NaN. *)
Definition num_truthy (a : jsnum) : bool :=
  match a with
  | Num x => negb (Qeq_bool x 0)
  | NaN => false
  end.

(** ** Characters and strings *)

Definition is_digit (c : ascii) : bool :=
  let n := nat_of_ascii c in (48 <=? n)%nat && (n <=? 57)%nat.

(** The class [[\d.]]. *)
Definition digdot (c : ascii) : bool := is_digit c || Ascii.eqb c ".".

(** The class [\s] (and the characters [trim] strips), among the
    characters below 256. *)
Definition is_space (c : ascii) : bool :=
  let n := nat_of_ascii c in
  ((9 <=? n)%nat && (n <=? 13)%nat) || (n =? 32)%nat || (n =? 160)%nat.

(** The class [[^)]]. *)
Definition not_rparen (c : ascii) : bool := negb (Ascii.eqb c ")").

(** Upper case of an ASCII letter, as the [i] flag canonicalizes. *)
Definition to_upper (c : ascii) : ascii :=
  let n := nat_of_ascii c in
  if ((97 <=? n) && (n <=? 122))%nat then ascii_of_nat (n - 32) else c.

Fixpoint all_chars (p : ascii -> bool) (s : string) : bool :=
  match s with
  | EmptyString => true
  | String c s' => p c && all_chars p s'
  end.

Fixpoint has_char (c : ascii) (s : string) : bool :=
  match s with
  | EmptyString => false
  | String d s' => Ascii.eqb d c || has_char c s'
  end.

Definition head_is (p : ascii -> bool) (s : string) : bool :=
  match s with
  | EmptyString => false
  | String c _ => p c
  end.

Definition str_truthy (s : string) : bool :=
  match s with
  | EmptyString => false
  | _ => true
  end.

(** [s.startsWith(p)]. *)
Definition startsWith (s p : string) : bool := String.prefix p s.

Fixpoint trimStart (s : string) : string :=
  match s with
  | String c s' => if is_space c then trimStart s' else s
  | EmptyString => EmptyString
  end.

(** Drop trailing white space: a character is kept when it is not white
    space or when something is kept after it. *)
Fixpoint trimEnd (s : string) : string :=
  match s with
  | EmptyString => EmptyString
  | String c s' =>
      match trimEnd s' with
      | EmptyString => if is_space c then EmptyString else String c EmptyString
      | t => String c t
      end
  end.

(** [s.trim()]. *)
Definition trim (s : string) : string := trimEnd (trimStart s).

(** [s.replace(lit, '')] with a string pattern: the first occurrence of
    [lit] is removed. *)
Fixpoint remove_first (lit s : string) : string :=
  if String.prefix lit s then substring (String.length lit) (String.length s) s
  else match s with
       | EmptyString => EmptyString
       | String c s' => String c (remove_first lit s')
       end.

(** ** [parseFloat] *)

Definition digit_val (c : ascii) : Z := Z.of_nat (nat_of_ascii c - 48).

(** Reads a run of digits: accumulated value, number of digits read, and
    the rest. *)
Fixpoint read_digits (s : string) (acc : Z) (n : nat) : Z * nat * string :=
  match s with
  | String c s' =>
      if is_digit c then read_digits s' (10 * acc + digit_val c)%Z (S n)
      else (acc, n, s)
  | EmptyString => (acc, n, s)
  end.

(** The exponent part [e[+-]digits], taken only when a digit follows. *)
Definition read_exponent (s : string) : Z :=
  match s with
  | String c s' =>
      if Ascii.eqb c "e" || Ascii.eqb c "E" then
        match s' with
        | String "-" s'' =>
            let '(e, n, _) := read_digits s'' 0%Z 0 in
            if (n =? 0)%nat then 0%Z else (- e)%Z
        | String "+" s'' =>
            let '(e, _, _) := read_digits s'' 0%Z 0 in e
        | _ => let '(e, _, _) := read_digits s' 0%Z 0 in e
        end
      else 0%Z
  | EmptyString => 0%Z
  end.

Definition pow10 (e : Z) : Q :=
  if (0 <=? e)%Z then inject_Z (10 ^ e) else / inject_Z (10 ^ (- e)).

(** The unsigned decimal literal at the head of [s]: digits, an optional
    fraction and an optional exponent; [None] when no digit is there. *)
Definition read_decimal (s : string) : option Q :=
  let '(ip, ni, r1) := read_digits s 0%Z 0 in
  let '(fp, nf, r2) :=
    match r1 with
    | String "." r => read_digits r 0%Z 0
    | _ => (0%Z, 0%nat, r1)
    end in
  if ((ni =? 0) && (nf =? 0))%nat then None
  else
    let mant := (inject_Z ip + inject_Z fp / inject_Z (10 ^ Z.of_nat nf))%Q in
    Some (Qred (mant * pow10 (read_exponent r2))).

(** [parseFloat(s)]: leading white space, an optional sign, then the
    longest decimal literal; NaN when there is none.  (The literal
    [Infinity] has no rational value and is outside the model.) *)
Definition parseFloat (s : string) : jsnum :=
  match trimStart s with
  | String "-" r =>
      match read_decimal r with
      | Some q => Num (Qred (- q))
      | None => NaN
      end
  | String "+" r =>
      match read_decimal r with
      | Some q => Num q
      | None => NaN
      end
  | r =>
      match read_decimal r with
      | Some q => Num q
      | None => NaN
      end
  end.

(** ** Regular expressions

    The constructs the two programs use.  Repetition only ever applies to
    a character class in the source, so [Star] and [Plus] take a class. *)

Inductive regex : Type :=
| Lit (l : string)                 (* a literal run of characters   *)
| LitI (l : string)                (* the same under the [i] flag   *)
| Class (p : ascii -> bool)        (* one character of a class      *)
| Star (p : ascii -> bool)         (* [c]*   greedy                 *)
| Plus (p : ascii -> bool)         (* [c]+   greedy                 *)
| Opt (r : regex)                  (* (?:r)? greedy                 *)
| Alt (r1 r2 : regex)              (* r1|r2                         *)
| Seq (r1 r2 : regex)              (* r1r2                          *)
| Group (i : nat) (r : regex)      (* the i-th capturing group      *)
| Bol                              (* ^                             *)
| Eol.                             (* $                             *)

Infix ">>" := Seq (at level 61, right associativity).

(** Captured groups, most recent first; a group that took no part in the
    match is absent ([undefined]). *)
Definition captures : Type := list (nat * string).

Fixpoint cap (i : nat) (cs : captures) : option string :=
  match cs with
  | [] => None
  | (j, w) :: cs' => if (i =? j)%nat then Some w else cap i cs'
  end.

Record rmatch_result : Type := MatchResult {
  m_index : nat;        (* where the match starts       *)
  m_text : string;      (* the matched text, group 0    *)
  m_caps : captures;    (* the capturing groups         *)
  m_rest : string       (* the input after the match    *)
}.

Section Matcher.

Variable A : Type.

(** Matches a literal; [k] continues with the position and the rest. *)
Fixpoint m_lit (l : string) (pos : nat) (s : string)
         (k : nat -> string -> option A) : option A :=
  match l with
  | EmptyString => k pos s
  | String c l' =>
      match s with
      | String d s' => if Ascii.eqb c d then m_lit l' (S pos) s' k else None
      | EmptyString => None
      end
  end.

(** The same, ignoring the case of ASCII letters. *)
Fixpoint m_liti (l : string) (pos : nat) (s : string)
         (k : nat -> string -> option A) : option A :=
  match l with
  | EmptyString => k pos s
  | String c l' =>
      match s with
      | String d s' =>
          if Ascii.eqb (to_upper c) (to_upper d) then m_liti l' (S pos) s' k
          else None
      | EmptyString => None
      end
  end.

(** Greedy repetition of a class: take one more character when
    possible, and fall back to stopping here when the rest fails. *)
Fixpoint m_star (p : ascii -> bool) (pos : nat) (s : string)
         (k : nat -> string -> option A) : option A :=
  match s with
  | String c s' =>
      if p c then
        match m_star p (S pos) s' k with
        | Some a => Some a
        | None => k pos s
        end
      else k pos s
  | EmptyString => k pos s
  end.

(** The backtracking matcher in continuation style: [rmatch r pos s cs k]
    matches [r] at the head of [s], which sits at offset [pos] of the
    input, and hands position, rest and captures to [k]. *)
Fixpoint rmatch (r : regex) (pos : nat) (s : string) (cs : captures)
         (k : nat -> string -> captures -> option A) : option A :=
  match r with
  | Lit l => m_lit l pos s (fun pos' s' => k pos' s' cs)
  | LitI l => m_liti l pos s (fun pos' s' => k pos' s' cs)
  | Class p =>
      match s with
      | String c s' => if p c then k (S pos) s' cs else None
      | EmptyString => None
      end
  | Star p => m_star p pos s (fun pos' s' => k pos' s' cs)
  | Plus p =>
      match s with
      | String c s' =>
          if p c then m_star p (S pos) s' (fun pos' s' => k pos' s' cs)
          else None
      | EmptyString => None
      end
  | Opt r1 =>
      match rmatch r1 pos s cs k with
      | Some a => Some a
      | None => k pos s cs
      end
  | Alt r1 r2 =>
      match rmatch r1 pos s cs k with
      | Some a => Some a
      | None => rmatch r2 pos s cs k
      end
  | Seq r1 r2 =>
      rmatch r1 pos s cs (fun pos' s' cs' => rmatch r2 pos' s' cs' k)
  | Group i r1 =>
      rmatch r1 pos s cs
        (fun pos' s' cs' => k pos' s' ((i, substring 0 (pos' - pos) s) :: cs'))
  | Bol => if (pos =? 0)%nat then k pos s cs else None
  | Eol =>
      match s with
      | EmptyString => k pos s cs
      | String _ _ => None
      end
  end.

End Matcher.

(** One attempt at offset [pos]. *)
Definition exec_at (r : regex) (pos : nat) (s : string) : option rmatch_result :=
  rmatch r pos s []
    (fun pos' s' cs => Some (MatchResult pos (substring 0 (pos' - pos) s) cs s')).

(** The leftmost match at or after offset [pos]. *)
Fixpoint search (r : regex) (pos : nat) (s : string) : option rmatch_result :=
  match exec_at r pos s with
  | Some m => Some m
  | None =>
      match s with
      | String _ s' => search r (S pos) s'
      | EmptyString => None
      end
  end.

(** [s.match(r)] without the [g] flag. *)
Definition str_match (r : regex) (s : string) : option rmatch_result :=
  search r 0 s.

(** [s.replace(r, '')] without the [g] flag: the first match is removed. *)
Definition replace_first (r : regex) (s : string) : string :=
  match str_match r s with
  | Some m => substring 0 (m_index m) s ++ m_rest m
  | None => s
  end.

(** [s.match(r)] with the [g] flag: every match, left to right, each
    search resuming where the previous match ended (one character further
    after an empty match).  [skip] counts the characters of the previous
    match still to be passed over. *)
Fixpoint match_all_from (r : regex) (pos : nat) (s : string) (skip : nat)
  : list string :=
  match skip with
  | S n =>
      match s with
      | String _ s' => match_all_from r (S pos) s' n
      | EmptyString => []
      end
  | O =>
      match exec_at r pos s with
      | Some m =>
          m_text m ::
            match s with
            | String _ s' =>
                match_all_from r (S pos) s' (Nat.pred (String.length (m_text m)))
            | EmptyString => []
            end
      | None =>
          match s with
          | String _ s' => match_all_from r (S pos) s' 0
          | EmptyString => []
          end
      end
  end.

Definition match_all (r : regex) (s : string) : list string :=
  match_all_from r 0 s 0.

(** What a successful match of [r] looks like, read off the syntax of
    [r]: [w] is the text matched at offset [pos], [rest] what follows it,
    [cs] the captures before and [cs'] after. *)
Fixpoint Matches (r : regex) (pos : nat) (w rest : string)
         (cs cs' : captures) : Prop :=
  match r with
  | Lit l => w = l /\ cs' = cs
  | LitI l =>
      map to_upper (list_ascii_of_string w) = map to_upper (list_ascii_of_string l)
      /\ cs' = cs
  | Class p => (exists c, w = String c "" /\ p c = true) /\ cs' = cs
  | Star p => all_chars p w = true /\ cs' = cs
  | Plus p => w <> "" /\ all_chars p w = true /\ cs' = cs
  | Opt r1 => (w = "" /\ cs' = cs) \/ Matches r1 pos w rest cs cs'
  | Alt r1 r2 => Matches r1 pos w rest cs cs' \/ Matches r2 pos w rest cs cs'
  | Seq r1 r2 =>
      exists w1 w2 cs1,
        w = w1 ++ w2
        /\ Matches r1 pos w1 (w2 ++ rest) cs cs1
        /\ Matches r2 (pos + String.length w1) w2 rest cs1 cs'
  | Group i r1 => exists cs1, Matches r1 pos w rest cs cs1 /\ cs' = (i, w) :: cs1
  | Bol => w = "" /\ pos = 0%nat /\ cs' = cs
  | Eol => w = "" /\ rest = "" /\ cs' = cs
  end.

Definition capd (i : nat) (m : rmatch_result) : string :=
  match cap i (m_caps m) with
  | Some w => w
  | None => EmptyString
  end.

(** Lookup in an object literal used as a table. *)
Fixpoint table_get {V : Type} (key : string) (t : list (string * V)) : option V :=
  match t with
  | [] => None
  | (k, v) :: t' => if String.eqb key k then Some v else table_get key t'
  end.

End JS.

(* ====================================================================== *)
(** * src/scrape.js: the style-value parsers *)
(* ====================================================================== *)

Module Scrape.
Import JS.

Record RGBA : Type := mkRGBA { r : jsnum; g : jsnum; b : jsnum; a : jsnum }.

Record Point : Type := mkPoint { x : jsnum; y : jsnum }.

Record GradientStop : Type := mkStop { color : RGBA; position : jsnum }.

Inductive GradientType : Type := GRADIENT_LINEAR | GRADIENT_RADIAL.

Record GradientPaint : Type := mkGradient {
  gtype : GradientType;
  gradientStops : list GradientStop;
  gradientHandlePositions : list Point
}.

(** [{type: 'SOLID', color: {r, g, b}, opacity}]. *)
Record SolidPaint : Type := mkSolid {
  solid_r : jsnum; solid_g : jsnum; solid_b : jsnum; opacity : jsnum
}.

Inductive EffectType : Type := DROP_SHADOW | INNER_SHADOW.

Record Effect : Type := mkEffect {
  etype : EffectType;
  ecolor : RGBA;
  offset : Point;
  radius : jsnum;
  spread : jsnum;
  visible : bool
}.

(** ** Colours *)

(** [/rgba?\(\s*([\d.]+),\s*([\d.]+),\s*([\d.]+)(?:,\s*([\d.]+))?\s*\)/] *)
Definition rgba_re : regex :=
  Lit "rgb" >> Opt (Lit "a") >> Lit "(" >>
  Star is_space >> Group 1 (Plus digdot) >> Lit "," >>
  Star is_space >> Group 2 (Plus digdot) >> Lit "," >>
  Star is_space >> Group 3 (Plus digdot) >>
  Opt (Lit "," >> Star is_space >> Group 4 (Plus digdot)) >>
  Star is_space >> Lit ")".

Definition parseColor (colorStr : string) : option RGBA :=
  if negb (str_truthy colorStr)
     || String.eqb colorStr "transparent"
     || String.eqb colorStr "rgba(0, 0, 0, 0)"
  then None
  else
    match str_match rgba_re colorStr with
    | Some rgbaMatch =>
        Some {| r := ndiv (parseFloat (capd 1 rgbaMatch)) (num_of_Z 255);
                g := ndiv (parseFloat (capd 2 rgbaMatch)) (num_of_Z 255);
                b := ndiv (parseFloat (capd 3 rgbaMatch)) (num_of_Z 255);
                a := match cap 4 (m_caps rgbaMatch) with
                     | Some w => parseFloat w
                     | None => num_of_Z 1
                     end |}
    | None => None
    end.

Definition colorToFigmaFill (c : option RGBA) : option SolidPaint :=
  match c with
  | None => None
  | Some c => Some (mkSolid (r c) (g c) (b c) (a c))
  end.

(** The functional notation as [rgba_re] reads it: [rgb] or [rgba], an
    opening parenthesis, three numbers separated by commas, an optional
    fourth one, a closing parenthesis; white space may follow the
    parenthesis and each comma and precede the closing parenthesis; a
    number is a non-empty run of digits and dots. *)
Record rgb_notation : Type := mkNotation {
  with_a : bool;                        (* [rgba] rather than [rgb]     *)
  ws0 : string; n1 : string;            (* white space, red             *)
  ws1 : string; n2 : string;            (* white space, green           *)
  ws2 : string; n3 : string;            (* white space, blue            *)
  alpha : option (string * string);     (* white space and alpha        *)
  ws4 : string                          (* white space before [)]       *)
}.

Definition rgb_text (t : rgb_notation) : string :=
  "rgb" ++ (if with_a t then "a" else "") ++ "(" ++
  ws0 t ++ n1 t ++ "," ++ ws1 t ++ n2 t ++ "," ++ ws2 t ++ n3 t ++
  match alpha t with
  | Some (ws3, n4) => "," ++ ws3 ++ n4 ++ ws4 t ++ ")"
  | None => ws4 t ++ ")"
  end.

Definition is_number (n : string) : bool := str_truthy n && all_chars digdot n.

Definition rgb_wf (t : rgb_notation) : bool :=
  all_chars is_space (ws0 t) && is_number (n1 t)
  && all_chars is_space (ws1 t) && is_number (n2 t)
  && all_chars is_space (ws2 t) && is_number (n3 t)
  && match alpha t with
     | Some (ws3, n4) => all_chars is_space ws3 && is_number n4
     | None => true
     end
  && all_chars is_space (ws4 t).

(** ** Gradients *)

(** The loop of [splitGradientParts]: [depth] counts open parentheses
    (it may go negative), [current] is the piece being read and [parts]
    the pieces already pushed. *)
Fixpoint splitLoop (str : string) (depth : Z) (current : string)
         (parts : list string) : list string :=
  match str with
  | String ch str' =>
      let depth' :=
        if Ascii.eqb ch "(" then (depth + 1)%Z
        else if Ascii.eqb ch ")" then (depth - 1)%Z
        else depth in
      if Ascii.eqb ch "," && (depth' =? 0)%Z
      then splitLoop str' depth' EmptyString (parts ++ [current])
      else splitLoop str' depth' (current ++ String ch EmptyString) parts
  | EmptyString =>
      if str_truthy current then parts ++ [current] else parts
  end.

Definition splitGradientParts (str : string) : list string :=
  splitLoop str 0 EmptyString [].

(** A piece of an argument list, for stating what the splitter does:
    [scanPiece s depth] follows the parenthesis depth through [s] and
    fails at a comma met at depth 0; a top-level piece is balanced and has
    no such comma. *)
Fixpoint scanPiece (s : string) (depth : Z) : option Z :=
  match s with
  | EmptyString => Some depth
  | String ch s' =>
      let depth' :=
        if Ascii.eqb ch "(" then (depth + 1)%Z
        else if Ascii.eqb ch ")" then (depth - 1)%Z
        else depth in
      if Ascii.eqb ch "," && (depth' =? 0)%Z then None else scanPiece s' depth'
  end.

Definition top_level_piece (s : string) : bool :=
  match scanPiece s 0 with
  | Some 0%Z => true
  | _ => false
  end.

Definition direction_map : list (string * jsnum) :=
  [ ("to top", num_of_Z 0); ("to right", num_of_Z 90);
    ("to bottom", num_of_Z 180); ("to left", num_of_Z 270);
    ("to top right", num_of_Z 45); ("to top left", num_of_Z 315);
    ("to bottom right", num_of_Z 135); ("to bottom left", num_of_Z 225) ].

(** [map[dir] || 180].  (The caller only passes strings that start with
    [to ] followed by a space, none of which names an inherited member of
    the table object.) *)
Definition directionToAngle (dir : string) : jsnum :=
  match table_get dir direction_map with
  | Some v => if num_truthy v then v else num_of_Z 180
  | None => num_of_Z 180
  end.

(** [/([\d.]+)%\s*$/] *)
Definition percent_re : regex :=
  Group 1 (Plus digdot) >> Lit "%" >> Star is_space >> Eol.

Definition parseColorStop (str : string) (index total : nat)
  : option RGBA * jsnum :=
  let position :=
    if (1 <? total)%nat
    then ndiv (num_of_Z (Z.of_nat index)) (num_of_Z (Z.of_nat (total - 1)))
    else num_of_Z 0 in
  match str_match percent_re str with
  | Some percentMatch =>
      (parseColor (trim (replace_first percent_re str)),
       ndiv (parseFloat (capd 1 percentMatch)) (num_of_Z 100))
  | None => (parseColor str, position)
  end.

(** The loop that collects the colour stops (the linear and the radial
    parser run the same one): each part is trimmed and parsed, and kept
    when it has a colour. *)
Fixpoint stopsLoop (colorParts : list string) (i total : nat)
         (stops : list GradientStop) : list GradientStop :=
  match colorParts with
  | [] => stops
  | part :: rest =>
      let '(color, position) := parseColorStop (trim part) i total in
      match color with
      | Some c =>
          stopsLoop rest (S i) total
            (stops ++ [mkStop (mkRGBA (r c) (g c) (b c) (a c)) position])
      | None => stopsLoop rest (S i) total stops
      end
  end.

(** [/^([\d.]+)deg$/] *)
Definition angle_re : regex := Bol >> Group 1 (Plus digdot) >> Lit "deg" >> Eol.

(** [/^(rgb|hsl|#)/i] *)
Definition color_head_re : regex :=
  Bol >> Group 1 (Alt (LitI "rgb") (Alt (LitI "hsl") (LitI "#"))).

(** [/linear-gradient\(([^)]+)\)/] and [/radial-gradient\(([^)]+)\)/] *)
Definition linear_re : regex :=
  Lit "linear-gradient(" >> Group 1 (Plus not_rparen) >> Lit ")".
Definition radial_re : regex :=
  Lit "radial-gradient(" >> Group 1 (Plus not_rparen) >> Lit ")".

Section Gradients.

(** [Math.PI], [Math.cos] and [Math.sin] have no rational model: they
    are parameters of the gradient parsers. *)
Variable Math_PI : jsnum.
Variables Math_cos Math_sin : jsnum -> jsnum.

(** The first part of a linear gradient: the angle in degrees and the
    index of the first colour stop. *)
Definition linearAngle (parts : list string) : jsnum * nat :=
  let first := trim (nth 0 parts EmptyString) in
  match str_match angle_re first with
  | Some angleMatch => (parseFloat (capd 1 angleMatch), 1%nat)
  | None =>
      if startsWith first "to " then (directionToAngle first, 1%nat)
      else (num_of_Z 180, 0%nat)
  end.

Definition parseLinearGradient (content : string) : option GradientPaint :=
  let parts := splitGradientParts content in
  if (List.length parts <? 2)%nat then None
  else
    let '(angleDeg, colorStopStart) := linearAngle parts in
    let colorParts := skipn colorStopStart parts in
    let stops := stopsLoop colorParts 0 (List.length colorParts) [] in
    if (List.length stops <? 2)%nat then None
    else
      let angleRad :=
        nmul (nsub angleDeg (num_of_Z 90)) (ndiv Math_PI (num_of_Z 180)) in
      let cos := Math_cos angleRad in
      let sin := Math_sin angleRad in
      let half := Num (1 # 2) in
      Some {| gtype := GRADIENT_LINEAR;
              gradientStops := stops;
              gradientHandlePositions :=
                [ mkPoint (nsub half (nmul cos half)) (nsub half (nmul sin half));
                  mkPoint (nadd half (nmul cos half)) (nadd half (nmul sin half));
                  mkPoint (nsub half (nmul sin half)) (nadd half (nmul cos half)) ] |}.

Definition parseRadialGradient (content : string) : option GradientPaint :=
  let parts := splitGradientParts content in
  if (List.length parts <? 2)%nat then None
  else
    let first := nth 0 parts EmptyString in
    let colorStopStart :=
      if str_truthy first
         && negb (match str_match color_head_re (trim first) with
                  | Some _ => true
                  | None => false
                  end)
      then 1%nat else 0%nat in
    let colorParts := skipn colorStopStart parts in
    let stops := stopsLoop colorParts 0 (List.length colorParts) [] in
    if (List.length stops <? 2)%nat then None
    else
      Some {| gtype := GRADIENT_RADIAL;
              gradientStops := stops;
              gradientHandlePositions :=
                [ mkPoint (Num (1 # 2)) (Num (1 # 2));
                  mkPoint (num_of_Z 1) (Num (1 # 2));
                  mkPoint (Num (1 # 2)) (num_of_Z 1) ] |}.

Definition parseGradient (bgImage : string) : option GradientPaint :=
  if negb (str_truthy bgImage) || String.eqb bgImage "none" then None
  else
    match str_match linear_re bgImage with
    | Some linearMatch => parseLinearGradient (capd 1 linearMatch)
    | None =>
        match str_match radial_re bgImage with
        | Some radialMatch => parseRadialGradient (capd 1 radialMatch)
        | None => None
        end
    end.

End Gradients.

(** ** Shadows *)

(** [/^inset\s*/] *)
Definition inset_re : regex := Bol >> Lit "inset" >> Star is_space.

(** [/rgba?\([^)]+\)/] *)
Definition rgba_any_re : regex :=
  Lit "rgb" >> Opt (Lit "a") >> Lit "(" >> Plus not_rparen >> Lit ")".

(** [/-?[\d.]+px/g] *)
Definition px_re : regex := Opt (Lit "-") >> Plus digdot >> Lit "px".

(** What is left of a clause once [inset] and the colour are taken out,
    and the colour. *)
Definition shadowColorAndRest (cleaned : string) : option RGBA * string :=
  match str_match rgba_any_re cleaned with
  | Some rgbaMatch =>
      (parseColor (m_text rgbaMatch), trim (remove_first (m_text rgbaMatch) cleaned))
  | None => (None, cleaned)
  end.

(** The [<number>px] tokens of a clause, in order ([null] and the empty
    list are the same to the caller). *)
Definition shadowNums (shadow : string) : list string :=
  let cleaned := replace_first inset_re (trim shadow) in
  match_all px_re (snd (shadowColorAndRest cleaned)).

(** The body of the loop of [parseBoxShadow]: the effect a clause
    contributes, or [None] where the source says [continue]. *)
Definition shadowClause (shadow : string) : option Effect :=
  let trimmed := trim shadow in
  let isInner := startsWith trimmed "inset" in
  let cleaned := replace_first inset_re trimmed in
  let '(color, rest) := shadowColorAndRest cleaned in
  let nums := match_all px_re rest in
  if (List.length nums <? 2)%nat then None
  else
    let offsetX := parseFloat (nth 0 nums EmptyString) in
    let offsetY := parseFloat (nth 1 nums EmptyString) in
    let blur := match nth_error nums 2 with
                | Some n => parseFloat n
                | None => num_of_Z 0
                end in
    let spread := match nth_error nums 3 with
                  | Some n => parseFloat n
                  | None => num_of_Z 0
                  end in
    let color := match color with
                 | Some c => c
                 | None => mkRGBA (num_of_Z 0) (num_of_Z 0) (num_of_Z 0) (Num (1 # 4))
                 end in
    Some {| etype := if isInner then INNER_SHADOW else DROP_SHADOW;
            ecolor := mkRGBA (r color) (g color) (b color) (a color);
            offset := mkPoint offsetX offsetY;
            radius := blur;
            spread := spread;
            visible := true |}.

Fixpoint shadowLoop (shadows : list string) (effects : list Effect)
  : list Effect :=
  match shadows with
  | [] => effects
  | shadow :: rest =>
      match shadowClause shadow with
      | Some e => shadowLoop rest (effects ++ [e])
      | None => shadowLoop rest effects
      end
  end.

Definition parseBoxShadow (shadowStr : string) : list Effect :=
  if negb (str_truthy shadowStr) || String.eqb shadowStr "none" then []
  else shadowLoop (splitGradientParts shadowStr) [].


(** ** The address of a background image *)

Definition is_quote (c : ascii) : bool := Ascii.eqb c "034" || Ascii.eqb c "'".

(** The class of [url_re]: anything but the two quotes and the closing
    parenthesis. *)
Definition url_char (c : ascii) : bool := negb (is_quote c || Ascii.eqb c ")").

(** The pattern of [extractBackgroundImageUrl]: [url(], an optional
    quote, the captured address (one or more characters of the class), an
    optional quote, [)]. *)
Definition url_re : regex :=
  Lit "url(" >> Opt (Class is_quote) >> Group 1 (Plus url_char) >>
  Opt (Class is_quote) >> Lit ")".

Definition extractBackgroundImageUrl (bgImage : string) : option string :=
  if negb (str_truthy bgImage) || String.eqb bgImage "none" then None
  else
    match str_match url_re bgImage with
    | Some urlMatch => Some (capd 1 urlMatch)
    | None => None
    end.

(** ** Computed styles

    A computed style is read by property name, [cs[name]]; every
    property the extractors read is a standard one, whose value is a
    string. *)
Definition style : Type := string -> string.

(** ** Borders *)

(** What [extractBorders] returns. *)
Record BorderData : Type := mkBorderData {
  bd_strokes : list SolidPaint;
  bd_strokeWeight : jsnum;
  bd_strokeAlign : string
}.

Definition border_sides : list string := ["Top"; "Right"; "Bottom"; "Left"].

(** [array.filter(Boolean)] on a list of paints or nulls. *)
Fixpoint filterBoolean {A : Type} (l : list (option A)) : list A :=
  match l with
  | [] => []
  | Some v :: l' => v :: filterBoolean l'
  | None :: l' => filterBoolean l'
  end.

(** The loop over the sides, with [hasAnyBorder], [strokes] and
    [strokeWeight] as they stand. *)
Fixpoint bordersLoop (cs : style) (sides : list string) (hasAnyBorder : bool)
         (strokes : list (option SolidPaint)) (strokeWeight : jsnum)
  : bool * list (option SolidPaint) * jsnum :=
  match sides with
  | [] => (hasAnyBorder, strokes, strokeWeight)
  | side :: rest =>
      let width := parseFloat (cs ("border" ++ side ++ "Width")) in
      let style := cs ("border" ++ side ++ "Style") in
      let color := parseColor (cs ("border" ++ side ++ "Color")) in
      if ngt width (num_of_Z 0)
         && negb (String.eqb style "none")
         && match color with Some _ => true | None => false end
      then
        bordersLoop cs rest true
          (if (List.length strokes =? 0)%nat
           then (strokes ++ [colorToFigmaFill color])%list
           else strokes)
          (Math_max strokeWeight width)
      else bordersLoop cs rest hasAnyBorder strokes strokeWeight
  end.

Definition extractBorders (cs : style) : option BorderData :=
  let '(hasAnyBorder, strokes, strokeWeight) :=
    bordersLoop cs border_sides false [] (num_of_Z 0) in
  if negb hasAnyBorder then None
  else Some (mkBorderData (filterBoolean strokes) strokeWeight "INSIDE").

(** For stating what [extractBorders] does: the width of a side, and
    whether the side counts (a positive width, a style other than [none],
    a colour [parseColor] reads). *)
Definition side_width (cs : style) (side : string) : jsnum :=
  parseFloat (cs ("border" ++ side ++ "Width")).

Definition side_visible (cs : style) (side : string) : bool :=
  ngt (side_width cs side) (num_of_Z 0)
  && negb (String.eqb (cs ("border" ++ side ++ "Style")) "none")
  && match parseColor (cs ("border" ++ side ++ "Color")) with
     | Some _ => true
     | None => false
     end.

(** ** Backgrounds *)

Inductive Paint : Type :=
| SolidFill (p : SolidPaint)
| GradientFill (p : GradientPaint).

Section Backgrounds.

Variable Math_PI : jsnum.
Variables Math_cos Math_sin : jsnum -> jsnum.

Definition extractBackground (cs : style) : option (list Paint) :=
  let fills :=
    match parseColor (cs "backgroundColor") with
    | Some bgColor =>
        match colorToFigmaFill (Some bgColor) with
        | Some fill => [SolidFill fill]
        | None => []
        end
    | None => []
    end in
  let fills :=
    match parseGradient Math_PI Math_cos Math_sin (cs "backgroundImage") with
    | Some gradient => (fills ++ [GradientFill gradient])%list
    | None => fills
    end in
  if (0 <? List.length fills)%nat then Some fills else None.

End Backgrounds.

(** A number that is not negative (or no number at all). *)
Definition not_negative (n : jsnum) : Prop :=
  match n with
  | Num q => 0 <= q
  | NaN => True
  end.

(** ** Corner radii *)

(** [n || 0]. *)
Definition or_zero (n : jsnum) : jsnum :=
  if num_truthy n then n else num_of_Z 0.

(** The four fields [extractCornerRadius] sets on the node. *)
Record CornerRadii : Type := mkRadii {
  cr_topLeft : jsnum;
  cr_topRight : jsnum;
  cr_bottomRight : jsnum;
  cr_bottomLeft : jsnum
}.

(** [extractCornerRadius(cs, node)]: the fields it assigns, [None] when
    it leaves the node as it is. *)
Definition extractCornerRadius (cs : style) : option CornerRadii :=
  let tl := or_zero (parseFloat (cs "borderTopLeftRadius")) in
  let tr := or_zero (parseFloat (cs "borderTopRightRadius")) in
  let br := or_zero (parseFloat (cs "borderBottomRightRadius")) in
  let bl := or_zero (parseFloat (cs "borderBottomLeftRadius")) in
  if ngt tl (num_of_Z 0) || ngt tr (num_of_Z 0)
     || ngt br (num_of_Z 0) || ngt bl (num_of_Z 0)
  then Some (mkRadii tl tr br bl)
  else None.

End Scrape.


(* ====================================================================== *)
(** * The plugin (code.js): the materializer *)
(* ====================================================================== *)

Module Plugin.
Import JS.

(** ** Dynamically typed values

    What [JSON.parse] can produce, plus [undefined] (what reading a
    missing property gives) and the built-in members an object literal
    inherits, which a lookup by computed key can reach. *)

Inductive jsval : Type :=
| VUndef
| VNull
| VBool (b : bool)
| VNum (n : jsnum)
| VStr (s : string)
| VArr (items : list jsval)
| VObj (fields : list (string * jsval))
| VBuiltin (name : string).

Definition vnum (z : Z) : jsval := VNum (num_of_Z z).

Inductive exn : Type :=
| TypeError        (* a property of null/undefined, or a call of a non-function *)
| FontError.       (* [figma.loadFontAsync] rejected *)

(** How a piece of code ends.  [Unmodelled] marks the conversions this
    model does not follow (the numeric value of a string, an array or an
    object); [OutOfFuel] is the recursion bound of [processNode]. *)
Inductive outcome (A : Type) : Type :=
| Ok (a : A)
| Throw (e : exn)
| Unmodelled
| OutOfFuel.

Arguments Ok {A} a.
Arguments Throw {A} e.
Arguments Unmodelled {A}.
Arguments OutOfFuel {A}.

Definition rbind {A B : Type} (m : outcome A) (f : A -> outcome B) : outcome B :=
  match m with
  | Ok a => f a
  | Throw e => Throw e
  | Unmodelled => Unmodelled
  | OutOfFuel => OutOfFuel
  end.

Declare Scope outcome_scope.
Delimit Scope outcome_scope with R.
Notation "x <- m ;; k" := (rbind m (fun x => k))
  (at level 100, m at next level, right associativity) : outcome_scope.
Local Open Scope outcome_scope.

Fixpoint mapR {A B : Type} (f : A -> outcome B) (l : list A) : outcome (list B) :=
  match l with
  | [] => Ok []
  | v :: l' => w <- f v ;; ws <- mapR f l' ;; Ok (w :: ws)
  end.

Definition truthy (v : jsval) : bool :=
  match v with
  | VUndef | VNull => false
  | VBool b => b
  | VNum n => num_truthy n
  | VStr s => str_truthy s
  | VArr _ | VObj _ | VBuiltin _ => true
  end.

(** [v || d]. *)
Definition or_else (v d : jsval) : jsval := if truthy v then v else d.

Definition is_undefined (v : jsval) : bool :=
  match v with
  | VUndef => true
  | _ => false
  end.

(** [v === 'lit']. *)
Definition is_str (v : jsval) (lit : string) : bool :=
  match v with
  | VStr s => String.eqb s lit
  | _ => false
  end.

Definition isArray (v : jsval) : bool :=
  match v with
  | VArr _ => true
  | _ => false
  end.

Definition nat_num (n : nat) : jsnum := num_of_Z (Z.of_nat n).

(** [v.name] for the property names the plugin reads (none of them is
    inherited from a prototype). *)
Definition get (v : jsval) (name : string) : outcome jsval :=
  match v with
  | VUndef | VNull => Throw TypeError
  | VObj fields =>
      Ok (match table_get name fields with
          | Some w => w
          | None => VUndef
          end)
  | VArr items =>
      Ok (if String.eqb name "length" then VNum (nat_num (List.length items))
          else VUndef)
  | VStr s =>
      Ok (if String.eqb name "length" then VNum (nat_num (String.length s))
          else VUndef)
  | VBool _ | VNum _ => Ok VUndef
  | VBuiltin _ => Unmodelled
  end.

Definition index_key (i : nat) : string :=
  String (ascii_of_nat (48 + i)) EmptyString.

(** [v[i]] for a literal index [i] below 10. *)
Definition at_index (v : jsval) (i : nat) : outcome jsval :=
  match v with
  | VUndef | VNull => Throw TypeError
  | VArr items => Ok (nth i items VUndef)
  | VStr s =>
      Ok (match String.get i s with
          | Some c => VStr (String c EmptyString)
          | None => VUndef
          end)
  | VObj fields =>
      Ok (match table_get (index_key i) fields with
          | Some w => w
          | None => VUndef
          end)
  | VBool _ | VNum _ => Ok VUndef
  | VBuiltin _ => Unmodelled
  end.

(** The numeric value of an operand.  A string, an array or an object
    is converted by the code too (a string that is no numeric literal
    gives NaN); those conversions are outside the model, a run that
    needs one ends in [Unmodelled], and the properties that depend on the
    numbers carry the shape of the document as a hypothesis. *)
Definition toNumber (v : jsval) : outcome jsnum :=
  match v with
  | VUndef => Ok NaN
  | VNull => Ok (num_of_Z 0)
  | VBool b => Ok (num_of_Z (if b then 1 else 0))
  | VNum n => Ok n
  | VStr _ | VArr _ | VObj _ | VBuiltin _ => Unmodelled
  end.

(** [Math.max(v, n)], [v > n], [v < n] against a numeric literal. *)
Definition maxWith (v : jsval) (n : jsnum) : outcome jsnum :=
  x <- toNumber v ;; Ok (Math_max x n).

Definition gtNum (v : jsval) (n : jsnum) : outcome bool :=
  x <- toNumber v ;; Ok (ngt x n).

Definition ltNum (v : jsval) (n : jsnum) : outcome bool :=
  x <- toNumber v ;; Ok (nlt x n).

(** [v && v.length > 0]. *)
Definition has_items (v : jsval) : outcome bool :=
  if truthy v then (len <- get v "length" ;; gtNum len (num_of_Z 0))
  else Ok false.

(** [v.map(f)]: an array maps; anything else has no callable [map]. *)
Definition array_map (f : jsval -> outcome jsval) (v : jsval) : outcome jsval :=
  match v with
  | VArr items => ws <- mapR f items ;; Ok (VArr ws)
  | VBuiltin _ => Unmodelled
  | _ => Throw TypeError
  end.

(** ** Sanitizers *)

(** [clamp(val, min = 0, max = 1)]. *)
Definition clamp (val : jsval) : outcome jsnum :=
  x <- toNumber val ;; Ok (Math_min (Math_max x (num_of_Z 0)) (num_of_Z 1)).

Definition identityTransform : jsval :=
  VArr [ VArr [vnum 1; vnum 0; vnum 0]; VArr [vnum 0; vnum 1; vnum 0] ].

(** [p - q]. *)
Definition minus (p q : jsval) : outcome jsval :=
  x <- toNumber p ;; y <- toNumber q ;; Ok (VNum (nsub x y)).

Definition handlePositionsToTransform (handles : jsval) : outcome jsval :=
  short <- (if truthy handles
            then (len <- get handles "length" ;; ltNum len (num_of_Z 3))
            else Ok true) ;;
  if (short : bool) then Ok identityTransform
  else
    start <- at_index handles 0 ;;
    end_ <- at_index handles 1 ;;
    width <- at_index handles 2 ;;
    ex <- get end_ "x" ;; sx <- get start "x" ;; dx <- minus ex sx ;;
    ey <- get end_ "y" ;; sy <- get start "y" ;; dy <- minus ey sy ;;
    wx0 <- get width "x" ;; wx <- minus wx0 sx ;;
    wy0 <- get width "y" ;; wy <- minus wy0 sy ;;
    Ok (VArr [ VArr [dx; wx; sx]; VArr [dy; wy; sy] ]).

(** [{r: clamp(c.r || 0), g: ..., b: ...}] and, with [withAlpha], the
    component [a: c.a !== undefined ? clamp(c.a) : 1]. *)
Definition clampColor (c : jsval) (withAlpha : bool) : outcome jsval :=
  cr <- get c "r" ;; r' <- clamp (or_else cr (vnum 0)) ;;
  cg <- get c "g" ;; g' <- clamp (or_else cg (vnum 0)) ;;
  cb <- get c "b" ;; b' <- clamp (or_else cb (vnum 0)) ;;
  if withAlpha then
    ca <- get c "a" ;;
    a' <- (if is_undefined ca then Ok (num_of_Z 1) else clamp ca) ;;
    Ok (VObj [("r", VNum r'); ("g", VNum g'); ("b", VNum b'); ("a", VNum a')])
  else
    Ok (VObj [("r", VNum r'); ("g", VNum g'); ("b", VNum b')]).

(** The callback of [gradientStops.map]. *)
Definition sanitizeStop (stop : jsval) : outcome jsval :=
  sc0 <- get stop "color" ;;
  color <- clampColor (or_else sc0 (VObj [])) true ;;
  p <- get stop "position" ;;
  position <- clamp (or_else p (vnum 0)) ;;
  Ok (VObj [("color", color); ("position", VNum position)]).

(** The callback of [fills.map]. *)
Definition sanitizeFill (fill : jsval) : outcome jsval :=
  ty <- get fill "type" ;;
  if is_str ty "SOLID" then
    c0 <- get fill "color" ;;
    color <- clampColor (or_else c0 (VObj [])) false ;;
    op <- get fill "opacity" ;;
    opacity <- (if is_undefined op then Ok (num_of_Z 1) else clamp op) ;;
    Ok (VObj [("type", VStr "SOLID"); ("color", color); ("opacity", VNum opacity)])
  else if is_str ty "GRADIENT_LINEAR" || is_str ty "GRADIENT_RADIAL" then
    gs <- get fill "gradientStops" ;;
    stops <- array_map sanitizeStop (or_else gs (VArr [])) ;;
    hp <- get fill "gradientHandlePositions" ;;
    transform <- (if truthy hp then handlePositionsToTransform hp
                  else Ok identityTransform) ;;
    Ok (VObj [("type", ty); ("gradientStops", stops);
              ("gradientTransform", transform)])
  else Ok fill.

Definition sanitizeFills (fills : jsval) : outcome jsval :=
  if negb (truthy fills) || negb (isArray fills) then Ok (VArr [])
  else
    match fills with
    | VArr items => ws <- mapR sanitizeFill items ;; Ok (VArr (filter truthy ws))
    | _ => Ok (VArr [])
    end.

(** The callback of [node.effects.map] in [applyEffects]. *)
Definition sanitizeEffect (effect : jsval) : outcome jsval :=
  ec0 <- get effect "color" ;;
  eo0 <- get effect "offset" ;;
  let eo := or_else eo0 (VObj []) in
  ty <- get effect "type" ;;
  color <- clampColor (or_else ec0 (VObj [])) true ;;
  ox <- get eo "x" ;;
  oy <- get eo "y" ;;
  rad <- get effect "radius" ;;
  radius <- maxWith (or_else rad (vnum 0)) (num_of_Z 0) ;;
  sp <- get effect "spread" ;;
  Ok (VObj [("type", ty); ("color", color);
            ("offset", VObj [("x", or_else ox (vnum 0)); ("y", or_else oy (vnum 0))]);
            ("radius", VNum radius);
            ("spread", or_else sp (vnum 0));
            ("visible", VBool true)]).

(** [sanitizeFontFamily]: quotes removed, the first comma-separated
    name, trimmed, then the table of system fonts. *)
Fixpoint stripQuotes (s : string) : string :=
  match s with
  | EmptyString => EmptyString
  | String c s' =>
      if Ascii.eqb c "'" || Ascii.eqb c "034" then stripQuotes s'
      else String c (stripQuotes s')
  end.

Fixpoint beforeComma (s : string) : string :=
  match s with
  | EmptyString => EmptyString
  | String c s' => if Ascii.eqb c "," then EmptyString else String c (beforeComma s')
  end.

Definition systemFontMap : list (string * string) :=
  [ ("system-ui", "Inter"); ("-apple-system", "Inter");
    ("BlinkMacSystemFont", "Inter"); ("Segoe UI", "Inter");
    ("ui-sans-serif", "Inter"); ("ui-serif", "Georgia");
    ("ui-monospace", "Roboto Mono"); ("sans-serif", "Inter");
    ("serif", "Georgia"); ("monospace", "Roboto Mono") ].

(** The members every object literal inherits. *)
Definition inherited : list string :=
  [ "constructor"; "toString"; "toLocaleString"; "valueOf"; "hasOwnProperty";
    "isPrototypeOf"; "propertyIsEnumerable"; "__proto__";
    "__defineGetter__"; "__defineSetter__"; "__lookupGetter__";
    "__lookupSetter__" ].

Definition sanitizeFontFamily (family : jsval) : outcome jsval :=
  if negb (truthy family) then Ok (VStr "Inter")
  else
    match family with
    | VStr f =>
        let cleaned := trim (beforeComma (stripQuotes f)) in
        match table_get cleaned systemFontMap with
        | Some mapped => Ok (VStr mapped)      (* every entry is truthy *)
        | None =>
            if existsb (String.eqb cleaned) inherited then Ok (VBuiltin cleaned)
            else Ok (VStr cleaned)
        end
    | VBuiltin _ => Unmodelled
    | _ => Throw TypeError                      (* no [replace] method *)
    end.

(** ** The shape of the document (the IR schema)

    The vocabulary the properties below are stated in: what a paint, a
    gradient stop, an effect and a text node of the document look like.
    A numeric field is absent or holds a number; a list field is absent or
    holds an array. *)

(** [v.name] of an object, [undefined] for anything else. *)
Definition field (name : string) (v : jsval) : jsval :=
  match v with
  | VObj fields =>
      match table_get name fields with
      | Some w => w
      | None => VUndef
      end
  | _ => VUndef
  end.

Definition is_obj (v : jsval) : bool :=
  match v with
  | VObj _ => true
  | _ => false
  end.

Definition no_builtin (v : jsval) : bool :=
  match v with
  | VBuiltin _ => false
  | _ => true
  end.

(** A number (not NaN), or missing. *)
Definition numeric (v : jsval) : bool :=
  match v with
  | VUndef | VNum (Num _) => true
  | _ => false
  end.

(** A number other than zero. *)
Definition nonzero (v : jsval) : bool :=
  match v with
  | VNum (Num q) => negb (Qeq_bool q 0)
  | _ => false
  end.

Definition list_of (ok : jsval -> bool) (v : jsval) : bool :=
  match v with
  | VUndef => true
  | VArr items => forallb ok items
  | _ => false
  end.

Definition nonempty_list (v : jsval) : bool :=
  match v with
  | VArr (_ :: _) => true
  | _ => false
  end.

Definition color_ok (c : jsval) : bool :=
  match c with
  | VUndef => true
  | VObj _ =>
      numeric (field "r" c) && numeric (field "g" c)
      && numeric (field "b" c) && numeric (field "a" c)
  | _ => false
  end.

Definition stop_ok (stop : jsval) : bool :=
  is_obj stop && color_ok (field "color" stop) && numeric (field "position" stop).

Definition point_ok (p : jsval) : bool :=
  is_obj p && numeric (field "x" p) && numeric (field "y" p).

Definition is_solid (fill : jsval) : bool := is_str (field "type" fill) "SOLID".

Definition is_gradient (fill : jsval) : bool :=
  is_str (field "type" fill) "GRADIENT_LINEAR"
  || is_str (field "type" fill) "GRADIENT_RADIAL".

(** A paint: an object; a solid one has numeric channels and opacity, a
    gradient has well-formed stops and handle points; a paint of another
    type is unconstrained. *)
Definition paint_ok (fill : jsval) : bool :=
  is_obj fill
  && if is_solid fill then
       color_ok (field "color" fill) && numeric (field "opacity" fill)
     else if is_gradient fill then
       list_of stop_ok (field "gradientStops" fill)
       && list_of point_ok (field "gradientHandlePositions" fill)
     else true.

Definition effect_ok (effect : jsval) : bool :=
  is_obj effect
  && color_ok (field "color" effect)
  && no_builtin (field "offset" effect)
  && numeric (field "radius" effect).

(** A sanitized gradient with its transform set to the identity; any
    other paint as it is. *)
Definition withIdentityTransform (fill : jsval) : jsval :=
  if is_gradient fill then
    VObj [("type", field "type" fill);
          ("gradientStops", field "gradientStops" fill);
          ("gradientTransform", identityTransform)]
  else fill.

(** A TEXT node of the document. *)
Definition text_node_ok (node : jsval) : bool :=
  is_obj node
  && list_of paint_ok (field "backgroundFills" node)
  && list_of paint_ok (field "strokes" node)
  && list_of paint_ok (field "fills" node)
  && list_of effect_ok (field "effects" node)
  && numeric (field "topLeftRadius" node)
  && numeric (field "topRightRadius" node)
  && numeric (field "bottomRightRadius" node)
  && numeric (field "bottomLeftRadius" node)
  && numeric (field "width" node)
  && numeric (field "height" node)
  && match field "fontFamily" node with
     | VUndef | VStr _ => true
     | _ => false
     end
  && no_builtin (field "lineHeight" node).

(** What the claim about text nodes calls needing a wrapper: a
    non-empty [backgroundFills], a non-empty [strokes], a nonzero corner
    radius, or an effect. *)
Definition wrapper_required (node : jsval) : bool :=
  nonempty_list (field "backgroundFills" node)
  || nonempty_list (field "strokes" node)
  || nonzero (field "topLeftRadius" node)
  || nonzero (field "topRightRadius" node)
  || nonzero (field "bottomRightRadius" node)
  || nonzero (field "bottomLeftRadius" node)
  || nonempty_list (field "effects" node).

(** A number between 0 and 1. *)
Definition unit_interval (v : jsval) : Prop :=
  exists q, v = VNum (Num q) /\ 0 <= q /\ q <= 1.

(** An effect as the plugin hands it to the host. *)
Definition applied_effect (out : jsval) : Prop :=
  exists ty r g b a ox oy rad sp,
    out = VObj [("type", ty);
                ("color", VObj [("r", r); ("g", g); ("b", b); ("a", a)]);
                ("offset", VObj [("x", ox); ("y", oy)]);
                ("radius", VNum (Num rad));
                ("spread", sp);
                ("visible", VBool true)]
    /\ unit_interval r /\ unit_interval g /\ unit_interval b /\ unit_interval a
    /\ 0 <= rad.

(** The document of an import message has a root node. *)
Definition has_root (data : jsval) : bool := truthy (field "rootNode" data).

(** ** The host: scene store, notifications, messages to the UI

    The host design tool is modelled as a store that records what the
    plugin asks of it: nodes with the properties assigned to them and
    their children, the notifications shown and the messages posted.  The
    host's own validation of what it is given is not modelled. *)

Inductive node_kind : Type := FRAME | TEXT | RECTANGLE.

Record fnode : Type := mkNode {
  kind : node_kind;
  props : list (string * jsval);      (* most recent assignment first *)
  kids : list nat
}.

Inductive notice : Type :=
| InvalidDesign                (* 'Invalid design.json - missing rootNode' *)
| StartingImport               (* 'Starting import...'                     *)
| ImportComplete (layers : nat)
| ImportFailed (e : exn).

Inductive progress_text : Type :=
| PStarting
| PProcessing (processed total : nat)
| PComplete
| PError (e : exn).

Record state : Type := mkState {
  nodes : list fnode;                         (* the scene; a node's id is its index *)
  notices : list notice;                      (* figma.notify, oldest first          *)
  posts : list (progress_text * jsnum);       (* figma.ui.postMessage                *)
  views : list (list nat);                    (* scrollAndZoomIntoView               *)
  loads : nat;                                (* font loads attempted so far         *)
  totalNodes : nat;
  processedNodes : nat
}.

Definition M (A : Type) : Type := state -> outcome A * state.

Definition ret {A : Type} (a : A) : M A := fun s => (Ok a, s).

Definition bind {A B : Type} (m : M A) (f : A -> M B) : M B :=
  fun s =>
    match m s with
    | (Ok a, s') => f a s'
    | (Throw e, s') => (Throw e, s')
    | (Unmodelled, s') => (Unmodelled, s')
    | (OutOfFuel, s') => (OutOfFuel, s')
    end.

(** A pure computation inside a stateful one. *)
Definition lift {A : Type} (r : outcome A) : M A := fun s => (r, s).

(** [try { body } catch (error) { handler(error) }]. *)
Definition try_catch {A : Type} (body : M A) (handler : exn -> M A) : M A :=
  fun s =>
    match body s with
    | (Throw e, s') => handler e s'
    | other => other
    end.

Declare Scope plugin_scope.
Delimit Scope plugin_scope with M.
Notation "x <~ m ;; k" := (bind m (fun x => k))
  (at level 100, m at next level, right associativity) : plugin_scope.
Notation "m ;;; k" := (bind m (fun _ => k))
  (at level 100, right associativity) : plugin_scope.
Local Open Scope plugin_scope.

Fixpoint update_nth {A : Type} (i : nat) (f : A -> A) (l : list A) : list A :=
  match l, i with
  | [], _ => []
  | a :: l', O => f a :: l'
  | a :: l', S i' => a :: update_nth i' f l'
  end.

Definition with_nodes (f : list fnode -> list fnode) (s : state) : state :=
  mkState (f (nodes s)) (notices s) (posts s) (views s) (loads s)
          (totalNodes s) (processedNodes s).

(** [figma.createFrame()], [createText()], [createRectangle()]. *)
Definition createNode (k : node_kind) : M nat :=
  fun s => (Ok (List.length (nodes s)),
            with_nodes (fun ns => (ns ++ [mkNode k [] []])%list) s).

(** [node.name = v]. *)
Definition setProp (id : nat) (name : string) (v : jsval) : M unit :=
  fun s => (Ok tt,
            with_nodes (update_nth id (fun n =>
              mkNode (kind n) ((name, v) :: props n) (kids n))) s).

(** The value of a property of a scene node, [undefined] when it was
    never assigned. *)
Definition prop_of (s : state) (id : nat) (name : string) : jsval :=
  match nth_error (nodes s) id with
  | Some n => match table_get name (props n) with
              | Some v => v
              | None => VUndef
              end
  | None => VUndef
  end.

(** [node.name]. *)
Definition getProp (id : nat) (name : string) : M jsval :=
  fun s => (Ok (prop_of s id name), s).

(** [node.resize(w, h)]. *)
Definition resize (id : nat) (w h : jsval) : M unit :=
  setProp id "width" w ;;; setProp id "height" h.

(** [parent.appendChild(child)]. *)
Definition appendChild (parent child : nat) : M unit :=
  fun s => (Ok tt,
            with_nodes (update_nth parent (fun n =>
              mkNode (kind n) (props n) (kids n ++ [child])%list)) s).

(** [typeof node.appendChild === 'function']: frames only. *)
Definition canAppend (id : nat) : M bool :=
  fun s => (Ok (match nth_error (nodes s) id with
                | Some n => match kind n with FRAME => true | _ => false end
                | None => false
                end), s).

(** [figma.notify(n)]. *)
Definition notify (n : notice) : M unit :=
  fun s => (Ok tt,
            mkState (nodes s) (notices s ++ [n])%list (posts s) (views s) (loads s)
                    (totalNodes s) (processedNodes s)).

(** [sendProgress(message, percent)]. *)
Definition sendProgress (message : progress_text) (percent : jsnum) : M unit :=
  fun s => (Ok tt,
            mkState (nodes s) (notices s) (posts s ++ [(message, percent)])%list
                    (views s) (loads s) (totalNodes s) (processedNodes s)).

(** [figma.viewport.scrollAndZoomIntoView(ids)]. *)
Definition scrollAndZoomIntoView (ids : list nat) : M unit :=
  fun s => (Ok tt,
            mkState (nodes s) (notices s) (posts s) (views s ++ [ids])%list (loads s)
                    (totalNodes s) (processedNodes s)).

Definition setCounters (total processed : nat) : M unit :=
  fun s => (Ok tt,
            mkState (nodes s) (notices s) (posts s) (views s) (loads s)
                    total processed).

Definition getCounters : M (nat * nat) :=
  fun s => (Ok (totalNodes s, processedNodes s), s).

(** [Math.round]. *)
Definition Math_round (n : jsnum) : jsnum :=
  match n with
  | Num q => num_of_Z (Qfloor (q + (1 # 2)))
  | NaN => NaN
  end.

(** [m], run from a state where [P] holds, returns normally, with a
    value and in a state that satisfy [Q]. *)
Definition returns {A : Type} (P : state -> Prop) (m : M A)
           (Q : A -> state -> Prop) : Prop :=
  forall s, P s -> exists a s', m s = (Ok a, s') /\ Q a s'.

(** The scene is [pre] followed by one node of kind [k] with children
    [children], whose properties satisfy [ok]. *)
Definition top_node (pre : list fnode) (k : node_kind) (children : list nat)
           (ok : list (string * jsval) -> Prop) (s : state) : Prop :=
  exists ps, nodes s = (pre ++ [mkNode k ps children])%list /\ ok ps.

(** What a scene node shows apart from its children. *)
Definition face (n : fnode) : node_kind * list (string * jsval) := (kind n, props n).

(** The first [n0] nodes of [s] are still there in [s'], with their kind
    and properties as they were. *)
Definition old_kept (n0 : nat) (s s' : state) : Prop :=
  (n0 <= List.length (nodes s'))%nat
  /\ forall id, (id < n0)%nat ->
                option_map face (nth_error (nodes s') id)
                = option_map face (nth_error (nodes s) id).

(** A computation that did not stop at the recursion bound. *)
Definition fueled {A : Type} (r : outcome A) : Prop := r <> OutOfFuel.

(** [m], run in a state where [Inv] holds, does not stop at the
    recursion bound, ends (normally or not) in a state where [Inv] holds
    again, and returns, when it does, a value that satisfies [Q]. *)
Definition maintains {A : Type} (Inv : state -> Prop) (m : M A)
           (Q : A -> Prop) : Prop :=
  forall s, Inv s ->
            fueled (fst (m s))
            /\ Inv (snd (m s))
            /\ forall a, fst (m s) = Ok a -> Q a.

(** A property of the scene alone. *)
Definition scene_only (Inv : state -> Prop) : Prop :=
  forall s s', nodes s' = nodes s -> Inv s -> Inv s'.

(** Node [id] is a frame of width [w] and height [h]. *)
Definition sized (id : nat) (w h : jsval) (s : state) : Prop :=
  option_map kind (nth_error (nodes s) id) = Some FRAME
  /\ prop_of s id "width" = w
  /\ prop_of s id "height" = h.

Definition fontOf (family style : jsval) : jsval :=
  VObj [("family", family); ("style", style)].

Definition interRegular : jsval := fontOf (VStr "Inter") (VStr "Regular").

Section Materializer.

(** The host's answers.  [fontLoads n font]: does the [n]-th call of
    [loadFontAsync], for [font], resolve?  [svgParses]: does
    [createNodeFromSvg] accept the markup?  [imageOfBase64] and
    [imageOfUrl]: the hash of the image made from the bytes or fetched
    from the address, or [None] when that fails.  [viewportCenter]: the
    centre of the viewport. *)
Variable fontLoads : nat -> jsval -> bool.
Variable svgParses : jsval -> bool.
Variable imageOfBase64 : jsval -> option string.
Variable imageOfUrl : jsval -> option string.
Variable viewportCenter : jsnum * jsnum.

(** [await figma.loadFontAsync(font)]. *)
Definition loadFontAsync (font : jsval) : M unit :=
  fun s =>
    let s' := mkState (nodes s) (notices s) (posts s) (views s) (S (loads s))
                      (totalNodes s) (processedNodes s) in
    if fontLoads (loads s) font then (Ok tt, s') else (Throw FontError, s').

Definition applyStrokes (figmaNode : nat) (node : jsval) : M unit :=
  strokes <~ lift (get node "strokes") ;;
  some <~ lift (has_items strokes) ;;
  if (some : bool) then
    clean <~ lift (sanitizeFills strokes) ;;
    setProp figmaNode "strokes" clean ;;;
    weight <~ lift (get node "strokeWeight") ;;
    (if truthy weight then setProp figmaNode "strokeWeight" weight else ret tt) ;;;
    align <~ lift (get node "strokeAlign") ;;
    setProp figmaNode "strokeAlign" (or_else align (VStr "INSIDE"))
  else ret tt.

Definition applyCornerRadius (figmaNode : nat) (node : jsval) : M unit :=
  tl <~ lift (get node "topLeftRadius") ;;
  tr <~ lift (get node "topRightRadius") ;;
  br <~ lift (get node "bottomRightRadius") ;;
  bl <~ lift (get node "bottomLeftRadius") ;;
  if negb (is_undefined tl) || negb (is_undefined tr)
     || negb (is_undefined br) || negb (is_undefined bl)
  then
    setProp figmaNode "topLeftRadius" (or_else tl (vnum 0)) ;;;
    setProp figmaNode "topRightRadius" (or_else tr (vnum 0)) ;;;
    setProp figmaNode "bottomRightRadius" (or_else br (vnum 0)) ;;;
    setProp figmaNode "bottomLeftRadius" (or_else bl (vnum 0))
  else ret tt.

Definition applyEffects (figmaNode : nat) (node : jsval) : M unit :=
  effects <~ lift (get node "effects") ;;
  some <~ lift (has_items effects) ;;
  if (some : bool) then
    clean <~ lift (array_map sanitizeEffect effects) ;;
    setProp figmaNode "effects" clean
  else ret tt.

(** [Math.max(node.width || d, 1)] and the same for the height. *)
Definition sizeOf (node : jsval) (d : Z) : outcome (jsnum * jsnum) :=
  w0 <- get node "width" ;;
  w <- maxWith (or_else w0 (vnum d)) (num_of_Z 1) ;;
  h0 <- get node "height" ;;
  h <- maxWith (or_else h0 (vnum d)) (num_of_Z 1) ;;
  Ok (w, h).

(** [node.fills && node.fills.length > 0]. *)
Definition hasFills (node : jsval) (name : string) : outcome (bool * jsval) :=
  f <- get node name ;; some <- has_items f ;; Ok (some, f).

Definition createFrameNode (node : jsval) : M nat :=
  frame <~ createNode FRAME ;;
  wh <~ lift (sizeOf node 1) ;;
  resize frame (VNum (fst wh)) (VNum (snd wh)) ;;;
  clips <~ lift (get node "clipsContent") ;;
  setProp frame "clipsContent" (or_else clips (VBool false)) ;;;
  hf <~ lift (hasFills node "fills") ;;
  (if fst hf then
     clean <~ lift (sanitizeFills (snd hf)) ;; setProp frame "fills" clean
   else setProp frame "fills" (VArr [])) ;;;
  applyStrokes frame node ;;;
  applyCornerRadius frame node ;;;
  applyEffects frame node ;;;
  ret frame.

(** The loop over [fontsToTry]: the first font that loads becomes the
    node's [fontName]; the result is [loadedFont]. *)
Fixpoint tryFonts (fontsToTry : list jsval) (textNode : nat) : M bool :=
  match fontsToTry with
  | [] => ret false
  | font :: rest =>
      try_catch
        (loadFontAsync font ;;; setProp textNode "fontName" font ;;; ret true)
        (fun _ => tryFonts rest textNode)
  end.

Definition needsWrapper (node : jsval) : outcome (bool * bool) :=
  bg <- hasFills node "backgroundFills" ;;
  border <- hasFills node "strokes" ;;
  tl <- get node "topLeftRadius" ;;
  tr <- get node "topRightRadius" ;;
  br <- get node "bottomRightRadius" ;;
  bl <- get node "bottomLeftRadius" ;;
  let hasRadius := truthy tl || truthy tr || truthy br || truthy bl in
  eff <- hasFills node "effects" ;;
  Ok (fst bg || fst border || hasRadius || fst eff, fst bg).

Definition createTextNode (node : jsval) : M nat :=
  need <~ lift (needsWrapper node) ;;
  let hasBackground := snd need in
  wrapper <~ (if fst need then
                wrapper <~ createNode FRAME ;;
                name <~ lift (get node "name") ;;
                setProp wrapper "name" (or_else name (VStr "text-container")) ;;;
                wh <~ lift (sizeOf node 1) ;;
                resize wrapper (VNum (fst wh)) (VNum (snd wh)) ;;;
                setProp wrapper "clipsContent" (VBool false) ;;;
                (if hasBackground then
                   bf <~ lift (get node "backgroundFills") ;;
                   clean <~ lift (sanitizeFills bf) ;;
                   setProp wrapper "fills" clean
                 else setProp wrapper "fills" (VArr [])) ;;;
                applyStrokes wrapper node ;;;
                applyCornerRadius wrapper node ;;;
                applyEffects wrapper node ;;;
                ret (Some wrapper)
              else ret None) ;;
  textNode <~ createNode TEXT ;;
  family0 <~ lift (get node "fontFamily") ;;
  fontFamily <~ lift (sanitizeFontFamily family0) ;;
  style0 <~ lift (get node "figmaFontStyle") ;;
  let fontStyle := or_else style0 (VStr "Regular") in
  loadedFont <~ tryFonts [ fontOf fontFamily fontStyle;
                           fontOf fontFamily (VStr "Regular");
                           fontOf (VStr "Inter") fontStyle;
                           fontOf (VStr "Inter") (VStr "Regular") ] textNode ;;
  (if (loadedFont : bool) then ret tt
   else loadFontAsync interRegular ;;; setProp textNode "fontName" interRegular) ;;;
  characters <~ lift (get node "characters") ;;
  setProp textNode "characters" (or_else characters (VStr "")) ;;;
  fontSize <~ lift (get node "fontSize") ;;
  (if truthy fontSize then setProp textNode "fontSize" fontSize else ret tt) ;;;
  lineHeight <~ lift (get node "lineHeight") ;;
  (if truthy lineHeight then
     unit <~ lift (get lineHeight "unit") ;;
     if is_str unit "AUTO" then
       setProp textNode "lineHeight" (VObj [("unit", VStr "AUTO")])
     else
       value <~ lift (get lineHeight "value") ;;
       if truthy value then
         setProp textNode "lineHeight"
                 (VObj [("unit", VStr "PIXELS"); ("value", value)])
       else ret tt
   else ret tt) ;;;
  letterSpacing <~ lift (get node "letterSpacing") ;;
  (if truthy letterSpacing then
     setProp textNode "letterSpacing"
             (VObj [("unit", VStr "PIXELS"); ("value", letterSpacing)])
   else ret tt) ;;;
  align <~ lift (get node "textAlignHorizontal") ;;
  (if truthy align then setProp textNode "textAlignHorizontal" align else ret tt) ;;;
  decoration <~ lift (get node "textDecoration") ;;
  (if truthy decoration && negb (is_str decoration "NONE")
   then setProp textNode "textDecoration" decoration else ret tt) ;;;
  hf <~ lift (hasFills node "fills") ;;
  (if fst hf then
     clean <~ lift (sanitizeFills (snd hf)) ;; setProp textNode "fills" clean
   else ret tt) ;;;
  wh <~ lift (sizeOf node 1) ;;
  resize textNode (VNum (fst wh)) (VNum (snd wh)) ;;;
  setProp textNode "textAutoResize" (VStr "NONE") ;;;
  match wrapper with
  | Some w =>
      setProp textNode "x" (vnum 0) ;;;
      setProp textNode "y" (vnum 0) ;;;
      appendChild w textNode ;;;
      ret w
  | None => ret textNode
  end.

Definition solidFill (r g b : Q) : jsval :=
  VArr [ VObj [("type", VStr "SOLID");
               ("color", VObj [("r", VNum (Num r)); ("g", VNum (Num g));
                               ("b", VNum (Num b))])] ].

Definition createSvgNode (node : jsval) : M nat :=
  svgContent <~ lift (get node "svgContent") ;;
  if negb (truthy svgContent) then
    rect <~ createNode RECTANGLE ;;
    wh <~ lift (sizeOf node 24) ;;
    resize rect (VNum (fst wh)) (VNum (snd wh)) ;;;
    setProp rect "fills" (solidFill (8 # 10) (8 # 10) (8 # 10)) ;;;
    ret rect
  else if svgParses svgContent then
    svgNode <~ createNode FRAME ;;
    setProp svgNode "svg" svgContent ;;;
    w <~ lift (get node "width") ;;
    h <~ lift (get node "height") ;;
    (if truthy w && truthy h then
       w' <~ lift (maxWith w (num_of_Z 1)) ;;
       h' <~ lift (maxWith h (num_of_Z 1)) ;;
       resize svgNode (VNum w') (VNum h')
     else ret tt) ;;;
    ret svgNode
  else
    rect <~ createNode RECTANGLE ;;
    wh <~ lift (sizeOf node 24) ;;
    resize rect (VNum (fst wh)) (VNum (snd wh)) ;;;
    setProp rect "fills" (solidFill (9 # 10) (7 # 10) (7 # 10)) ;;;
    setProp rect "name" (VStr "SVG (parse error)") ;;;
    ret rect.

Definition imageFill (hash : string) : jsval :=
  VArr [ VObj [("type", VStr "IMAGE"); ("scaleMode", VStr "FILL");
               ("imageHash", VStr hash)] ].

Definition createImageNode (node : jsval) : M nat :=
  rect <~ createNode RECTANGLE ;;
  wh <~ lift (sizeOf node 100) ;;
  resize rect (VNum (fst wh)) (VNum (snd wh)) ;;;
  imageBase64 <~ lift (get node "imageBase64") ;;
  imageUrl <~ lift (get node "imageUrl") ;;
  name <~ lift (get node "name") ;;
  (if truthy imageBase64 then
     match imageOfBase64 imageBase64 with
     | Some hash => setProp rect "fills" (imageFill hash)
     | None =>
         setProp rect "fills" (solidFill (85 # 100) (85 # 100) (9 # 10)) ;;;
         setProp rect "name" (or_else name (VStr "Image (load error)"))
     end
   else if truthy imageUrl then
     match imageOfUrl imageUrl with
     | Some hash => setProp rect "fills" (imageFill hash)
     | None =>
         setProp rect "fills" (solidFill (85 # 100) (85 # 100) (9 # 10)) ;;;
         setProp rect "name" (or_else name (VStr "Image (URL error)"))
     end
   else setProp rect "fills" (solidFill (9 # 10) (9 # 10) (9 # 10))) ;;;
  ret rect.

(** What [for (const child of node.children)] iterates over: the
    elements of an array, the characters of a string; anything else
    that got past the length test is not iterable. *)
Definition iterate (v : jsval) : outcome (list jsval) :=
  match v with
  | VArr items => Ok items
  | VStr s => Ok (map (fun c => VStr (String c EmptyString)) (list_ascii_of_string s))
  | VBuiltin _ => Unmodelled
  | _ => Throw TypeError
  end.

Fixpoint forEachM {A : Type} (f : A -> M unit) (l : list A) : M unit :=
  match l with
  | [] => ret tt
  | v :: l' => f v ;;; forEachM f l'
  end.

(** [processNode(node, parent)]; the result is the created node, or
    [None] for [null].  [fuel] bounds the depth of the recursion. *)
Fixpoint processNode (fuel : nat) (node : jsval) (parent : nat) : M (option nat) :=
  match fuel with
  | O => lift OutOfFuel
  | S fuel' =>
      if negb (truthy node) then ret None
      else
        counters <~ getCounters ;;
        let total := fst counters in
        let processed := S (snd counters) in
        setCounters total processed ;;;
        (if (processed mod 50 =? 0)%nat then
           sendProgress (PProcessing processed total)
             (Math_round (nmul (ndiv (nat_num processed) (nat_num total))
                               (num_of_Z 100)))
         else ret tt) ;;;
        ty <~ lift (get node "type") ;;
        figmaNode <~ (if is_str ty "TEXT" then createTextNode node
                      else if is_str ty "SVG" then createSvgNode node
                      else if is_str ty "IMAGE" then createImageNode node
                      else createFrameNode node) ;;
        x <~ lift (get node "x") ;;
        (if negb (is_undefined x) then setProp figmaNode "x" x else ret tt) ;;;
        y <~ lift (get node "y") ;;
        (if negb (is_undefined y) then setProp figmaNode "y" y else ret tt) ;;;
        opacity <~ lift (get node "opacity") ;;
        faded <~ lift (if negb (is_undefined opacity)
                       then ltNum opacity (num_of_Z 1) else Ok false) ;;
        (if (faded : bool) then setProp figmaNode "opacity" opacity else ret tt) ;;;
        name <~ lift (get node "name") ;;
        (if truthy name then setProp figmaNode "name" name else ret tt) ;;;
        parentAppends <~ canAppend parent ;;
        (if (parentAppends : bool) then appendChild parent figmaNode else ret tt) ;;;
        children <~ lift (get node "children") ;;
        some <~ lift (has_items children) ;;
        appends <~ (if (some : bool) then canAppend figmaNode else ret false) ;;
        (if (appends : bool) then
           items <~ lift (iterate children) ;;
           forEachM (fun child => processNode fuel' child figmaNode ;;; ret tt) items
         else ret tt) ;;;
        ret (Some figmaNode)
  end.

(** [countNodes(n)], which adds to [totalNodes]. *)
Fixpoint countNodes (fuel : nat) (n : jsval) : M unit :=
  match fuel with
  | O => lift OutOfFuel
  | S fuel' =>
      if negb (truthy n) then ret tt
      else
        counters <~ getCounters ;;
        setCounters (S (fst counters)) (snd counters) ;;;
        children <~ lift (get n "children") ;;
        if truthy children then
          match children with
          | VArr items => forEachM (countNodes fuel') items
          | VBuiltin _ => lift Unmodelled
          | _ => lift (Throw TypeError)          (* no [forEach] method *)
          end
        else ret tt
  end.

(** Nesting depth of a value, the recursion bound of the two walks. *)
Fixpoint depth (v : jsval) : nat :=
  match v with
  | VArr items => S (fold_right (fun w d => Nat.max (depth w) d) O items)
  | VObj fields => S (fold_right (fun kw d => Nat.max (depth (snd kw)) d) O fields)
  | _ => O
  end.

(** The root frame: created, named and sized from the document. *)
Definition createRootFrame (data : jsval) : M nat :=
  rootFrame <~ createNode FRAME ;;
  title <~ lift (get data "pageTitle") ;;
  setProp rootFrame "name" (or_else title (VStr "Imported Web Page")) ;;;
  vw <~ lift (get data "viewportWidth") ;;
  fh <~ lift (get data "fullHeight") ;;
  vh <~ lift (get data "viewportHeight") ;;
  resize rootFrame (or_else vw (vnum 1440))
                   (or_else (or_else fh vh) (vnum 900)) ;;;
  ret rootFrame.

(** [c - rootFrame.width / 2]. *)
Definition centred (c : jsnum) (extent : jsval) : outcome jsval :=
  e <- toNumber extent ;; Ok (VNum (nsub c (ndiv e (num_of_Z 2)))).

(** The body of the [try] block. *)
Definition importDesign (data : jsval) : M unit :=
  setCounters 0 0 ;;;
  rootNode <~ lift (get data "rootNode") ;;
  countNodes (S (depth rootNode)) rootNode ;;;
  rootFrame <~ createRootFrame data ;;
  processNode (S (depth rootNode)) rootNode rootFrame ;;;
  width <~ getProp rootFrame "width" ;;
  x <~ lift (centred (fst viewportCenter) width) ;;
  setProp rootFrame "x" x ;;;
  height <~ getProp rootFrame "height" ;;
  y <~ lift (centred (snd viewportCenter) height) ;;
  setProp rootFrame "y" y ;;;
  scrollAndZoomIntoView [rootFrame] ;;;
  sendProgress PComplete (num_of_Z 100) ;;;
  counters <~ getCounters ;;
  notify (ImportComplete (snd counters)).

(** [figma.ui.onmessage]. *)
Definition onmessage (msg : jsval) : M unit :=
  ty <~ lift (get msg "type") ;;
  if is_str ty "import-design" then
    data <~ lift (get msg "data") ;;
    invalid <~ lift (if negb (truthy data) then Ok true
                     else (rootNode <- get data "rootNode" ;;
                           Ok (negb (truthy rootNode)))) ;;
    if (invalid : bool) then notify InvalidDesign
    else
      notify StartingImport ;;;
      sendProgress PStarting (num_of_Z 0) ;;;
      try_catch (importDesign data)
        (fun error =>
           notify (ImportFailed error) ;;;
           sendProgress (PError error) (num_of_Z 0))
  else ret tt.

End Materializer.

(** ** Further vocabulary for what the plugin hands to the host *)

(** A solid paint as [sanitizeFills] writes it: the three channels and
    the opacity between 0 and 1. *)
Definition sanitized_solid (out : jsval) : Prop :=
  exists r g b o,
    out = VObj [("type", VStr "SOLID");
                ("color", VObj [("r", r); ("g", g); ("b", b)]);
                ("opacity", o)]
    /\ unit_interval r /\ unit_interval g /\ unit_interval b /\ unit_interval o.

Definition sanitized_stop (out : jsval) : Prop :=
  exists r g b a p,
    out = VObj [("color", VObj [("r", r); ("g", g); ("b", b); ("a", a)]);
                ("position", p)]
    /\ unit_interval r /\ unit_interval g /\ unit_interval b /\ unit_interval a
    /\ unit_interval p.

(** A gradient paint as [sanitizeFills] writes it: the type kept, the
    stops sanitized, a transform in place of the handle positions. *)
Definition sanitized_gradient (fill out : jsval) : Prop :=
  exists stops transform,
    out = VObj [("type", field "type" fill);
                ("gradientStops", VArr stops);
                ("gradientTransform", transform)]
    /\ Forall sanitized_stop stops.


(** The first [n0] nodes of [s] are the first [n0] nodes of [s0],
    children included. *)
Definition old_same (n0 : nat) (s0 s : state) : Prop :=
  (n0 <= List.length (nodes s))%nat
  /\ forall id, (id < n0)%nat -> nth_error (nodes s) id = nth_error (nodes s0) id.

(** A FRAME node of the document. *)
Definition frame_node_ok (node : jsval) : bool :=
  is_obj node
  && list_of paint_ok (field "fills" node)
  && list_of paint_ok (field "strokes" node)
  && list_of effect_ok (field "effects" node)
  && numeric (field "width" node)
  && numeric (field "height" node).

(** The scene of [st] with one more node on top. *)
Definition with_top (st : state) (k : node_kind) (ps : list (string * jsval))
           (children : list nat) : state :=
  with_nodes (fun ns => (ns ++ [mkNode k ps children])%list) st.

(** [s] after [n] more attempts to load a font. *)
Definition more_loads (n : nat) (s : state) : state :=
  mkState (nodes s) (notices s) (posts s) (views s) (loads s + n)
          (totalNodes s) (processedNodes s).

(** [s] with [n] more nodes counted. *)
Definition more_counted (n : nat) (s : state) : state :=
  mkState (nodes s) (notices s) (posts s) (views s) (loads s)
          (totalNodes s + n) (processedNodes s).

(** A progress message in range: the percentage is a whole number from
    0 to 100, and a count of processed layers does not exceed the total
    it is shown with. *)
Definition progress_in_range (post : progress_text * jsnum) : Prop :=
  (exists z, snd post = num_of_Z z /\ (0 <= z <= 100)%Z)
  /\ match fst post with
     | PProcessing processed total => (processed <= total)%nat
     | _ => True
     end.

(** From [s] to [s'] progress messages were only added, all in range. *)
Definition posted (s s' : state) : Prop :=
  exists added,
    posts s' = (posts s ++ added)%list /\ Forall progress_in_range added.

(** [m] leaves the total of nodes counted as it is and adds at most
    [k] to the number of nodes processed, however it ends; and where
    the total leaves room for [k] more, every progress message it posts
    is in range. *)
Definition spends {A : Type} (k : nat) (m : M A) : Prop :=
  forall s,
    totalNodes (snd (m s)) = totalNodes s
    /\ (processedNodes s <= processedNodes (snd (m s)))%nat
    /\ (processedNodes (snd (m s)) <= processedNodes s + k)%nat
    /\ ((processedNodes s + k <= totalNodes s)%nat -> posted s (snd (m s))).

(** The number of nodes of a document tree as [countNodes] walks it: a
    falsy value is no node; a node has the children its [children] array
    lists. *)
Fixpoint tree_size (v : jsval) : nat :=
  match v with
  | VObj fields =>
      S ((fix children (fs : list (string * jsval)) : nat :=
            match fs with
            | [] => O
            | (k, w) :: fs' =>
                if String.eqb "children" k then
                  match w with
                  | VArr items =>
                      (fix total (l : list jsval) : nat :=
                         match l with
                         | [] => O
                         | child :: l' => (tree_size child + total l')%nat
                         end) items
                  | _ => O
                  end
                else children fs'
            end) fields)
  | other => if truthy other then 1%nat else O
  end.

(** A tree [countNodes] walks to the end: no built-in member stands for
    a node, and the [children] of a node are missing, falsy or an array of
    such trees. *)
Fixpoint countable (v : jsval) : bool :=
  match v with
  | VObj fields =>
      (fix children (fs : list (string * jsval)) : bool :=
         match fs with
         | [] => true
         | (k, w) :: fs' =>
             if String.eqb "children" k then
               match w with
               | VArr items =>
                   (fix all (l : list jsval) : bool :=
                      match l with
                      | [] => true
                      | child :: l' => countable child && all l'
                      end) items
               | other => negb (truthy other)
               end
             else children fs'
         end) fields
  | VBuiltin _ => false
  | _ => true
  end.

End Plugin.

(* ====================================================================== *)
(** * Strings and the matcher: supporting lemmas *)
(* ====================================================================== *)

Module StringFacts.
Import JS.

Lemma append_nil_r (s : string) : s ++ "" = s.
Proof. induction s; simpl; congruence. Qed.

Lemma append_assoc (s t u : string) : (s ++ t) ++ u = s ++ t ++ u.
Proof. induction s; simpl; congruence. Qed.

Lemma length_append (s t : string) :
  String.length (s ++ t) = (String.length s + String.length t)%nat.
Proof. induction s; simpl; congruence. Qed.

Lemma substring_0_app (w s : string) : substring 0 (String.length w) (w ++ s) = w.
Proof.
  induction w as [|c w IH]; simpl.
  - destruct s; reflexivity.
  - now rewrite IH.
Qed.

Lemma substring_0_all (s : string) : substring 0 (String.length s) s = s.
Proof. induction s; simpl; congruence. Qed.

Lemma substring_skip_app (w s : string) (n : nat) :
  substring (String.length w) n (w ++ s) = substring 0 n s.
Proof. induction w; simpl; auto. Qed.

Lemma substring_0_long (s : string) (n : nat) :
  (String.length s <= n)%nat -> substring 0 n s = s.
Proof.
  revert n; induction s as [|c s IH]; intros [|n] Hn; simpl in *; try lia; auto.
  now rewrite IH by lia.
Qed.

Lemma has_char_app (c : ascii) (s t : string) :
  has_char c (s ++ t) = has_char c s || has_char c t.
Proof. induction s; simpl; auto. now rewrite IHs, orb_assoc. Qed.

Lemma all_chars_app (p : ascii -> bool) (s t : string) :
  all_chars p (s ++ t) = all_chars p s && all_chars p t.
Proof. induction s; simpl; auto. now rewrite IHs, andb_assoc. Qed.

Lemma all_chars_has_char (p : ascii -> bool) (c : ascii) (s : string) :
  all_chars p s = true -> p c = false -> has_char c s = false.
Proof.
  induction s as [|d s IH]; simpl; auto.
  intros H Hc. apply andb_true_iff in H as [Hd Hs].
  rewrite IH by auto. destruct (Ascii.eqb_spec d c); subst; simpl; congruence.
Qed.

(** Characters only disappear under [trim]. *)
Lemma has_char_trimStart (c : ascii) (s : string) :
  has_char c (trimStart s) = true -> has_char c s = true.
Proof.
  induction s as [|d s IH]; simpl; auto.
  destruct (is_space d); simpl; auto.
  intros H. rewrite IH by auto. apply orb_true_r.
Qed.

Lemma has_char_trimEnd (c : ascii) (s : string) :
  has_char c (trimEnd s) = true -> has_char c s = true.
Proof.
  induction s as [|d s IH]; simpl; auto.
  destruct (trimEnd s) eqn:E.
  - destruct (is_space d); simpl; try discriminate.
    rewrite orb_false_r. intros ->. reflexivity.
  - simpl in *. intros H. apply orb_true_iff in H as [H|H].
    + now rewrite H.
    + rewrite IH by auto. apply orb_true_r.
Qed.

Lemma has_char_trim (c : ascii) (s : string) :
  has_char c (trim s) = true -> has_char c s = true.
Proof. intros H. now apply has_char_trimStart, has_char_trimEnd. Qed.

Lemma prefix_app (l s : string) : String.prefix l (l ++ s) = true.
Proof.
  induction l as [|c l IH]; simpl.
  - destruct s; reflexivity.
  - destruct (ascii_dec c c); congruence.
Qed.

Lemma prefix_inv (l s : string) :
  String.prefix l s = true -> exists t, s = l ++ t.
Proof.
  revert s; induction l as [|c l IH]; intros s H.
  - exists s; reflexivity.
  - destruct s as [|d s]; simpl in H; try discriminate.
    destruct (ascii_dec c d); try discriminate. subst.
    destruct (IH _ H) as [t ->]. now exists t.
Qed.

End StringFacts.

Module RegexFacts.
Import JS StringFacts.

Section Inversion.

Variable A : Type.

Lemma m_lit_inv (l : string) :
  forall pos s (k : nat -> string -> option A) a,
    m_lit l pos s k = Some a ->
    exists rest, s = l ++ rest /\ k (pos + String.length l)%nat rest = Some a.
Proof.
  induction l as [|c l IH]; intros pos s k a H; simpl in H.
  - exists s. now rewrite Nat.add_0_r.
  - destruct s as [|d s]; try discriminate.
    destruct (Ascii.eqb_spec c d); try discriminate. subst d.
    destruct (IH _ _ _ _ H) as (rest & -> & Hk).
    exists rest. split; auto. simpl. now rewrite <- Nat.add_succ_comm.
Qed.

Lemma m_liti_inv (l : string) :
  forall pos s (k : nat -> string -> option A) a,
    m_liti l pos s k = Some a ->
    exists w rest,
      s = w ++ rest
      /\ map to_upper (list_ascii_of_string w) = map to_upper (list_ascii_of_string l)
      /\ k (pos + String.length w)%nat rest = Some a.
Proof.
  induction l as [|c l IH]; intros pos s k a H; simpl in H.
  - exists "", s. now rewrite Nat.add_0_r.
  - destruct s as [|d s]; try discriminate.
    destruct (Ascii.eqb_spec (to_upper c) (to_upper d)) as [E|]; try discriminate.
    destruct (IH _ _ _ _ H) as (w & rest & -> & Hw & Hk).
    exists (String d w), rest. repeat split; simpl; auto.
    + now rewrite E, Hw.
    + now rewrite <- Nat.add_succ_comm.
Qed.

Lemma m_star_inv (p : ascii -> bool) :
  forall s pos (k : nat -> string -> option A) a,
    m_star p pos s k = Some a ->
    exists w rest,
      s = w ++ rest /\ all_chars p w = true
      /\ k (pos + String.length w)%nat rest = Some a.
Proof.
  induction s as [|c s IH]; intros pos k a H; simpl in H.
  - exists "", "". now rewrite Nat.add_0_r.
  - assert (Stop : k pos (String c s) = Some a ->
                   exists w rest, String c s = w ++ rest /\ all_chars p w = true
                                  /\ k (pos + String.length w)%nat rest = Some a).
    { intros Hk. exists "", (String c s). now rewrite Nat.add_0_r. }
    destruct (p c) eqn:Hc; auto.
    destruct (m_star p (S pos) s k) as [a'|] eqn:E; auto.
    injection H as ->.
    destruct (IH _ _ _ E) as (w & rest & -> & Hw & Hk).
    exists (String c w), rest. repeat split; simpl; auto.
    + now rewrite Hc.
    + now rewrite <- Nat.add_succ_comm.
Qed.

(** Soundness of the matcher: a success of [rmatch] is a match in the
    sense of [Matches], and the continuation succeeded after it. *)
Lemma rmatch_sound (r : regex) :
  forall pos s cs (k : nat -> string -> captures -> option A) a,
    rmatch r pos s cs k = Some a ->
    exists w rest cs',
      s = w ++ rest /\ Matches r pos w rest cs cs'
      /\ k (pos + String.length w)%nat rest cs' = Some a.
Proof.
  induction r as [l|l|p|p|p|r1 IH1|r1 IH1 r2 IH2|r1 IH1 r2 IH2|i r1 IH1| |];
    intros pos s cs k a H; simpl in H.
  - apply m_lit_inv in H as (rest & -> & Hk).
    exists l, rest, cs. simpl; auto.
  - apply m_liti_inv in H as (w & rest & -> & Hw & Hk).
    exists w, rest, cs. simpl; auto.
  - destruct s as [|c s]; try discriminate.
    destruct (p c) eqn:Hc; try discriminate.
    exists (String c ""), s, cs. simpl. rewrite Nat.add_1_r.
    repeat split; eauto.
  - apply m_star_inv in H as (w & rest & -> & Hw & Hk).
    exists w, rest, cs. simpl; auto.
  - destruct s as [|c s]; try discriminate.
    destruct (p c) eqn:Hc; try discriminate.
    apply m_star_inv in H as (w & rest & -> & Hw & Hk).
    exists (String c w), rest, cs. simpl. rewrite Hc, Hw.
    rewrite <- Nat.add_succ_comm. repeat split; auto. discriminate.
  - destruct (rmatch r1 pos s cs k) as [a'|] eqn:E.
    + injection H as ->. destruct (IH1 _ _ _ _ _ E) as (w & rest & cs' & -> & Hm & Hk).
      exists w, rest, cs'. simpl; auto.
    + exists "", s, cs. simpl. rewrite Nat.add_0_r. auto.
  - destruct (rmatch r1 pos s cs k) as [a'|] eqn:E.
    + injection H as ->. destruct (IH1 _ _ _ _ _ E) as (w & rest & cs' & -> & Hm & Hk).
      exists w, rest, cs'. simpl; auto.
    + destruct (IH2 _ _ _ _ _ H) as (w & rest & cs' & -> & Hm & Hk).
      exists w, rest, cs'. simpl; auto.
  - destruct (IH1 _ _ _ _ _ H) as (w1 & rest1 & cs1 & -> & Hm1 & H2).
    destruct (IH2 _ _ _ _ _ H2) as (w2 & rest & cs' & -> & Hm2 & Hk).
    exists (w1 ++ w2), rest, cs'. rewrite append_assoc, length_append, Nat.add_assoc.
    repeat split; auto. simpl. exists w1, w2, cs1. auto.
  - destruct (IH1 _ _ _ _ _ H) as (w & rest & cs1 & -> & Hm & Hk).
    replace (pos + String.length w - pos)%nat with (String.length w) in Hk by lia.
    rewrite substring_0_app in Hk.
    exists w, rest, ((i, w) :: cs1). simpl. eauto.
  - destruct (Nat.eqb_spec pos 0); try discriminate.
    exists "", s, cs. simpl. rewrite Nat.add_0_r. auto.
  - destruct s; try discriminate.
    exists "", "", cs. simpl. rewrite Nat.add_0_r. auto.
Qed.

End Inversion.

Lemma exec_at_sound (r : regex) (pos : nat) (s : string) (m : rmatch_result) :
  exec_at r pos s = Some m ->
  s = m_text m ++ m_rest m
  /\ m_index m = pos
  /\ Matches r pos (m_text m) (m_rest m) [] (m_caps m).
Proof.
  unfold exec_at. intros H.
  apply rmatch_sound in H as (w & rest & cs' & -> & Hm & Hk).
  replace (pos + String.length w - pos)%nat with (String.length w) in Hk by lia.
  rewrite substring_0_app in Hk. injection Hk as <-. simpl. auto.
Qed.

(** A match found by [search] sits somewhere in the input. *)
Lemma search_sound (r : regex) :
  forall s pos m,
    search r pos s = Some m ->
    exists pre,
      s = pre ++ m_text m ++ m_rest m
      /\ m_index m = (pos + String.length pre)%nat
      /\ Matches r (m_index m) (m_text m) (m_rest m) [] (m_caps m).
Proof.
  assert (Here : forall s pos m, exec_at r pos s = Some m ->
            exists pre, s = pre ++ m_text m ++ m_rest m
              /\ m_index m = (pos + String.length pre)%nat
              /\ Matches r (m_index m) (m_text m) (m_rest m) [] (m_caps m)).
  { intros s pos m E. apply exec_at_sound in E as (Hs & Hi & Hm).
    exists "". simpl. rewrite Hi, Nat.add_0_r. repeat split; auto. }
  induction s as [|c s IH]; intros pos m H; simpl in H.
  - destruct (exec_at r pos "") eqn:E; try discriminate. injection H as ->. auto.
  - destruct (exec_at r pos (String c s)) eqn:E.
    + injection H as ->. auto.
    + destruct (IH _ _ H) as (pre & Hs & Hi & Hm).
      exists (String c pre). simpl. rewrite <- Hs.
      rewrite <- Nat.add_succ_comm. repeat split; auto.
Qed.

Lemma str_match_sound (r : regex) (s : string) (m : rmatch_result) :
  str_match r s = Some m ->
  exists pre,
    s = pre ++ m_text m ++ m_rest m
    /\ m_index m = String.length pre
    /\ Matches r (m_index m) (m_text m) (m_rest m) [] (m_caps m).
Proof.
  intros H. apply search_sound in H as (pre & ? & ? & ?). exists pre. auto.
Qed.

(** What [replace] leaves is made of characters of the input. *)
Lemma has_char_replace_first (r : regex) (c : ascii) (s : string) :
  has_char c (replace_first r s) = true -> has_char c s = true.
Proof.
  unfold replace_first. destruct (str_match r s) as [m|] eqn:E; auto.
  apply str_match_sound in E as (pre & Hs & Hi & _).
  rewrite Hi. rewrite Hs at 1. rewrite substring_0_app.
  rewrite Hs, !has_char_app. intros H.
  apply orb_true_iff in H as [->| ->]; auto using orb_true_r.
  now rewrite !orb_true_r.
Qed.

Section Forward.

Variable A : Type.

(** A literal at the head of the input is matched. *)
Lemma m_lit_app (l : string) :
  forall pos s (k : nat -> string -> option A),
    m_lit l pos (l ++ s) k = k (pos + String.length l)%nat s.
Proof.
  induction l as [|c l IH]; intros pos s k; simpl.
  - now rewrite Nat.add_0_r.
  - rewrite Ascii.eqb_refl, IH. f_equal. lia.
Qed.

(** A maximal run of the class is taken whole when the rest then
    matches. *)
Lemma m_star_app (p : ascii -> bool) (w : string) :
  forall pos s (k : nat -> string -> option A) a,
    all_chars p w = true ->
    k (pos + String.length w)%nat s = Some a ->
    head_is p s = false ->
    m_star p pos (w ++ s) k = Some a.
Proof.
  induction w as [|c w IH]; intros pos s k a Hw Hk Hs; simpl in *.
  - rewrite Nat.add_0_r in Hk.
    destruct s as [|d s]; simpl in *; auto. now rewrite Hs.
  - apply andb_true_iff in Hw as [Hc Hw]. rewrite Hc.
    rewrite (IH (S pos) s k a); auto.
    now rewrite Nat.add_succ_comm.
Qed.

(** A literal that does not start the input fails. *)
Lemma m_lit_head_fail (c : ascii) (l s : string) (pos : nat)
      (k : nat -> string -> option A) :
  head_is (fun d => Ascii.eqb c d) s = false ->
  m_lit (String c l) pos s k = None.
Proof. destruct s as [|d s]; simpl; auto. now intros ->. Qed.

End Forward.

End RegexFacts.

(* ====================================================================== *)
(** * scrape.js: colours *)
(* ====================================================================== *)

Module ColorFacts.
Import JS Scrape StringFacts RegexFacts.

Section Steps.

Variable A : Type.
Implicit Type k : nat -> string -> captures -> option A.

Lemma step_seq (r1 r2 : regex) pos s cs k :
  rmatch (r1 >> r2) pos s cs k
  = rmatch r1 pos s cs (fun pos' s' cs' => rmatch r2 pos' s' cs' k).
Proof. reflexivity. Qed.

Lemma step_lit (l : string) pos s cs k :
  rmatch (Lit l) pos (l ++ s) cs k = k (pos + String.length l)%nat s cs.
Proof. simpl. apply m_lit_app. Qed.

Lemma step_star (p : ascii -> bool) (w : string) pos s cs k a :
  all_chars p w = true ->
  head_is p s = false ->
  k (pos + String.length w)%nat s cs = Some a ->
  rmatch (Star p) pos (w ++ s) cs k = Some a.
Proof. intros Hw Hs Hk. simpl. now apply m_star_app. Qed.

Lemma step_group_plus (i : nat) (p : ascii -> bool) (n : string) pos s cs k a :
  str_truthy n && all_chars p n = true ->
  head_is p s = false ->
  k (pos + String.length n)%nat s ((i, n) :: cs) = Some a ->
  rmatch (Group i (Plus p)) pos (n ++ s) cs k = Some a.
Proof.
  intros Hn Hs Hk. apply andb_true_iff in Hn as [Hne Hn].
  destruct n as [|c n]; try discriminate. simpl in Hn.
  apply andb_true_iff in Hn as [Hc Hn]. simpl. rewrite Hc.
  apply m_star_app; auto.
  replace (S pos + String.length n - pos)%nat with (S (String.length n)) by lia.
  simpl. rewrite substring_0_app.
  simpl in Hk. now rewrite Nat.add_succ_r in Hk.
Qed.

Lemma step_opt_some (r1 : regex) pos s cs k a :
  rmatch r1 pos s cs k = Some a -> rmatch (Opt r1) pos s cs k = Some a.
Proof. simpl. now intros ->. Qed.

Lemma step_opt_none (r1 : regex) pos s cs k :
  rmatch r1 pos s cs k = None -> rmatch (Opt r1) pos s cs k = k pos s cs.
Proof. simpl. now intros ->. Qed.

End Steps.

Lemma digdot_not_space (c : ascii) : digdot c = true -> is_space c = false.
Proof.
  unfold digdot, is_digit, is_space. intros H.
  apply orb_true_iff in H as [H|H].
  - apply andb_true_iff in H as [H1 H2].
    apply Nat.leb_le in H1, H2.
    destruct (Nat.leb_spec 9 (nat_of_ascii c)), (Nat.leb_spec (nat_of_ascii c) 13),
             (Nat.eqb_spec (nat_of_ascii c) 32), (Nat.eqb_spec (nat_of_ascii c) 160);
      simpl; auto; lia.
  - apply Ascii.eqb_eq in H. subst c. reflexivity.
Qed.

Lemma space_not_digdot (c : ascii) : is_space c = true -> digdot c = false.
Proof.
  intros H. destruct (digdot c) eqn:E; auto.
  apply digdot_not_space in E. congruence.
Qed.

(** A number does not start with white space. *)
Lemma number_head (n s : string) :
  is_number n = true -> head_is is_space (n ++ s) = false.
Proof.
  unfold is_number. destruct n as [|c n]; simpl; try discriminate.
  intros H. apply andb_true_iff in H as [H _]. now apply digdot_not_space.
Qed.

(** White space followed by [)] starts neither with a digit or dot nor
    with a comma. *)
Lemma close_head_digdot (w : string) :
  all_chars is_space w = true -> head_is digdot (w ++ ")") = false.
Proof.
  destruct w as [|c w]; simpl; [reflexivity|].
  intros H. apply andb_true_iff in H as [H _]. now apply space_not_digdot.
Qed.

Lemma close_head_comma (w : string) :
  all_chars is_space w = true ->
  head_is (fun d => Ascii.eqb "," d) (w ++ ")") = false.
Proof.
  destruct w as [|c w]; cbn [append head_is all_chars]; [reflexivity|].
  intros H. apply andb_true_iff in H as [H _].
  destruct (Ascii.eqb_spec "," c) as [E|E]; [|reflexivity].
  subst c. vm_compute in H. discriminate.
Qed.

Definition rgb_caps (t : rgb_notation) : captures :=
  match alpha t with
  | Some (_, n4) => [(4, n4); (3, n3 t); (2, n2 t); (1, n1 t)]
  | None => [(3, n3 t); (2, n2 t); (1, n1 t)]
  end%nat.

(** The pattern matches a well-formed notation at its first character and
    captures its numbers. *)
Ltac head_side :=
  solve [ apply number_head; assumption
        | apply close_head_digdot; assumption
        | apply close_head_comma; assumption
        | reflexivity ].

Ltac step :=
  cbv beta;
  first [ rewrite step_seq
        | rewrite step_lit
        | eapply step_star; [eassumption | head_side | ]
        | eapply step_group_plus; [eassumption | head_side | ] ].

Lemma exec_rgb_notation (t : rgb_notation) (pos : nat) :
  rgb_wf t = true ->
  exists m, exec_at rgba_re pos (rgb_text t) = Some m /\ m_caps m = rgb_caps t.
Proof.
  destruct t as [wa w0 r w1 g w2 b al w4]. unfold rgb_wf, rgb_text, rgb_caps.
  cbn [with_a ws0 n1 ws1 n2 ws2 n3 alpha ws4].
  intros H. repeat (apply andb_true_iff in H as [H ?]).
  assert (Hopt : forall A pos s cs (k : nat -> string -> captures -> option A) a,
             k (pos + (if wa then 1 else 0))%nat ("(" ++ s) cs = Some a ->
             rmatch (Opt (Lit "a")) pos ((if wa then "a" else "") ++ "(" ++ s) cs k
             = Some a).
  { intros A p s cs k a Hk. destruct wa.
    - apply step_opt_some. now rewrite step_lit.
    - rewrite Nat.add_0_r in Hk. rewrite step_opt_none; [exact Hk|reflexivity]. }
  destruct al as [[ws3 n4]|].
  - apply andb_true_iff in H1 as [H1 H1'].
    eexists. split.
    + unfold exec_at, rgba_re.
      rewrite step_seq, step_lit, step_seq. apply Hopt.
      repeat step. apply step_opt_some.
      repeat step. simpl. reflexivity.
    + reflexivity.
  - eexists. split.
    + unfold exec_at, rgba_re.
      rewrite step_seq, step_lit, step_seq. apply Hopt.
      repeat step. rewrite step_opt_none.
      * repeat step. simpl. reflexivity.
      * rewrite step_seq. apply m_lit_head_fail. now apply close_head_comma.
    + reflexivity.
Qed.

(** The pattern is found at the first character of a well-formed
    notation. *)
Lemma match_rgb_notation (t : rgb_notation) :
  rgb_wf t = true ->
  exists m, str_match rgba_re (rgb_text t) = Some m /\ m_caps m = rgb_caps t.
Proof.
  intros H. destruct (exec_rgb_notation t 0 H) as (m & Hm & Hc).
  exists m. split; auto. unfold str_match.
  remember (rgb_text t) as s eqn:Es. clear Es.
  destruct s; cbn [search]; now rewrite Hm.
Qed.

Lemma is_number_intro (n : string) :
  n <> "" -> all_chars digdot n = true -> is_number n = true.
Proof. unfold is_number. destruct n; simpl; congruence. Qed.

(** Conversely, whatever the pattern matches is a well-formed notation. *)
Lemma rgba_re_Matches (pos : nat) (w rest : string) (cs : captures) :
  Matches rgba_re pos w rest [] cs ->
  exists t, rgb_wf t = true /\ w = rgb_text t.
Proof.
  unfold rgba_re. simpl.
  intros (? & ? & ? & -> & [-> ->] & H).
  destruct H as (wa & ? & ? & -> & Ha & H).
  destruct H as (? & ? & ? & -> & [-> ->] & H).
  destruct H as (sp0 & ? & ? & -> & [Hs0 ->] & H).
  destruct H as (r & ? & ? & -> & (? & (Hr & Hr' & ->) & ->) & H).
  destruct H as (? & ? & ? & -> & [-> ->] & H).
  destruct H as (sp1 & ? & ? & -> & [Hs1 ->] & H).
  destruct H as (g & ? & ? & -> & (? & (Hg & Hg' & ->) & ->) & H).
  destruct H as (? & ? & ? & -> & [-> ->] & H).
  destruct H as (sp2 & ? & ? & -> & [Hs2 ->] & H).
  destruct H as (b & ? & ? & -> & (? & (Hb & Hb' & ->) & ->) & H).
  destruct H as (wal & ? & ? & -> & Hal & H).
  destruct H as (sp4 & ? & ? & -> & [Hs4 ->] & -> & ->).
  apply is_number_intro in Hr', Hg', Hb'; auto.
  assert (Hwa : exists a : bool, wa = if a then "a" else "").
  { destruct Ha as [[-> _]|[-> _]]; [now exists false | now exists true]. }
  destruct Hwa as [a ->].
  destruct Hal as [[-> _]|Hal].
  - exists (mkNotation a sp0 r sp1 g sp2 b None sp4). split.
    + unfold rgb_wf. simpl. now rewrite Hs0, Hs1, Hs2, Hs4, Hr', Hg', Hb'.
    + reflexivity.
  - destruct Hal as (? & ? & ? & -> & [-> _] & H).
    destruct H as (sp3 & n4 & ? & -> & [Hs3 _] & (? & (Ha4 & Ha4' & _) & _)).
    apply is_number_intro in Ha4'; auto.
    exists (mkNotation a sp0 r sp1 g sp2 b (Some (sp3, n4)) sp4). split.
    + unfold rgb_wf. simpl. now rewrite Hs0, Hs1, Hs2, Hs3, Hs4, Hr', Hg', Hb', Ha4'.
    + unfold rgb_text. simpl. now rewrite !append_assoc.
Qed.

(** When [parseColor] returns a colour, the input contains a well-formed
    notation. *)
Lemma parseColor_some_inv (s : string) (c : RGBA) :
  parseColor s = Some c ->
  exists pre t post, rgb_wf t = true /\ s = pre ++ rgb_text t ++ post.
Proof.
  unfold parseColor.
  destruct (negb (str_truthy s) || String.eqb s "transparent"
            || String.eqb s "rgba(0, 0, 0, 0)"); try discriminate.
  destruct (str_match rgba_re s) as [m|] eqn:E; try discriminate. intros _.
  apply str_match_sound in E as (pre & Hs & _ & Hm).
  apply rgba_re_Matches in Hm as (t & Hwf & Ht).
  exists pre, t, (m_rest m). rewrite <- Ht. auto.
Qed.

(** A colour has a closing parenthesis. *)
Lemma parseColor_needs_rparen (s : string) :
  has_char ")" s = false -> parseColor s = None.
Proof.
  intros H. destruct (parseColor s) as [c|] eqn:E; auto.
  apply parseColor_some_inv in E as (pre & t & post & _ & ->).
  rewrite !has_char_app in H. unfold rgb_text in H.
  rewrite !has_char_app in H.
  destruct (alpha t) as [[ws3 n4]|]; rewrite ?has_char_app in H; simpl in H;
    rewrite ?orb_true_r in H; discriminate.
Qed.

End ColorFacts.

Import JS Scrape.

(** C1, counterexample.  The claim says that [parseColor] returns null
    for every spelling of fully transparent black, "rgba(0,0,0,0)" in
    particular.  The guard of the function compares with the one string
    "rgba(0, 0, 0, 0)" (the form computed styles are serialized in); the
    compact spelling goes through the pattern and yields a colour with
    alpha 0. *)
Lemma parseColor_compact_transparent_black :
  parseColor "rgba(0,0,0,0)" = Some (mkRGBA (Num 0) (Num 0) (Num 0) (Num 0))
  /\ parseColor "rgba(0,0,0,0)" <> None.
Proof. split; [reflexivity | discriminate]. Qed.

(** C1, as amended.  (1) For every string in the functional notation
    (rgb or rgba, three numbers and an optional fourth, written with
    digits and dots) other than the exact string "rgba(0, 0, 0, 0)",
    [parseColor] returns the colour whose channels are the written numbers
    divided by 255 and whose alpha is the written fourth number, 1 when it
    is omitted.  (2) It returns null for "transparent", (3) for
    "rgba(0, 0, 0, 0)", and (4) for every string in which no such notation
    occurs. *)
Theorem parseColor_spec (t : rgb_notation) (s : string) :
  (rgb_wf t = true ->
   rgb_text t <> "rgba(0, 0, 0, 0)" ->
   parseColor (rgb_text t)
   = Some {| r := ndiv (parseFloat (n1 t)) (num_of_Z 255);
             g := ndiv (parseFloat (n2 t)) (num_of_Z 255);
             b := ndiv (parseFloat (n3 t)) (num_of_Z 255);
             a := match alpha t with
                  | Some (_, n4) => parseFloat n4
                  | None => num_of_Z 1
                  end |})
  /\ parseColor "transparent" = None
  /\ parseColor "rgba(0, 0, 0, 0)" = None
  /\ ((forall pre t' post, rgb_wf t' = true -> s <> pre ++ rgb_text t' ++ post) ->
      parseColor s = None).
Proof.
  split; [|split; [reflexivity|split; [reflexivity|]]].
  - intros Hwf Hne.
    destruct (ColorFacts.match_rgb_notation t Hwf) as (m & Hm & Hc).
    unfold parseColor. rewrite Hm.
    apply String.eqb_neq in Hne. rewrite Hne.
    replace (negb (str_truthy (rgb_text t)) || String.eqb (rgb_text t) "transparent")
      with false by reflexivity.
    cbn [orb]. unfold capd. rewrite Hc. unfold ColorFacts.rgb_caps.
    destruct (alpha t) as [[ws3 n4]|]; reflexivity.
  - intros Hno. destruct (parseColor s) as [c|] eqn:E; auto.
    apply ColorFacts.parseColor_some_inv in E as (pre & t' & post & Hwf & Hs).
    exfalso. exact (Hno pre t' post Hwf Hs).
Qed.

(** The notation "rgb(255, 128, 0)". *)
Definition orange : rgb_notation :=
  mkNotation false "" "255" " " "128" " " "0" None "".

Lemma parseColor_spec_witness :
  parseColor "rgb(255, 128, 0)"
  = Some (mkRGBA (Num 1) (Num (128 # 255)) (Num 0) (Num 1))
  /\ parseColor "red" = None.
Proof.
  split.
  - apply (proj1 (parseColor_spec orange "")); [reflexivity | discriminate].
  - apply (proj2 (proj2 (proj2 (parseColor_spec orange "red")))).
    intros pre t' post Hwf Hs.
    apply (f_equal String.length) in Hs.
    rewrite !StringFacts.length_append in Hs.
    unfold rgb_text in Hs. rewrite !StringFacts.length_append in Hs.
    simpl in Hs. lia.
Defined.

(* ====================================================================== *)
(** * scrape.js: gradients *)
(* ====================================================================== *)

Module GradientFacts.
Import JS Scrape StringFacts RegexFacts ColorFacts.

Lemma ShadowlessSome (x y : Z) : Some x = Some y -> x = y.
Proof. congruence. Qed.

(** Every piece [splitGradientParts] produces is made of characters of
    its input. *)
Lemma splitLoop_chars (c : ascii) :
  forall str depth current parts part,
    In part (splitLoop str depth current parts) ->
    has_char c part = true ->
    has_char c str = true \/ has_char c current = true
    \/ exists p, In p parts /\ has_char c p = true.
Proof.
  induction str as [|ch str IH]; intros depth current parts part Hin Hc; simpl in Hin.
  - destruct (str_truthy current).
    + apply in_app_or in Hin as [Hin|[<-|[]]]; eauto.
    + eauto.
  - match type of Hin with
    | In _ (if ?cond then _ else _) => destruct cond
    end.
    + apply IH in Hin as [H|[H|(p & Hp & H)]]; auto.
      * left. simpl. rewrite H. apply orb_true_r.
      * discriminate.
      * apply in_app_or in Hp as [Hp|[<-|[]]]; eauto.
    + apply IH in Hin as [H|[H|(p & Hp & H)]]; auto.
      * left. simpl. rewrite H. apply orb_true_r.
      * rewrite has_char_app in H. simpl in H. rewrite orb_false_r in H.
        apply orb_true_iff in H as [H|H]; auto.
        left. simpl. now rewrite H.
      * eauto.
Qed.

Lemma splitGradientParts_chars (c : ascii) (str part : string) :
  In part (splitGradientParts str) ->
  has_char c part = true -> has_char c str = true.
Proof.
  intros Hin Hc. destruct (splitLoop_chars c _ _ _ _ _ Hin Hc) as [H|[H|(p & [] & _)]]; auto.
  discriminate.
Qed.

(** A part without a closing parenthesis has no colour. *)
Lemma parseColorStop_needs_rparen (str : string) (index total : nat) :
  has_char ")" str = false -> fst (parseColorStop str index total) = None.
Proof.
  intros H. unfold parseColorStop.
  destruct (str_match percent_re str); simpl; apply parseColor_needs_rparen; auto.
  destruct (has_char ")" (trim (replace_first percent_re str))) eqn:E; auto.
  apply has_char_trim, has_char_replace_first in E. congruence.
Qed.

Lemma stopsLoop_needs_rparen :
  forall colorParts i total stops,
    (forall part, In part colorParts -> has_char ")" part = false) ->
    stopsLoop colorParts i total stops = stops.
Proof.
  induction colorParts as [|part rest IH]; intros i total stops H; simpl; auto.
  assert (Hp : has_char ")" (trim part) = false).
  { destruct (has_char ")" (trim part)) eqn:E; auto.
    apply has_char_trim in E. rewrite H in E; simpl; auto. }
  pose proof (parseColorStop_needs_rparen (trim part) i total Hp) as Hc.
  destruct (parseColorStop (trim part) i total) as [color position].
  simpl in Hc. subst color. apply IH. intros p Hin. apply H. now right.
Qed.

Lemma skipn_In {A : Type} (n : nat) (l : list A) (x : A) :
  In x (skipn n l) -> In x l.
Proof.
  revert l; induction n as [|n IH]; intros [|y l] H; simpl in *; auto.
Qed.

Section Always.

Variable Math_PI : jsnum.
Variables Math_cos Math_sin : jsnum -> jsnum.

Lemma parseLinearGradient_needs_rparen (content : string) :
  has_char ")" content = false ->
  parseLinearGradient Math_PI Math_cos Math_sin content = None.
Proof.
  intros H. unfold parseLinearGradient.
  destruct (List.length (splitGradientParts content) <? 2)%nat; auto.
  destruct (linearAngle (splitGradientParts content)) as [angleDeg start].
  rewrite stopsLoop_needs_rparen; auto.
  intros part Hin. apply skipn_In in Hin.
  destruct (has_char ")" part) eqn:E; auto.
  apply (splitGradientParts_chars _ _ _ Hin) in E. congruence.
Qed.

Lemma parseRadialGradient_needs_rparen (content : string) :
  has_char ")" content = false -> parseRadialGradient content = None.
Proof.
  intros H. unfold parseRadialGradient.
  destruct (List.length (splitGradientParts content) <? 2)%nat; auto.
  rewrite stopsLoop_needs_rparen; auto.
  intros part Hin. apply skipn_In in Hin.
  destruct (has_char ")" part) eqn:E; auto.
  apply (splitGradientParts_chars _ _ _ Hin) in E. congruence.
Qed.

(** What the gradient patterns capture stops before the first closing
    parenthesis. *)
Lemma gradient_capture (l : string) (s : string) (m : rmatch_result) :
  str_match (Lit l >> Group 1 (Plus not_rparen) >> Lit ")") s = Some m ->
  has_char ")" (capd 1 m) = false.
Proof.
  intros H. apply str_match_sound in H as (pre & _ & _ & Hm).
  simpl in Hm.
  destruct Hm as (? & ? & ? & _ & _ & (w & ? & ? & _ & (? & (_ & Hw & _) & ->) & _ & Hc)).
  unfold capd. rewrite Hc. simpl.
  apply all_chars_has_char with (p := not_rparen); auto.
Qed.

(** The capture of the gradient patterns never holds a whole colour
    function, so no stop ever has a colour: [parseGradient] returns null
    on every input. *)
Lemma parseGradient_always_null (bgImage : string) :
  parseGradient Math_PI Math_cos Math_sin bgImage = None.
Proof.
  unfold parseGradient.
  destruct (negb (str_truthy bgImage) || String.eqb bgImage "none"); auto.
  destruct (str_match linear_re bgImage) as [m|] eqn:E.
  - apply parseLinearGradient_needs_rparen. exact (gradient_capture _ _ E).
  - destruct (str_match radial_re bgImage) as [m|] eqn:E'; auto.
    apply parseRadialGradient_needs_rparen. exact (gradient_capture _ _ E').
Qed.

End Always.

(** The splitter alone does keep the commas of a nested colour
    function together. *)
Lemma splitGradientParts_nested :
  splitGradientParts "90deg, rgb(255, 0, 0) 0%, rgb(0, 0, 255) 100%"
  = ["90deg"; " rgb(255, 0, 0) 0%"; " rgb(0, 0, 255) 100%"].
Proof. reflexivity. Qed.

(** A stretch without top-level comma goes into the current piece. *)
Lemma splitLoop_piece :
  forall piece rest depth depth' current parts,
    scanPiece piece depth = Some depth' ->
    splitLoop (piece ++ rest) depth current parts
    = splitLoop rest depth' (current ++ piece) parts.
Proof.
  induction piece as [|ch piece IH]; intros rest depth depth' current parts H.
  - simpl in H. apply ShadowlessSome in H. subst depth'.
    now rewrite append_nil_r.
  - cbn [scanPiece] in H. cbn [append splitLoop].
    destruct (Ascii.eqb ch "," &&
              ((if Ascii.eqb ch "(" then depth + 1
                else if Ascii.eqb ch ")" then depth - 1 else depth) =? 0)%Z);
      [discriminate|].
    rewrite (IH _ _ _ _ _ H). f_equal.
    rewrite append_assoc. reflexivity.
Qed.

Lemma top_level_piece_scan (p : string) :
  top_level_piece p = true -> scanPiece p 0 = Some 0%Z.
Proof.
  unfold top_level_piece.
  destruct (scanPiece p 0) as [[| |]|]; congruence.
Qed.

Lemma concat_cons_snoc (sep p q : string) (l : list string) :
  String.concat sep (p :: l ++ [q]) = p ++ sep ++ String.concat sep (l ++ [q]).
Proof.
  cbn [String.concat]. destruct (l ++ [q])%list eqn:E; auto.
  destruct l; discriminate.
Qed.

Lemma splitLoop_pieces (last : string) :
  top_level_piece last = true ->
  str_truthy last = true ->
  forall pieces parts,
    forallb top_level_piece pieces = true ->
    splitLoop (String.concat "," (pieces ++ [last])) 0 "" parts
    = (parts ++ pieces ++ [last])%list.
Proof.
  intros Hl Ht.
  induction pieces as [|p pieces IH]; intros parts Hp.
  - cbn [app String.concat].
    pose proof (splitLoop_piece last "" 0 "" parts
                  (top_level_piece_scan _ Hl)) as Hs.
    rewrite append_nil_r in Hs. rewrite Hs.
    cbn [splitLoop append]. now rewrite Ht.
  - cbn [forallb] in Hp. apply andb_true_iff in Hp as [Hp1 Hp2].
    rewrite <- app_comm_cons, concat_cons_snoc.
    rewrite (splitLoop_piece p _ 0 "" parts (top_level_piece_scan _ Hp1)).
    cbn [append splitLoop]. cbn [Ascii.eqb Bool.eqb andb Z.eqb].
    rewrite (IH _ Hp2). now rewrite <- app_assoc.
Qed.

(** The splitter cuts at the top-level commas and nowhere else: pieces
    that are balanced and free of top-level commas, joined by commas, are
    given back as they were (the last one when it is not empty). *)
Lemma splitGradientParts_pieces (pieces : list string) (last : string) :
  forallb top_level_piece pieces = true ->
  top_level_piece last = true ->
  str_truthy last = true ->
  splitGradientParts (String.concat "," (pieces ++ [last])) = (pieces ++ [last])%list.
Proof.
  intros Hp Hl Ht. unfold splitGradientParts.
  now rewrite (@splitLoop_pieces last Hl Ht pieces [] Hp).
Qed.

(** The direction table, but for its first entry. *)
Lemma directionToAngle_table :
  map directionToAngle
      ["to right"; "to bottom"; "to left"; "to top right"; "to top left";
       "to bottom right"; "to bottom left"]
  = map num_of_Z [90; 180; 270; 45; 315; 135; 225]%Z.
Proof. reflexivity. Qed.

Lemma directionToAngle_default (dir : string) :
  table_get dir direction_map = None -> directionToAngle dir = num_of_Z 180.
Proof. unfold directionToAngle. now intros ->. Qed.

End GradientFacts.

Import JS Scrape.

(** C2, the failing input.  The claim: two stops at 0 and 1 and a
    horizontal axis for "linear-gradient(90deg, red 0%, blue 100%)".
    The code returns null: the stops "red" and "blue" are handed to
    [parseColor], which knows the functional notation only, so no stop is
    collected.  (With functional colours the result is null as well, see
    [GradientFacts.parseGradient_always_null].) *)
Theorem parseGradient_example_null
        (Math_PI : jsnum) (Math_cos Math_sin : jsnum -> jsnum) :
  parseGradient Math_PI Math_cos Math_sin "linear-gradient(90deg, red 0%, blue 100%)"
  = None
  /\ parseGradient Math_PI Math_cos Math_sin
       "linear-gradient(90deg, rgb(255, 0, 0) 0%, rgb(0, 0, 255) 100%)"
     = None.
Proof. split; reflexivity. Qed.

(** C3, the failing input.  The table of [directionToAngle] maps "to top"
    to 0, and [map[dir] || 180] then takes 0 for a missing entry: the
    angle of "to top" is 180, that of "to bottom". *)
Theorem directionToAngle_to_top :
  directionToAngle "to top" = num_of_Z 180
  /\ linearAngle ["to top"; " rgb(255, 0, 0)"; " rgb(0, 0, 255)"] = (num_of_Z 180, 1%nat)
  /\ table_get "to top" direction_map = Some (num_of_Z 0).
Proof. repeat split. Qed.

(* ====================================================================== *)
(** * scrape.js: shadows *)
(* ====================================================================== *)

Module ShadowFacts.
Import JS Scrape StringFacts RegexFacts GradientFacts.

Lemma shadowLoop_app (l1 l2 : list string) :
  forall effects,
    shadowLoop (l1 ++ l2) effects = shadowLoop l2 (shadowLoop l1 effects).
Proof.
  induction l1 as [|c l1 IH]; intros effects; simpl; auto.
  destruct (shadowClause c); apply IH.
Qed.

(** A clause with fewer than two [px] tokens contributes nothing. *)
Lemma shadowClause_few_tokens (clause : string) :
  (List.length (shadowNums clause) < 2)%nat -> shadowClause clause = None.
Proof.
  unfold shadowNums, shadowClause. intros H.
  destruct (shadowColorAndRest (replace_first inset_re (trim clause))) as [color rest].
  simpl in H. apply Nat.ltb_lt in H. now rewrite H.
Qed.



(** Tokens are pieces of the text they are matched in. *)
Lemma match_all_chars (r : regex) (c : ascii) (n : string) :
  forall s pos skip,
    In n (match_all_from r pos s skip) ->
    has_char c n = true -> has_char c s = true.
Proof.
  induction s as [|d s IH]; intros pos skip Hin Hc.
  - destruct skip; simpl in Hin; try contradiction.
    destruct (exec_at r pos "") as [m|] eqn:E; simpl in Hin; try contradiction.
    destruct Hin as [<-|[]].
    apply exec_at_sound in E as (Hs & _). rewrite Hs, has_char_app, Hc. reflexivity.
  - destruct skip as [|k]; cbn [match_all_from] in Hin.
    + destruct (exec_at r pos (String d s)) as [m|] eqn:E.
      * destruct Hin as [<-|Hin].
        -- apply exec_at_sound in E as (Hs & _).
           rewrite Hs, has_char_app, Hc. reflexivity.
        -- simpl. erewrite IH; eauto. apply orb_true_r.
      * simpl. erewrite IH; eauto. apply orb_true_r.
    + simpl. erewrite IH; eauto. apply orb_true_r.
Qed.

Lemma has_char_remove_first (c : ascii) (lit : string) :
  forall s, has_char c (remove_first lit s) = true -> has_char c s = true.
Proof.
  assert (Cut : forall s, String.prefix lit s = true ->
            has_char c (substring (String.length lit) (String.length s) s) = true ->
            has_char c s = true).
  { intros s Hp H. apply prefix_inv in Hp as [t ->].
    rewrite substring_skip_app, substring_0_long in H
      by (rewrite length_append; lia).
    rewrite has_char_app, H. apply orb_true_r. }
  induction s as [|d s IH]; intros H.
  - simpl in H. destruct lit; simpl in H; discriminate.
  - unfold remove_first in H; fold remove_first in H.
    destruct (String.prefix lit (String d s)) eqn:Hp; auto.
    simpl in H. simpl. apply orb_true_iff in H as [->|H]; auto.
    rewrite IH by auto. apply orb_true_r.
Qed.

(** The tokens of a clause are made of characters of the clause. *)
Lemma shadowNums_chars (c : ascii) (clause n : string) :
  In n (shadowNums clause) -> has_char c n = true -> has_char c clause = true.
Proof.
  unfold shadowNums, shadowColorAndRest, match_all. intros Hin Hc.
  apply has_char_trim, has_char_replace_first with (r := inset_re).
  destruct (str_match rgba_any_re (replace_first inset_re (trim clause))) as [m|];
    simpl in Hin.
  - apply (match_all_chars _ c _ _ _ _ Hin) in Hc.
    now apply has_char_trim, has_char_remove_first in Hc.
  - exact (match_all_chars _ c _ _ _ _ Hin Hc).
Qed.

(** ** [parseFloat] of an unsigned text is not negative *)

Lemma read_digits_nonneg :
  forall s acc n,
    (0 <= acc)%Z -> (0 <= fst (fst (read_digits s acc n)))%Z.
Proof.
  induction s as [|c s IH]; intros acc n H; cbn [read_digits fst]; auto.
  destruct (is_digit c); cbn [fst]; auto.
  apply IH. unfold digit_val. lia.
Qed.

Lemma pow10_pos (e : Z) : 0 < pow10 e.
Proof.
  unfold pow10. destruct (Z.leb_spec 0 e).
  - unfold Qlt. simpl. rewrite Z.mul_1_r. apply Z.pow_pos_nonneg; lia.
  - apply Qinv_lt_0_compat. unfold Qlt. simpl. rewrite Z.mul_1_r.
    apply Z.pow_pos_nonneg; lia.
Qed.

Lemma Some_Q_inj (x y : Q) : Some x = Some y -> x = y.
Proof. intros H. now apply (f_equal (fun o => match o with Some v => v | None => x end)) in H. Qed.

Lemma Qred_nonneg (x : Q) : 0 <= x -> 0 <= Qred x.
Proof.
  intros H. apply Qle_trans with x; auto.
  apply Qle_lteq. right. symmetry. apply Qred_correct.
Qed.

Lemma read_decimal_nonneg (s : string) (q : Q) :
  read_decimal s = Some q -> 0 <= q.
Proof.
  unfold read_decimal.
  pose proof (read_digits_nonneg s 0 (Z.le_refl 0)) as Hi.
  destruct (read_digits s 0 0) as [[ip ni] r1]. simpl in Hi.
  assert (Hf : forall r, (0 <= fst (fst (read_digits r 0 0)))%Z)
    by (intros r; apply read_digits_nonneg; lia).
  assert (Hfrac : forall x : Z * nat * string,
             (0 <= fst (fst x))%Z ->
             (let '(fp, nf, r2) := x in
              if ((ni =? 0) && (nf =? 0))%nat then None
              else Some (Qred ((inject_Z ip + inject_Z fp / inject_Z (10 ^ Z.of_nat nf))
                               * pow10 (read_exponent r2)))) = Some q ->
             0 <= q).
  { intros [[fp nf] r2] Hfp. simpl in Hfp.
    destruct ((ni =? 0) && (nf =? 0))%nat; try discriminate.
    intros H. apply Some_Q_inj in H. subst q. apply Qred_nonneg.
    apply Qmult_le_0_compat; [|apply Qlt_le_weak, pow10_pos].
    rewrite <- (Qplus_0_r 0). apply Qplus_le_compat.
    - unfold Qle. simpl. lia.
    - apply Qmult_le_0_compat.
      + unfold Qle. simpl. lia.
      + apply Qinv_le_0_compat. unfold Qle. simpl. rewrite Z.mul_1_r.
        apply Z.pow_nonneg. lia. }
  intros H.
  set (x := match r1 with
            | String "." r => read_digits r 0 0
            | _ => (0%Z, 0%nat, r1)
            end) in H.
  apply (Hfrac x); auto.
  subst x. destruct r1 as [|d r]; [simpl; lia|].
  destruct d as [[] [] [] [] [] [] [] []]; first [apply Hf | simpl; lia].
Qed.

Lemma Num_inj (x y : Q) : Num x = Num y -> x = y.
Proof. intros H. now apply (f_equal (fun o => match o with Num v => v | NaN => x end)) in H. Qed.

Lemma parseFloat_unsigned (n : string) (q : Q) :
  has_char "-" n = false -> parseFloat n = Num q -> 0 <= q.
Proof.
  intros Hn. unfold parseFloat.
  assert (Ht : has_char "-" (trimStart n) = false).
  { destruct (has_char "-" (trimStart n)) eqn:E; auto.
    apply has_char_trimStart in E. congruence. }
  assert (Gen : forall s, match read_decimal s with
                          | Some q0 => Num q0 | None => NaN end = Num q -> 0 <= q).
  { intros s. destruct (read_decimal s) eqn:E; try discriminate.
    intros H. apply Num_inj in H. subst. eapply read_decimal_nonneg; eauto. }
  destruct (trimStart n) as [|d r]; [apply Gen|].
  destruct d as [[] [] [] [] [] [] [] []]; try apply Gen.
  simpl in Ht. discriminate.
Qed.

(** ** [parseFloat] of a text that begins with a digit is a number *)




End ShadowFacts.

Import JS Scrape.

Definition shadow_example : string :=
  "2px 4px 6px rgba(0,0,0,0.5), inset 0 0 10px red".

(** C4, counterexample.  The claim: two effects for the example, the
    second an inner shadow.  The second clause, "inset 0 0 10px red",
    carries one [px] token only (its offsets are written without a unit),
    so it is dropped like any clause with fewer than two: one effect. *)
Lemma parseBoxShadow_example_one_effect :
  List.length (parseBoxShadow shadow_example) = 1%nat
  /\ List.length (parseBoxShadow shadow_example) <> 2%nat
  /\ shadowNums " inset 0 0 10px red" = ["10px"].
Proof. repeat split. vm_compute. discriminate. Qed.

(** C4, as amended.  The example yields one effect, a drop shadow with
    offset (2,4), radius 6, spread 0 and colour rgba(0,0,0,0.5); and for
    every input, a clause with fewer than two [px] tokens is dropped: the
    result is the one obtained without that clause. *)
Theorem parseBoxShadow_spec (s : string) (before after : list string) (clause : string) :
  parseBoxShadow shadow_example
  = [ {| etype := DROP_SHADOW;
         ecolor := mkRGBA (Num 0) (Num 0) (Num 0) (Num (1 # 2));
         offset := mkPoint (Num 2) (Num 4);
         radius := Num 6;
         spread := Num 0;
         visible := true |} ]
  /\ (str_truthy s = true ->
      s <> "none" ->
      splitGradientParts s = (before ++ clause :: after)%list ->
      (List.length (shadowNums clause) < 2)%nat ->
      parseBoxShadow s = shadowLoop (before ++ after) []).
Proof.
  split; [reflexivity|].
  intros Hs Hn Hsplit Hfew. unfold parseBoxShadow.
  apply String.eqb_neq in Hn. rewrite Hs, Hn, Hsplit. simpl.
  rewrite !ShadowFacts.shadowLoop_app. simpl.
  now rewrite ShadowFacts.shadowClause_few_tokens.
Qed.

Lemma parseBoxShadow_spec_witness :
  parseBoxShadow shadow_example
  = shadowLoop (["2px 4px 6px rgba(0,0,0,0.5)"] ++ []) [].
Proof.
  apply (proj2 (parseBoxShadow_spec shadow_example
                  ["2px 4px 6px rgba(0,0,0,0.5)"] [] " inset 0 0 10px red"));
    [reflexivity | discriminate | reflexivity | vm_compute; lia].
Defined.

(** With the offsets written in [px] the same two clauses give the two
    effects the claim describes. *)
Lemma parseBoxShadow_px_example :
  map (fun e => (etype e, offset e, radius e))
      (parseBoxShadow "2px 4px 6px rgba(0,0,0,0.5), inset 0px 0px 10px red")
  = [ (DROP_SHADOW, mkPoint (Num 2) (Num 4), Num 6);
      (INNER_SHADOW, mkPoint (Num 0) (Num 0), Num 10) ].
Proof. reflexivity. Qed.

(* ====================================================================== *)
(** * The plugin: sanitizers *)
(* ====================================================================== *)

Module SanitizeFacts.
Import JS Plugin.
Local Open Scope outcome_scope.

(** Inversion of a successful [x <- m ;; k]. *)
Ltac bind_inv_as H x :=
  match type of H with
  | rbind ?m _ = Ok _ =>
      let E := fresh "E" in
      destruct m as [x| | |] eqn:E; cbn [rbind] in H; try discriminate H
  end.

Tactic Notation "bind_inv" hyp(H) "as" ident(x) := bind_inv_as H x.
Tactic Notation "bind_inv" hyp(H) := let x := fresh "v" in bind_inv_as H x.

Lemma Ok_inj {A : Type} (x y : A) : Ok x = Ok y -> x = y.
Proof.
  intros H. now apply (f_equal (fun o => match o with Ok v => v | _ => x end)) in H.
Qed.

Lemma Some_inj {A : Type} (x y : A) : Some x = Some y -> x = y.
Proof.
  intros H. now apply (f_equal (fun o => match o with Some v => v | None => x end)) in H.
Qed.

Lemma get_obj (fields : list (string * jsval)) (name : string) :
  get (VObj fields) name = Ok (field name (VObj fields)).
Proof. reflexivity. Qed.

(** Reading a property other than [length] agrees with [field]. *)
Lemma get_field (v w : jsval) (name : string) :
  get v name = Ok w -> String.eqb name "length" = false -> field name v = w.
Proof.
  destruct v; simpl; try discriminate; intros H Hn;
    try rewrite Hn in H; apply Ok_inj in H; auto.
Qed.

(** ** [clamp] *)

Definition clampQ (x : jsnum) : jsnum :=
  Math_min (Math_max x (num_of_Z 0)) (num_of_Z 1).

Lemma clampQ_range (q : Q) :
  exists q', clampQ (Num q) = Num q' /\ 0 <= q' /\ q' <= 1.
Proof.
  unfold clampQ, Math_max, Math_min, num_of_Z.
  destruct (Qle_bool q (inject_Z 0)) eqn:E0.
  - exists (inject_Z 0). split; [reflexivity|]. split; unfold Qle; simpl; lia.
  - destruct (Qle_bool q (inject_Z 1)) eqn:E1.
    + exists q. split; [reflexivity|]. split.
      * destruct (Qlt_le_dec 0 q) as [H|H]; [now apply Qlt_le_weak|].
        apply Qle_bool_iff in H. change (inject_Z 0) with 0 in E0. congruence.
      * now apply Qle_bool_iff in E1.
    + exists (inject_Z 1). split; [reflexivity|]. split; unfold Qle; simpl; lia.
Qed.

Lemma clampQ_idem (x : jsnum) : clampQ (clampQ x) = clampQ x.
Proof.
  destruct x as [q|]; [|reflexivity].
  unfold clampQ, Math_max, Math_min, num_of_Z.
  destruct (Qle_bool q (inject_Z 0)) eqn:E0.
  - reflexivity.
  - destruct (Qle_bool q (inject_Z 1)) eqn:E1.
    + now rewrite E0, E1.
    + reflexivity.
Qed.

Lemma clamp_num (n : jsnum) : clamp (VNum n) = Ok (clampQ n).
Proof. reflexivity. Qed.

(** [clamp(v || 0)] of a sanitized number is that number. *)
Lemma clamp_or_idem (v : jsval) (n : jsnum) :
  clamp (or_else v (vnum 0)) = Ok n -> clamp (or_else (VNum n) (vnum 0)) = Ok n.
Proof.
  unfold or_else.
  assert (Zero : clamp (vnum 0) = Ok n ->
                 clamp (if truthy (VNum n) then VNum n else vnum 0) = Ok n).
  { intros H. apply Ok_inj in H. subst n. reflexivity. }
  destruct (truthy v) eqn:Tv; auto.
  intros H. unfold clamp in H. bind_inv H as x. apply Ok_inj in H.
  change (clampQ x = n) in H. subst n.
  destruct (truthy (VNum (clampQ x))) eqn:T.
  - rewrite clamp_num. now rewrite clampQ_idem.
  - assert (Hz : clampQ x = Num (inject_Z 0)); [|now rewrite Hz].
    destruct x as [q|].
    2:{ exfalso. destruct v as [| |[|]|n| | | |]; simpl in E, Tv; try discriminate.
        apply Ok_inj in E. subst. discriminate. }
    revert T. unfold clampQ, Math_max, Math_min, num_of_Z.
    destruct (Qle_bool q (inject_Z 0)) eqn:E0; [reflexivity|].
    destruct (Qle_bool q (inject_Z 1)) eqn:E1; simpl.
    + intros T. apply negb_false_iff, Qeq_bool_iff in T.
      assert (Qle_bool q (inject_Z 0) = true); [|congruence].
      apply Qle_bool_iff. rewrite T. apply Qle_refl.
    + discriminate.
Qed.

(** [v !== undefined ? clamp(v) : 1] of a sanitized number is that number. *)
Lemma clamp_opt_idem (v : jsval) (n : jsnum) :
  (if is_undefined v then Ok (num_of_Z 1) else clamp v) = Ok n ->
  clamp (VNum n) = Ok n.
Proof.
  rewrite clamp_num. destruct (is_undefined v).
  - intros H. apply Ok_inj in H. subst n. reflexivity.
  - intros H. unfold clamp in H. bind_inv H as x. apply Ok_inj in H.
    change (clampQ x = n) in H. subst n. now rewrite clampQ_idem.
Qed.

(** ** A second pass over sanitized values *)

Lemma clampColor_idem (c out : jsval) (withAlpha : bool) :
  clampColor c withAlpha = Ok out -> clampColor out withAlpha = Ok out.
Proof.
  unfold clampColor. intros H.
  bind_inv H as cr. bind_inv H as r'.
  bind_inv H as cg. bind_inv H as g'.
  bind_inv H as cb. bind_inv H as b'.
  apply clamp_or_idem in E0, E2, E4.
  destruct withAlpha.
  - bind_inv H as ca. bind_inv H as a'.
    apply clamp_opt_idem in E6.
    apply Ok_inj in H. subst out. cbn [get table_get String.eqb Ascii.eqb Bool.eqb rbind].
    rewrite E0. cbn [rbind]. rewrite E2. cbn [rbind]. rewrite E4. cbn [rbind].
    cbn [is_undefined]. rewrite E6. reflexivity.
  - apply Ok_inj in H. subst out. cbn [get table_get String.eqb Ascii.eqb Bool.eqb rbind].
    rewrite E0. cbn [rbind]. rewrite E2. cbn [rbind]. rewrite E4. reflexivity.
Qed.

(** A sanitized colour is an object, hence truthy. *)
Lemma clampColor_obj (c out : jsval) (withAlpha : bool) :
  clampColor c withAlpha = Ok out -> is_obj out = true.
Proof.
  unfold clampColor. intros H.
  repeat bind_inv H. destruct withAlpha; repeat bind_inv H;
    apply Ok_inj in H; subst out; reflexivity.
Qed.

Lemma is_obj_truthy (v : jsval) : is_obj v = true -> truthy v = true.
Proof. destruct v; simpl; congruence. Qed.

Lemma or_else_truthy (v d : jsval) : truthy v = true -> or_else v d = v.
Proof. unfold or_else. now intros ->. Qed.

Lemma sanitizeStop_idem (stop out : jsval) :
  sanitizeStop stop = Ok out -> sanitizeStop out = Ok out.
Proof.
  unfold sanitizeStop. intros H.
  bind_inv H as sc0. bind_inv H as color.
  bind_inv H as p. bind_inv H as position.
  apply Ok_inj in H. subst out.
  cbn [get table_get String.eqb Ascii.eqb Bool.eqb rbind].
  rewrite or_else_truthy by (eapply is_obj_truthy, clampColor_obj; eauto).
  rewrite (clampColor_idem _ _ E0). cbn [rbind].
  now rewrite (clamp_or_idem _ E2).
Qed.

Lemma mapR_idem (f : jsval -> outcome jsval) :
  (forall x y, f x = Ok y -> f y = Ok y) ->
  forall l l', mapR f l = Ok l' -> mapR f l' = Ok l'.
Proof.
  intros Hf. induction l as [|x l IH]; intros l' H; simpl in H.
  - apply Ok_inj in H. now subst.
  - bind_inv H. bind_inv H. apply Ok_inj in H. subst l'.
    simpl. rewrite (Hf _ _ E), (IH _ eq_refl). reflexivity.
Qed.

Lemma mapR_pointwise (f g : jsval -> outcome jsval) (h : jsval -> jsval) :
  (forall x y, f x = Ok y -> g y = Ok (h y)) ->
  forall l l', mapR f l = Ok l' -> mapR g l' = Ok (map h l').
Proof.
  intros Hf. induction l as [|x l IH]; intros l' H; simpl in H.
  - apply Ok_inj in H. now subst.
  - bind_inv H. bind_inv H. apply Ok_inj in H. subst l'.
    simpl. rewrite (Hf _ _ E), (IH _ eq_refl). reflexivity.
Qed.


(** What a second pass makes of one sanitized fill: the same fill, but
    for the transform of a gradient, which it resets. *)
Lemma sanitizeFill_again (fill out : jsval) :
  sanitizeFill fill = Ok out ->
  sanitizeFill out = Ok (withIdentityTransform out)
  /\ truthy (withIdentityTransform out) = truthy out.
Proof.
  unfold sanitizeFill. intros H. bind_inv H as ty.
  destruct (is_str ty "SOLID") eqn:Ts.
  - bind_inv H as c0. bind_inv H as color.
    bind_inv H as op. bind_inv H as opacity.
    apply Ok_inj in H. subst out. split; [|reflexivity].
    cbn [get table_get String.eqb Ascii.eqb Bool.eqb rbind is_str].
    rewrite or_else_truthy by (eapply is_obj_truthy, clampColor_obj; eauto).
    rewrite (clampColor_idem _ _ E1). cbn [rbind is_undefined].
    now rewrite (clamp_opt_idem _ E3).
  - destruct (is_str ty "GRADIENT_LINEAR" || is_str ty "GRADIENT_RADIAL") eqn:Tg.
    + bind_inv H as gs. bind_inv H as stops.
      bind_inv H as hp. bind_inv H as transform.
      apply Ok_inj in H. subst out.
      assert (Hstops : exists l, stops = VArr l /\ array_map sanitizeStop stops = Ok stops).
      { unfold array_map in E1. destruct (or_else gs (VArr [])); try discriminate.
        bind_inv E1 as l0. apply Ok_inj in E1. subst stops. exists l0. split; auto.
        simpl.
        match goal with
        | Hm : mapR sanitizeStop _ = Ok _ |- _ =>
            now rewrite (mapR_idem _ sanitizeStop_idem _ Hm)
        end. }
      destruct Hstops as (l & -> & Hl).
      unfold withIdentityTransform, is_gradient. cbn [field table_get String.eqb Ascii.eqb Bool.eqb].
      rewrite Tg. split; [|reflexivity].
      cbn [get table_get String.eqb Ascii.eqb Bool.eqb rbind]. rewrite Ts, Tg.
      rewrite or_else_truthy by reflexivity. rewrite Hl. reflexivity.
    + apply Ok_inj in H. subst out. rewrite E. cbn [rbind]. rewrite Ts, Tg.
      assert (Hf : field "type" fill = ty) by (apply get_field; auto).
      unfold withIdentityTransform, is_gradient. rewrite Hf, Tg. auto.
Qed.

Lemma filter_all {A : Type} (p : A -> bool) (l : list A) :
  forallb p l = true -> filter p l = l.
Proof.
  induction l as [|x l IH]; simpl; auto.
  intros H. apply andb_true_iff in H as [-> H]. now rewrite IH.
Qed.

Lemma forallb_filter {A : Type} (p : A -> bool) (l : list A) :
  forallb p (filter p l) = true.
Proof.
  induction l as [|x l IH]; simpl; auto.
  destruct (p x) eqn:E; simpl; auto. now rewrite E.
Qed.

(** [sanitizeFills] returns an array, and a second pass returns it with
    the gradient transforms reset. *)
Lemma sanitizeFills_again (fills out : jsval) :
  sanitizeFills fills = Ok out ->
  exists items,
    out = VArr items
    /\ sanitizeFills out = Ok (VArr (map withIdentityTransform items)).
Proof.
  unfold sanitizeFills at 1.
  destruct (negb (truthy fills) || negb (isArray fills)) eqn:G.
  - intros H. apply Ok_inj in H. subst out. exists []. auto.
  - apply orb_false_iff in G as [_ G]. apply negb_false_iff in G.
    destruct fills as [| | | | |items| |]; try discriminate G.
    intros H. bind_inv H as ws. apply Ok_inj in H. subst out.
    exists (filter truthy ws). split; auto.
    unfold sanitizeFills. cbn [truthy isArray negb orb].
    assert (Hmap : forall l ws', mapR sanitizeFill l = Ok ws' ->
              mapR sanitizeFill (filter truthy ws')
              = Ok (map withIdentityTransform (filter truthy ws'))
              /\ filter truthy (map withIdentityTransform (filter truthy ws'))
                 = map withIdentityTransform (filter truthy ws')).
    { induction l as [|x l IH]; intros ws' H; simpl in H.
      - apply Ok_inj in H. subst ws'. auto.
      - bind_inv H as y. bind_inv H as ys. apply Ok_inj in H. subst ws'.
        destruct (IH _ eq_refl) as [IH1 IH2].
        destruct (sanitizeFill_again _ E0) as [Ha Ht].
        cbn [filter]. destruct (truthy y) eqn:Ta; [|exact (conj IH1 IH2)].
        cbn [map mapR filter]. rewrite Ha. cbn [rbind]. rewrite IH1. cbn [rbind].
        rewrite Ht, IH2. auto. }
    destruct (Hmap _ _ E) as [H1 H2]. rewrite H1. cbn [rbind]. now rewrite H2.
Qed.

(** ** Sanitizing well-formed values: results and ranges *)

Lemma clamp_or_range (v : jsval) :
  numeric v = true ->
  exists q, clamp (or_else v (vnum 0)) = Ok (Num q) /\ 0 <= q /\ q <= 1.
Proof.
  intros Hv. unfold or_else.
  destruct v as [| | |[q|]| | | |]; try discriminate Hv; cbn [truthy].
  - destruct (clampQ_range (inject_Z 0)) as (q' & Hq & Hr). exists q'. now rewrite <- Hq.
  - destruct (num_truthy (Num q)).
    + destruct (clampQ_range q) as (q' & Hq & Hr). exists q'. now rewrite <- Hq.
    + destruct (clampQ_range (inject_Z 0)) as (q' & Hq & Hr). exists q'. now rewrite <- Hq.
Qed.

Lemma clamp_opt_range (v : jsval) :
  numeric v = true ->
  exists q, (if is_undefined v then Ok (num_of_Z 1) else clamp v) = Ok (Num q)
            /\ 0 <= q /\ q <= 1.
Proof.
  intros Hv. destruct v as [| | |[q|]| | | |]; try discriminate Hv; cbn [is_undefined].
  - exists (inject_Z 1). split; [reflexivity|]. split; unfold Qle; simpl; lia.
  - destruct (clampQ_range q) as (q' & Hq & Hr). exists q'. now rewrite <- Hq.
Qed.

Lemma color_ok_fields (c : jsval) :
  color_ok c = true ->
  let c' := or_else c (VObj []) in
  exists fields,
    c' = VObj fields
    /\ numeric (field "r" c') = true /\ numeric (field "g" c') = true
    /\ numeric (field "b" c') = true /\ numeric (field "a" c') = true.
Proof.
  destruct c as [| | | | | |fields|]; try discriminate; simpl.
  - intros _. exists []. auto.
  - intros H. repeat (apply andb_true_iff in H as [H ?]). exists fields. auto.
Qed.

Lemma clampColor_alpha_total (c : jsval) :
  color_ok c = true ->
  exists r g b a,
    clampColor (or_else c (VObj [])) true
    = Ok (VObj [("r", r); ("g", g); ("b", b); ("a", a)])
    /\ unit_interval r /\ unit_interval g /\ unit_interval b /\ unit_interval a.
Proof.
  intros H. destruct (color_ok_fields c H) as (fields & -> & Hr & Hg & Hb & Ha).
  unfold clampColor.
  destruct (clamp_or_range _ Hr) as (r & Er & Rr).
  destruct (clamp_or_range _ Hg) as (g & Eg & Rg).
  destruct (clamp_or_range _ Hb) as (b & Eb & Rb).
  destruct (clamp_opt_range _ Ha) as (a & Ea & Ra).
  rewrite get_obj. cbn [rbind]. rewrite Er. cbn [rbind].
  rewrite get_obj. cbn [rbind]. rewrite Eg. cbn [rbind].
  rewrite get_obj. cbn [rbind]. rewrite Eb. cbn [rbind].
  rewrite get_obj. cbn [rbind]. rewrite Ea. cbn [rbind].
  exists (VNum (Num r)), (VNum (Num g)), (VNum (Num b)), (VNum (Num a)).
  unfold unit_interval. repeat split; eauto.
Qed.

Lemma clampColor_solid_total (c : jsval) :
  color_ok c = true ->
  exists out, clampColor (or_else c (VObj [])) false = Ok out.
Proof.
  intros H. destruct (color_ok_fields c H) as (fields & -> & Hr & Hg & Hb & Ha).
  unfold clampColor.
  destruct (clamp_or_range _ Hr) as (r & Er & Rr).
  destruct (clamp_or_range _ Hg) as (g & Eg & Rg).
  destruct (clamp_or_range _ Hb) as (b & Eb & Rb).
  rewrite get_obj. cbn [rbind]. rewrite Er. cbn [rbind].
  rewrite get_obj. cbn [rbind]. rewrite Eg. cbn [rbind].
  rewrite get_obj. cbn [rbind]. rewrite Eb. cbn [rbind]. eauto.
Qed.

Lemma sanitizeStop_total (stop : jsval) :
  stop_ok stop = true -> exists out, sanitizeStop stop = Ok out.
Proof.
  unfold stop_ok. intros H. repeat (apply andb_true_iff in H as [H ?]).
  destruct stop as [| | | | | |fields|]; try discriminate.
  unfold sanitizeStop. rewrite get_obj. cbn [rbind].
  match goal with Hc : color_ok _ = true |- _ =>
    destruct (clampColor_alpha_total _ Hc) as (r & g & b & a & -> & _) end.
  cbn [rbind]. rewrite get_obj. cbn [rbind].
  match goal with Hp : numeric _ = true |- _ =>
    destruct (clamp_or_range _ Hp) as (q & -> & _) end.
  cbn [rbind]. eauto.
Qed.

Lemma mapR_total (ok : jsval -> bool) (f : jsval -> outcome jsval) (P : jsval -> Prop) :
  (forall x, ok x = true -> exists y, f x = Ok y /\ P y) ->
  forall l, forallb ok l = true ->
            exists l', mapR f l = Ok l' /\ Forall P l'.
Proof.
  intros Hf. induction l as [|x l IH]; simpl; intros H.
  - exists []. auto.
  - apply andb_true_iff in H as [Hx Hl].
    destruct (Hf _ Hx) as (y & -> & Py). destruct (IH Hl) as (l' & -> & Pl).
    exists (y :: l'). auto.
Qed.

Lemma minus_numeric (p q : jsval) :
  numeric p = true -> numeric q = true -> exists n, minus p q = Ok (VNum n).
Proof.
  destruct p as [| | |[x|]| | | |]; try discriminate;
    destruct q as [| | |[y|]| | | |]; try discriminate; intros _ _;
    unfold minus; simpl; eauto.
Qed.

Lemma point_at (l : list jsval) (i : nat) :
  forallb point_ok l = true -> (i < List.length l)%nat ->
  exists fields,
    nth i l VUndef = VObj fields
    /\ numeric (field "x" (VObj fields)) = true
    /\ numeric (field "y" (VObj fields)) = true.
Proof.
  intros H Hi. rewrite forallb_forall in H.
  specialize (H (nth i l VUndef) (nth_In _ _ Hi)).
  unfold point_ok in H. repeat (apply andb_true_iff in H as [H ?]).
  destruct (nth i l VUndef) as [| | | | | |fields|]; try discriminate. eauto.
Qed.

Lemma handlePositionsToTransform_total (l : list jsval) :
  forallb point_ok l = true ->
  exists out, handlePositionsToTransform (VArr l) = Ok out.
Proof.
  intros H. unfold handlePositionsToTransform. cbn [truthy get String.eqb Ascii.eqb Bool.eqb rbind].
  unfold ltNum. cbn [toNumber rbind].
  destruct (nlt (nat_num (List.length l)) (num_of_Z 3)) eqn:Hlen; [eauto|].
  assert (Hl : (3 <= List.length l)%nat).
  { unfold nlt, nat_num, num_of_Z in Hlen. apply negb_false_iff, Qle_bool_iff in Hlen.
    unfold Qle in Hlen. simpl in Hlen. lia. }
  cbn [at_index rbind].
  destruct (@point_at l 0%nat H) as (f0 & -> & X0 & Y0); [lia|].
  destruct (@point_at l 1%nat H) as (f1 & -> & X1 & Y1); [lia|].
  destruct (@point_at l 2%nat H) as (f2 & -> & X2 & Y2); [lia|].
  rewrite !get_obj. cbn [rbind].
  destruct (minus_numeric _ _ X1 X0) as (dx & ->).
  destruct (minus_numeric _ _ Y1 Y0) as (dy & ->).
  destruct (minus_numeric _ _ X2 X0) as (wx & ->).
  destruct (minus_numeric _ _ Y2 Y0) as (wy & ->).
  cbn [rbind]. eauto.
Qed.

(** A well-formed paint is sanitized to an object, and comes out as it
    is when its type is not one the plugin knows. *)
Lemma sanitizeFill_total (fill : jsval) :
  paint_ok fill = true ->
  exists out,
    sanitizeFill fill = Ok out /\ truthy out = true
    /\ (is_solid fill = false -> is_gradient fill = false -> out = fill).
Proof.
  unfold paint_ok. intros H. apply andb_true_iff in H as [Ho H].
  destruct fill as [| | | | | |fields|]; try discriminate Ho.
  unfold sanitizeFill. rewrite get_obj. cbn [rbind].
  unfold is_solid, is_gradient in *.
  destruct (is_str (field "type" (VObj fields)) "SOLID").
  - apply andb_true_iff in H as [Hc Hop].
    destruct (clampColor_solid_total _ Hc) as (color & Ec).
    destruct (clamp_opt_range _ Hop) as (o & Eo & _).
    rewrite get_obj. cbn [rbind]. rewrite Ec. cbn [rbind].
    rewrite get_obj. cbn [rbind]. rewrite Eo. cbn [rbind].
    eexists. split; [reflexivity|]. split; [reflexivity|]. discriminate.
  - destruct (is_str (field "type" (VObj fields)) "GRADIENT_LINEAR"
              || is_str (field "type" (VObj fields)) "GRADIENT_RADIAL").
    + apply andb_true_iff in H as [Hs Hh].
      assert (Es : exists stops,
                 array_map sanitizeStop
                   (or_else (field "gradientStops" (VObj fields)) (VArr [])) = Ok stops).
      { destruct (field "gradientStops" (VObj fields)) as [| | | | |l| |];
          try discriminate Hs; unfold or_else; cbn [truthy array_map].
        - simpl. eauto.
        - destruct (mapR_total stop_ok sanitizeStop (fun _ => True)) with (l := l)
            as (l' & -> & _); auto.
          + intros x Hx. destruct (sanitizeStop_total x Hx) as (y & ->). eauto.
          + cbn [rbind]. eauto. }
      destruct Es as (stops & Es).
      assert (Et : exists t,
                 (if truthy (field "gradientHandlePositions" (VObj fields))
                  then handlePositionsToTransform
                         (field "gradientHandlePositions" (VObj fields))
                  else Ok identityTransform) = Ok t).
      { destruct (field "gradientHandlePositions" (VObj fields)) as [| | | | |l| |];
          try discriminate Hh; cbn [truthy]; eauto.
        apply handlePositionsToTransform_total. exact Hh. }
      destruct Et as (t & Et).
      rewrite get_obj. cbn [rbind]. rewrite Es. cbn [rbind].
      rewrite get_obj. cbn [rbind]. rewrite Et. cbn [rbind].
      eexists. split; [reflexivity|]. split; [reflexivity|]. discriminate.
    + eexists. split; [reflexivity|]. split; [reflexivity|]. auto.
Qed.

(** On a list of well-formed paints [sanitizeFills] returns a list of the
    same length, in which every paint of a type other than the three the
    plugin knows is the paint given, at the same place. *)
Lemma sanitizeFills_total (items : list jsval) :
  forallb paint_ok items = true ->
  exists outs,
    sanitizeFills (VArr items) = Ok (VArr outs)
    /\ List.length outs = List.length items
    /\ forall i fill,
         nth_error items i = Some fill ->
         is_solid fill = false -> is_gradient fill = false ->
         nth_error outs i = Some fill.
Proof.
  intros H. unfold sanitizeFills. cbn [truthy isArray negb orb].
  assert (Hmap : exists ws,
             mapR sanitizeFill items = Ok ws /\ forallb truthy ws = true
             /\ List.length ws = List.length items
             /\ forall i fill,
                  nth_error items i = Some fill ->
                  is_solid fill = false -> is_gradient fill = false ->
                  nth_error ws i = Some fill).
  { induction items as [|x l IH]; simpl in H.
    - exists []. repeat split; auto; intros [|i] fill; discriminate.
    - apply andb_true_iff in H as [Hx Hl].
      destruct (sanitizeFill_total x Hx) as (y & Ey & Ty & Py).
      destruct (IH Hl) as (ws & Ews & Tws & Lws & Pws).
      exists (y :: ws). cbn [mapR]. rewrite Ey. cbn [rbind]. rewrite Ews. cbn [rbind].
      repeat split.
      + simpl. now rewrite Ty.
      + simpl. now rewrite Lws.
      + intros [|i] fill Hn Hs Hg; simpl in *.
        * apply Some_inj in Hn. subst x. now rewrite Py.
        * eauto. }
  destruct Hmap as (ws & -> & Tws & Lws & Pws). cbn [rbind].
  rewrite filter_all by auto. exists ws. auto.
Qed.

(** ** Effects *)

Lemma radius_range (v : jsval) :
  numeric v = true ->
  exists q, maxWith (or_else v (vnum 0)) (num_of_Z 0) = Ok (Num q) /\ 0 <= q.
Proof.
  intros Hv. unfold or_else, maxWith.
  assert (Hmax : forall q, exists q', Math_max (Num q) (num_of_Z 0) = Num q' /\ 0 <= q').
  { intros q. unfold Math_max, num_of_Z. destruct (Qle_bool q (inject_Z 0)) eqn:E.
    - exists (inject_Z 0). split; auto. unfold Qle; simpl; lia.
    - exists q. split; auto.
      destruct (Qlt_le_dec 0 q) as [Hq|Hq]; [now apply Qlt_le_weak|].
      apply Qle_bool_iff in Hq. change (inject_Z 0) with 0 in E. congruence. }
  destruct v as [| | |[q|]| | | |]; try discriminate Hv; cbn [truthy].
  - cbn [vnum toNumber rbind]. destruct (Hmax (inject_Z 0)) as (q' & Eq & Hq).
    unfold num_of_Z in *. rewrite Eq. eauto.
  - destruct (num_truthy (Num q)); cbn [vnum toNumber rbind].
    + destruct (Hmax q) as (q' & -> & Hq). eauto.
    + destruct (Hmax (inject_Z 0)) as (q' & Eq & Hq).
      unfold num_of_Z in *. rewrite Eq. eauto.
Qed.

Lemma sanitizeEffect_total (effect : jsval) :
  effect_ok effect = true ->
  exists out, sanitizeEffect effect = Ok out /\ applied_effect out.
Proof.
  unfold effect_ok. intros H. repeat (apply andb_true_iff in H as [H ?]).
  destruct effect as [| | | | | |fields|]; try discriminate.
  unfold sanitizeEffect.
  match goal with Hc : color_ok _ = true |- _ =>
    destruct (clampColor_alpha_total _ Hc) as (r & g & b & a & Ec & Rr & Rg & Rb & Ra) end.
  assert (Hoff : exists ox oy,
             get (or_else (field "offset" (VObj fields)) (VObj [])) "x" = Ok ox
             /\ get (or_else (field "offset" (VObj fields)) (VObj [])) "y" = Ok oy).
  { unfold or_else.
    destruct (field "offset" (VObj fields)) as [| |[|]|n|s|l|fs|];
      try discriminate; cbn [truthy];
      try (destruct (num_truthy n)); try (destruct (str_truthy s));
      simpl; eauto. }
  destruct Hoff as (ox & oy & Ex & Ey).
  match goal with Hr : numeric _ = true |- _ =>
    destruct (radius_range _ Hr) as (rad & Erad & Rrad) end.
  rewrite get_obj. cbn [rbind]. rewrite get_obj. cbn [rbind].
  rewrite get_obj. cbn [rbind]. rewrite Ec. cbn [rbind].
  rewrite Ex. cbn [rbind]. rewrite Ey. cbn [rbind].
  rewrite get_obj. cbn [rbind]. rewrite Erad. cbn [rbind].
  rewrite get_obj. cbn [rbind]. eexists. split; [reflexivity|].
  unfold applied_effect. do 9 eexists. split; [reflexivity|]. auto.
Qed.

End SanitizeFacts.

Import JS Scrape Plugin.

(** A linear gradient with channels, alpha and positions within [0,1]
    and the handles of a horizontal axis. *)
Definition gradient_sample : jsval :=
  VArr [ VObj [ ("type", VStr "GRADIENT_LINEAR");
                ("gradientStops",
                 VArr [ VObj [("color", VObj [("r", vnum 1); ("g", vnum 0);
                                              ("b", vnum 0); ("a", vnum 1)]);
                              ("position", vnum 0)];
                        VObj [("color", VObj [("r", vnum 0); ("g", vnum 0);
                                              ("b", vnum 1); ("a", vnum 1)]);
                              ("position", vnum 1)] ]);
                ("gradientHandlePositions",
                 VArr [ VObj [("x", vnum 0); ("y", VNum (Num (1 # 2)))];
                        VObj [("x", vnum 1); ("y", VNum (Num (1 # 2)))];
                        VObj [("x", VNum (Num (1 # 2))); ("y", vnum 1)] ]) ] ].

Definition sanitized_stops : jsval :=
  VArr [ VObj [("color", VObj [("r", vnum 1); ("g", vnum 0);
                               ("b", vnum 0); ("a", vnum 1)]);
               ("position", vnum 0)];
         VObj [("color", VObj [("r", vnum 0); ("g", vnum 0);
                               ("b", vnum 1); ("a", vnum 1)]);
               ("position", vnum 1)] ].

Definition gradient_once : jsval :=
  VArr [ VObj [ ("type", VStr "GRADIENT_LINEAR");
                ("gradientStops", sanitized_stops);
                ("gradientTransform",
                 VArr [ VArr [vnum 1; VNum (Num (1 # 2)); vnum 0];
                        VArr [vnum 0; VNum (Num (1 # 2)); VNum (Num (1 # 2))] ]) ] ].

Definition gradient_twice : jsval :=
  VArr [ VObj [ ("type", VStr "GRADIENT_LINEAR");
                ("gradientStops", sanitized_stops);
                ("gradientTransform", identityTransform) ] ].

(** C5, counterexample.  The claim: sanitizing the output of
    [sanitizeFills] returns it unchanged.  A sanitized gradient carries a
    [gradientTransform] computed from the handle positions and no handle
    positions any more, so the second pass finds none and puts the
    identity matrix in its place. *)
Lemma sanitizeFills_gradient_not_fixed :
  sanitizeFills gradient_sample = Ok gradient_once
  /\ sanitizeFills gradient_once = Ok gradient_twice
  /\ gradient_twice <> gradient_once.
Proof. repeat split. discriminate. Qed.

(** C5, as amended.  On a list of well-formed paints (objects; the
    channels, opacities, stop positions and handle coordinates that are
    there are numbers) [sanitizeFills] returns a list, and sanitizing that
    list again returns it with the transform of every gradient paint reset
    to the identity matrix and everything else unchanged: colours,
    opacities, stops and positions are a fixed point, and so is a whole
    sanitized list without gradient paints. *)
Theorem sanitizeFills_second_pass (items : list jsval) :
  forallb paint_ok items = true ->
  exists outs,
    sanitizeFills (VArr items) = Ok (VArr outs)
    /\ List.length outs = List.length items
    /\ sanitizeFills (VArr outs) = Ok (VArr (map withIdentityTransform outs))
    /\ (forallb (fun fill => negb (is_gradient fill)) outs = true ->
        sanitizeFills (VArr outs) = Ok (VArr outs)).
Proof.
  intros Hok.
  destruct (SanitizeFacts.sanitizeFills_total items Hok) as (outs & H & Hlen & _).
  destruct (SanitizeFacts.sanitizeFills_again _ H) as (items' & E & H2).
  injection E as <-.
  exists outs. repeat split; auto.
  intros Hng. rewrite H2. do 2 f_equal.
  clear H H2 Hlen. induction outs as [|x l IH]; simpl in *; auto.
  apply andb_true_iff in Hng as [Hx Hl]. apply negb_true_iff in Hx.
  unfold withIdentityTransform at 1. rewrite Hx. f_equal. now apply IH.
Qed.

Definition solid_sample : jsval :=
  VArr [ VObj [ ("type", VStr "SOLID");
                ("color", VObj [("r", vnum 1); ("g", VNum (Num (1 # 2))); ("b", vnum 0)]);
                ("opacity", VNum (Num (3 # 4))) ] ].

(** The paints of a list. *)
Definition paints_of (fills : jsval) : list jsval :=
  match fills with
  | VArr items => items
  | _ => []
  end.

Lemma sanitizeFills_second_pass_witness :
  (exists outs,
     sanitizeFills gradient_sample = Ok (VArr outs)
     /\ List.length outs = 1%nat
     /\ sanitizeFills (VArr outs) = Ok (VArr (map withIdentityTransform outs)))
  /\ sanitizeFills solid_sample = Ok solid_sample.
Proof.
  split.
  - destruct (sanitizeFills_second_pass (paints_of gradient_sample) eq_refl)
      as (outs & H1 & Hl & H2 & _).
    exists outs. auto.
  - destruct (sanitizeFills_second_pass (paints_of solid_sample) eq_refl)
      as (outs & H1 & _ & _ & Hfix).
    injection H1 as <-. apply Hfix. reflexivity.
Defined.

(** C10, counterexample.  The claim: [sanitizeFills] is total on
    arbitrary input.  The callback of [fills.map] reads [fill.type]
    first, which raises a TypeError on a null entry; and an entry that is
    falsy (0, the empty string, false) is not passed through but removed
    by the final [filter(Boolean)]. *)
Lemma sanitizeFills_null_entry_throws :
  sanitizeFills (VArr [VNull]) = Throw TypeError
  /\ sanitizeFills (VArr [vnum 0; VObj [("type", VStr "IMAGE")]])
     = Ok (VArr [VObj [("type", VStr "IMAGE")]]).
Proof. split; reflexivity. Qed.

(** C10, as amended.  For a missing or non-array argument
    [sanitizeFills] returns the empty list; for an array of paints (each
    an object, with numeric channels where its type is one of the three
    the plugin knows) it returns a list of the same length in which every
    paint whose type is neither SOLID nor GRADIENT_LINEAR nor
    GRADIENT_RADIAL is the paint given, unchanged and at the same
    place. *)
Theorem sanitizeFills_interface (fills : jsval) (items : list jsval) :
  (isArray fills = false -> sanitizeFills fills = Ok (VArr []))
  /\ (forallb paint_ok items = true ->
      exists outs,
        sanitizeFills (VArr items) = Ok (VArr outs)
        /\ List.length outs = List.length items
        /\ forall i fill,
             nth_error items i = Some fill ->
             is_solid fill = false -> is_gradient fill = false ->
             nth_error outs i = Some fill).
Proof.
  split.
  - intros H. unfold sanitizeFills. rewrite H. now rewrite orb_true_r.
  - apply SanitizeFacts.sanitizeFills_total.
Qed.

Definition image_paint : jsval :=
  VObj [("type", VStr "IMAGE"); ("scaleMode", VStr "FILL"); ("imageHash", VStr "abc")].

Lemma sanitizeFills_interface_witness :
  sanitizeFills (VStr "red") = Ok (VArr [])
  /\ exists outs,
       sanitizeFills (VArr [image_paint; VObj [("type", VStr "SOLID")]]) = Ok (VArr outs)
       /\ nth_error outs 0 = Some image_paint.
Proof.
  split.
  - apply (proj1 (sanitizeFills_interface (VStr "red") [])). reflexivity.
  - destruct (proj2 (sanitizeFills_interface VUndef
                       [image_paint; VObj [("type", VStr "SOLID")]]) eq_refl)
      as (outs & Hs & _ & Hp).
    exists outs. split; [exact Hs|]. apply Hp; reflexivity.
Defined.

(* ====================================================================== *)
(** * The plugin: the message handler, the root frame, effects *)
(* ====================================================================== *)

Module HandlerFacts.
Import JS Plugin SanitizeFacts.
Local Open Scope plugin_scope.

(** Reading a property of a truthy value never fails, and agrees with
    [field] for the names that are not [length]. *)
Lemma get_truthy (v : jsval) (name : string) :
  no_builtin v = true -> truthy v = true ->
  String.eqb name "length" = false ->
  get v name = Ok (field name v).
Proof.
  destruct v; simpl; try discriminate; intros _ _ Hn; now rewrite ?Hn.
Qed.

(** [v && v.length > 0] on a list field. *)
Lemma has_items_list (v : jsval) :
  list_of (fun _ => true) v = true -> has_items v = Ok (nonempty_list v).
Proof.
  destruct v as [| | | | |l| |]; try discriminate; intros _.
  { reflexivity. }
  unfold has_items. cbn [truthy get String.eqb Ascii.eqb Bool.eqb rbind].
  unfold gtNum, ngt, nlt, nat_num, num_of_Z. cbn [toNumber rbind]. f_equal.
  destruct l as [|x l]; [reflexivity|].
  cbn [nonempty_list]. apply negb_true_iff.
  reflexivity.
Qed.

Lemma list_of_weaken (ok : jsval -> bool) (v : jsval) :
  list_of ok v = true -> list_of (fun _ => true) v = true.
Proof.
  destruct v as [| | | | |l| |]; simpl; auto. intros _. now induction l.
Qed.

(** Updating the node created last. *)
Lemma update_nth_last {A : Type} (f : A -> A) (l : list A) (a : A) :
  update_nth (List.length l) f (l ++ [a])%list = (l ++ [f a])%list.
Proof. induction l as [|x l IH]; simpl; auto. now rewrite IH. Qed.

End HandlerFacts.

Import JS Scrape Plugin.
Local Open Scope plugin_scope.

(** C8.  When the document of an import message is missing (undefined,
    null or otherwise falsy) or has no root node, the handler shows one
    notification and returns: no scene node is created or changed, nothing
    is posted to the UI, and the rest of the state is as it was. *)
Theorem invalid_document_aborts
        (fontLoads : nat -> jsval -> bool) (svgParses : jsval -> bool)
        (imageOfBase64 imageOfUrl : jsval -> option string)
        (viewportCenter : jsnum * jsnum)
        (fields : list (string * jsval)) (st : state) :
  is_str (field "type" (VObj fields)) "import-design" = true ->
  no_builtin (field "data" (VObj fields)) = true ->
  has_root (field "data" (VObj fields)) = false ->
  onmessage fontLoads svgParses imageOfBase64 imageOfUrl viewportCenter
            (VObj fields) st
  = (Ok tt,
     mkState (nodes st) (notices st ++ [InvalidDesign]) (posts st) (views st)
             (loads st) (totalNodes st) (processedNodes st)).
Proof.
  intros Hty Hnb Hroot. unfold onmessage, bind, lift.
  rewrite !SanitizeFacts.get_obj. rewrite Hty.
  destruct (truthy (field "data" (VObj fields))) eqn:Td; cbn [negb].
  - rewrite (HandlerFacts.get_truthy _ "rootNode" Hnb Td eq_refl).
    unfold has_root in Hroot. cbn [rbind]. rewrite Hroot. reflexivity.
  - reflexivity.
Qed.

Definition empty_scene : state := mkState [] [] [] [] 0 0 0.

Lemma invalid_document_aborts_witness :
  onmessage (fun _ _ => true) (fun _ => true) (fun _ => None) (fun _ => None)
            (Num 0, Num 0)
            (VObj [("type", VStr "import-design");
                   ("data", VObj [("pageTitle", VStr "Home")])])
            empty_scene
  = (Ok tt, mkState [] [InvalidDesign] [] [] 0 0 0).
Proof.
  apply (invalid_document_aborts (fun _ _ => true) (fun _ => true)
           (fun _ => None) (fun _ => None) (Num 0, Num 0)
           [("type", VStr "import-design");
            ("data", VObj [("pageTitle", VStr "Home")])] empty_scene);
    reflexivity.
Defined.


(** The condition on the token cannot be dropped for strings at large:
    the pattern of the tokens allows a minus sign, and the radius is the
    third token as written.  (No computed value has a negative blur.) *)
Lemma parseBoxShadow_negative_radius :
  map radius (parseBoxShadow "1px 1px -5px") = [Num (-5 # 1)]
  /\ ~ 0 <= -5 # 1.
Proof. split; [reflexivity|]. intros H. vm_compute in H. now apply H. Qed.




(* ====================================================================== *)
(** * The plugin: text nodes *)
(* ====================================================================== *)

Module TextFacts.
Import JS Plugin SanitizeFacts HandlerFacts.

(** ** Rules for [returns] *)

Lemma returns_ret {A : Type} (P : state -> Prop) (a : A) (Q : A -> state -> Prop) :
  (forall s, P s -> Q a s) -> returns P (ret a) Q.
Proof. intros H s Hs. exists a, s. split; auto. Qed.

Lemma returns_bind {A B : Type} (P : state -> Prop) (m : M A)
      (Q : A -> state -> Prop) (f : A -> M B) (R : B -> state -> Prop) :
  returns P m Q -> (forall a, returns (Q a) (f a) R) -> returns P (bind m f) R.
Proof.
  intros Hm Hf s Hs. destruct (Hm s Hs) as (a & s1 & E & Hq).
  destruct (Hf a s1 Hq) as (b & s2 & E2 & Hr).
  exists b, s2. split; auto. unfold bind. now rewrite E.
Qed.

(** [m ;;; k] where [m] re-establishes some [P']. *)
Lemma returns_then {A B : Type} (P P' : state -> Prop) (m : M A) (k : M B)
      (R : B -> state -> Prop) :
  returns P m (fun _ => P') -> returns P' k R -> returns P (bind m (fun _ => k)) R.
Proof. intros Hm Hk. eapply returns_bind; eauto. Qed.

(** A pure step that succeeds. *)
Lemma returns_pure {A B : Type} (P : state -> Prop) (r : outcome A) (a : A)
      (f : A -> M B) (R : B -> state -> Prop) :
  r = Ok a -> returns P (f a) R -> returns P (bind (lift r) f) R.
Proof. intros -> H s Hs. exact (H s Hs). Qed.

Lemma returns_get {B : Type} (P : state -> Prop) (fields : list (string * jsval))
      (name : string) (f : jsval -> M B) (R : B -> state -> Prop) :
  returns P (f (field name (VObj fields))) R ->
  returns P (bind (lift (get (VObj fields) name)) f) R.
Proof. apply returns_pure. reflexivity. Qed.

Lemma returns_weaken {A : Type} (P P' : state -> Prop) (m : M A)
      (Q Q' : A -> state -> Prop) :
  returns P m Q -> (forall s, P' s -> P s) -> (forall a s, Q a s -> Q' a s) ->
  returns P' m Q'.
Proof.
  intros H HP HQ s Hs. destruct (H s (HP s Hs)) as (a & s' & E & Hq).
  exists a, s'. auto.
Qed.

(** A fact that does not depend on the state moves out of the
    precondition. *)
Lemma returns_assuming {A : Type} (fact : Prop) (P : state -> Prop) (m : M A)
      (Q : A -> state -> Prop) :
  (fact -> returns P m Q) -> returns (fun s => fact /\ P s) m Q.
Proof. intros H s [Hf Hs]. exact (H Hf s Hs). Qed.

(** A step taken or not, that keeps [P] when taken. *)
Lemma returns_when (P : state -> Prop) (b : bool) (m : M unit) :
  returns P m (fun _ => P) -> returns P (if b then m else ret tt) (fun _ => P).
Proof. intros H. destruct b; auto. now apply returns_ret. Qed.

(** ** The node created last *)

Lemma update_nth_mid {A : Type} (f : A -> A) (l r : list A) (a : A) :
  update_nth (List.length l) f (l ++ a :: r)%list = (l ++ f a :: r)%list.
Proof. induction l as [|x l IH]; simpl; auto. now rewrite IH. Qed.

(** [ok] survives the assignment of the properties [names]. *)
Definition keeps (ok : list (string * jsval) -> Prop) (names : list string) : Prop :=
  forall name v ps, In name names -> ok ps -> ok ((name, v) :: ps).

Lemma keeps_sub (ok : list (string * jsval) -> Prop) (names names' : list string) :
  keeps ok names -> incl names' names -> keeps ok names'.
Proof. intros H Hi name v ps Hin. apply H. auto. Qed.

Lemma keeps_true (names : list string) : keeps (fun _ => True) names.
Proof. intros name v ps _ _. exact I. Qed.

Section Top.

Variable pre : list fnode.
Variable k : node_kind.
Variable children : list nat.

Lemma returns_createNode :
  returns (fun s => nodes s = pre) (createNode k)
          (fun id s => id = List.length pre /\ top_node pre k [] (fun _ => True) s).
Proof.
  intros s Hs. eexists. eexists. split; [reflexivity|].
  rewrite Hs. split; auto. exists []. simpl. now rewrite Hs.
Qed.

Lemma returns_setProp (ok ok' : list (string * jsval) -> Prop)
      (name : string) (v : jsval) :
  (forall ps, ok ps -> ok' ((name, v) :: ps)) ->
  returns (top_node pre k children ok) (setProp (List.length pre) name v)
          (fun _ => top_node pre k children ok').
Proof.
  intros H s (ps & Hn & Hok). eexists. eexists. split; [reflexivity|].
  exists ((name, v) :: ps). split; auto.
  simpl. rewrite Hn, update_nth_last. reflexivity.
Qed.

Lemma returns_setProp_keeps (ok : list (string * jsval) -> Prop)
      (name : string) (names : list string) (v : jsval) :
  keeps ok names -> In name names ->
  returns (top_node pre k children ok) (setProp (List.length pre) name v)
          (fun _ => top_node pre k children ok).
Proof. intros H Hin. apply returns_setProp. intros ps. now apply H. Qed.

Lemma returns_setProp_any (name : string) (v : jsval) :
  returns (top_node pre k children (fun _ => True)) (setProp (List.length pre) name v)
          (fun _ => top_node pre k children (fun _ => True)).
Proof. apply returns_setProp. auto. Qed.

Lemma returns_resize (ok : list (string * jsval) -> Prop)
      (names : list string) (w h : jsval) :
  keeps ok names -> In "width" names -> In "height" names ->
  returns (top_node pre k children ok) (resize (List.length pre) w h)
          (fun _ => top_node pre k children ok).
Proof.
  intros H Hw Hh. unfold resize.
  eapply returns_then; eapply returns_setProp_keeps; eauto.
Qed.

End Top.

(** ** What the schema gives *)

Lemma paints_total (v : jsval) :
  list_of paint_ok v = true -> exists out, sanitizeFills v = Ok out.
Proof.
  destruct v as [| | | | |items| |]; try discriminate; intros H.
  - eexists. reflexivity.
  - destruct (sanitizeFills_total items H) as (outs & -> & _). eauto.
Qed.

(** Without entries the sanitized list is empty. *)
Lemma paints_empty (v : jsval) :
  list_of paint_ok v = true -> nonempty_list v = false ->
  sanitizeFills v = Ok (VArr []).
Proof.
  destruct v as [| | | | |[|x l]| |]; try discriminate; reflexivity.
Qed.

Lemma hasFills_list (fields : list (string * jsval)) (name : string) (ok : jsval -> bool) :
  list_of ok (field name (VObj fields)) = true ->
  hasFills (VObj fields) name
  = Ok (nonempty_list (field name (VObj fields)), field name (VObj fields)).
Proof.
  intros H. unfold hasFills. rewrite get_obj. cbn [rbind].
  rewrite has_items_list by (eapply list_of_weaken; eauto). reflexivity.
Qed.

Lemma numeric_truthy (v : jsval) : numeric v = true -> truthy v = nonzero v.
Proof. destruct v as [| | |[q|]| | | |]; try discriminate; reflexivity. Qed.

Lemma sizeOf_numeric (fields : list (string * jsval)) (d : Z) :
  numeric (field "width" (VObj fields)) = true ->
  numeric (field "height" (VObj fields)) = true ->
  exists wh, sizeOf (VObj fields) d = Ok wh.
Proof.
  intros Hw Hh. unfold sizeOf. rewrite get_obj. cbn [rbind].
  assert (Hmax : forall v, numeric v = true ->
                           exists n, maxWith (or_else v (vnum d)) (num_of_Z 1) = Ok n).
  { intros v Hv. unfold or_else.
    destruct v as [| | |[q|]| | | |]; try discriminate Hv; cbn [truthy].
    - eexists. reflexivity.
    - destruct (num_truthy (Num q)); eexists; reflexivity. }
  destruct (Hmax _ Hw) as (w & ->). cbn [rbind]. rewrite get_obj. cbn [rbind].
  destruct (Hmax _ Hh) as (h & ->). cbn [rbind]. eauto.
Qed.

(** The decision of [createTextNode] is the one the claim words. *)
Lemma needsWrapper_spec (node : jsval) :
  text_node_ok node = true ->
  needsWrapper node
  = Ok (wrapper_required node, nonempty_list (field "backgroundFills" node)).
Proof.
  unfold text_node_ok. intros H. repeat (apply andb_true_iff in H as [H ?]).
  destruct node as [| | | | | |fields|]; try discriminate H.
  unfold needsWrapper.
  rewrite (hasFills_list fields "backgroundFills" paint_ok) by assumption. cbn [rbind].
  rewrite (hasFills_list fields "strokes" paint_ok) by assumption. cbn [rbind].
  rewrite !get_obj. cbn [rbind].
  rewrite (hasFills_list fields "effects" effect_ok) by assumption. cbn [rbind fst].
  rewrite !numeric_truthy by assumption.
  unfold wrapper_required. now rewrite !orb_assoc.
Qed.

(** ** The helpers that style a frame *)

Section Styling.

Variable pre : list fnode.
Variable k : node_kind.
Variable children : list nat.
Variable ok : list (string * jsval) -> Prop.
Variable fields : list (string * jsval).

Let node := VObj fields.
Let here := top_node pre k children ok.

Lemma applyStrokes_returns :
  list_of paint_ok (field "strokes" node) = true ->
  keeps ok ["strokes"; "strokeWeight"; "strokeAlign"] ->
  returns here (applyStrokes (List.length pre) node) (fun _ => here).
Proof.
  intros Hs Hk. unfold applyStrokes, here, node.
  apply returns_get.
  eapply returns_pure; [apply has_items_list; eapply list_of_weaken; eauto|].
  destruct (nonempty_list (field "strokes" (VObj fields))); [|now apply returns_ret].
  destruct (paints_total _ Hs) as (clean & Hc).
  eapply returns_pure; [exact Hc|].
  eapply returns_then; [eapply returns_setProp_keeps; eauto; simpl; auto|].
  apply returns_get.
  eapply returns_then;
    [apply returns_when; eapply returns_setProp_keeps; eauto; simpl; auto|].
  apply returns_get.
  eapply returns_setProp_keeps; eauto; simpl; auto.
Qed.

Lemma applyCornerRadius_returns :
  keeps ok ["topLeftRadius"; "topRightRadius"; "bottomRightRadius"; "bottomLeftRadius"] ->
  returns here (applyCornerRadius (List.length pre) node) (fun _ => here).
Proof.
  intros Hk. unfold applyCornerRadius, here, node.
  do 4 apply returns_get.
  match goal with |- returns _ (if ?b then _ else _) _ => destruct b end;
    [|now apply returns_ret].
  repeat (eapply returns_then; [eapply returns_setProp_keeps; eauto; simpl; auto|]).
  eapply returns_setProp_keeps; eauto; simpl; auto.
Qed.

Lemma applyEffects_returns :
  list_of effect_ok (field "effects" node) = true ->
  keeps ok ["effects"] ->
  returns here (applyEffects (List.length pre) node) (fun _ => here).
Proof.
  intros He Hk. unfold applyEffects, here, node in *.
  apply returns_get.
  eapply returns_pure; [apply has_items_list; eapply list_of_weaken; eauto|].
  destruct (field "effects" (VObj fields)) as [| | | | |effects| |] eqn:E;
    try discriminate He; cbn [nonempty_list].
  { now apply returns_ret. }
  destruct effects as [|x l]; [now apply returns_ret|].
  destruct (mapR_total effect_ok sanitizeEffect applied_effect
              sanitizeEffect_total (x :: l) He) as (applied & Hm & _).
  eapply returns_pure; [unfold array_map; rewrite Hm; reflexivity|].
  eapply returns_setProp_keeps; eauto; simpl; auto.
Qed.

End Styling.

(** ** Fonts *)

Section Fonts.

Variable fontLoads : nat -> jsval -> bool.
Hypothesis inter_loads : forall n, fontLoads n interRegular = true.

Variable pre : list fnode.
Variable ok : list (string * jsval) -> Prop.
Hypothesis ok_keeps : keeps ok ["fontName"].

Let here := top_node pre TEXT [] ok.

(** A scene predicate does not look at the count of font loads. *)
Lemma here_loads (s : state) (n : nat) :
  here s ->
  here (mkState (nodes s) (notices s) (posts s) (views s) n
                (totalNodes s) (processedNodes s)).
Proof. intros (ps & Hn & Hok). exists ps. auto. Qed.

Lemma tryFonts_returns (fontsToTry : list jsval) :
  In interRegular fontsToTry ->
  returns here (tryFonts fontLoads fontsToTry (List.length pre))
          (fun loaded s => loaded = true /\ here s).
Proof.
  induction fontsToTry as [|font rest IH]; intros Hin s Hs; [contradiction|].
  cbn [tryFonts]. unfold try_catch, bind, loadFontAsync.
  destruct (fontLoads (loads s) font) eqn:E.
  - apply (here_loads (S (loads s))) in Hs.
    destruct (@returns_setProp_keeps pre TEXT [] ok "fontName" ["fontName"] font
                ok_keeps (or_introl eq_refl) _ Hs)
      as ([] & s' & Es & Hs').
    unfold here in Es. rewrite Es. unfold ret. eauto.
  - destruct Hin as [->|Hin]; [rewrite inter_loads in E; discriminate|].
    apply (IH Hin). now apply here_loads.
Qed.

End Fonts.

Lemma returns_fix {A : Type} (P : state -> Prop) (m : M A) (Q : A -> state -> Prop) :
  (forall s0, P s0 -> returns (fun s => s = s0) m Q) -> returns P m Q.
Proof. intros H s Hs. exact (H s Hs s eq_refl). Qed.

Lemma sanitizeFontFamily_total (v : jsval) :
  match v with VUndef | VStr _ => true | _ => false end = true ->
  exists family, sanitizeFontFamily v = Ok family.
Proof.
  destruct v as [| | | |f| | |]; try discriminate; intros _; unfold sanitizeFontFamily.
  - eexists. reflexivity.
  - cbn [truthy]. destruct (str_truthy f); cbn [negb]; [|eexists; reflexivity].
    destruct (table_get (trim (beforeComma (stripQuotes f))) systemFontMap);
      [eexists; reflexivity|].
    destruct (existsb _ inherited); eexists; reflexivity.
Qed.

(** A step of the text phase: it keeps the text node on top. *)
Ltac text_set :=
  eapply returns_then;
  [ first [ apply returns_when; apply returns_setProp_any
          | apply returns_setProp_any
          | eapply returns_resize; [apply keeps_true with (names := ["width"; "height"])
                                   | simpl; auto | simpl; auto] ]
  | ].

Section TextNode.

Variable fontLoads : nat -> jsval -> bool.
Hypothesis inter_loads : forall n, fontLoads n interRegular = true.

Variable fields : list (string * jsval).
Variable st : state.

Let node := VObj fields.
Let base := nodes st.
Let n := List.length base.

Hypothesis node_ok : text_node_ok node = true.

(** What [createTextNode] leaves and returns. *)
Definition text_result (id : nat) (s : state) : Prop :=
  exists tprops,
    if wrapper_required node then
      exists wprops fills,
        id = n
        /\ nodes s = (base ++ [mkNode FRAME wprops [S n]; mkNode TEXT tprops []])%list
        /\ sanitizeFills (field "backgroundFills" node) = Ok fills
        /\ table_get "fills" wprops = Some fills
        /\ table_get "x" tprops = Some (vnum 0)
        /\ table_get "y" tprops = Some (vnum 0)
    else
      id = n /\ nodes s = (base ++ [mkNode TEXT tprops []])%list.

(** The wrapper, once built: the frame on top of the scene, with the
    sanitized background fills. *)
Definition wrapper_built (fills : jsval) (o : option nat) (s : state) : Prop :=
  match o with
  | Some w =>
      wrapper_required node = true /\ w = n
      /\ top_node base FRAME [] (fun ps => table_get "fills" ps = Some fills) s
  | None => wrapper_required node = false /\ nodes s = base
  end.

Lemma createTextNode_returns :
  returns (fun s => s = st) (createTextNode fontLoads node) text_result.
Proof.
  pose proof node_ok as Hok. unfold text_node_ok in Hok.
  repeat (apply andb_true_iff in Hok as [Hok ?]).
  destruct (paints_total _ H10) as (F & HF).
  destruct (paints_total _ H8) as (textFills & Htf).
  destruct (sizeOf_numeric fields 1 H2 H1) as (wh & Hwh).
  destruct (sanitizeFontFamily_total _ H0) as (family & Hfam).
  unfold createTextNode.
  eapply returns_pure; [apply needsWrapper_spec; exact node_ok|].
  cbn [fst snd].
  eapply returns_bind with (Q := wrapper_built F).
  - (* the wrapper *)
    destruct (wrapper_required node) eqn:Need; [|apply returns_ret; intros s ->; split; auto].
    eapply returns_bind;
      [eapply returns_weaken;
       [apply (@returns_createNode base FRAME) | intros s ->; reflexivity
        | intros a s Ha; exact Ha]|].
    intros w. apply returns_assuming. intros ->.
    apply returns_get.
    eapply returns_then; [apply returns_setProp_any|].
    eapply returns_pure; [exact Hwh|].
    eapply returns_then;
      [eapply returns_resize;
       [apply keeps_true with (names := ["width"; "height"]) | simpl; auto | simpl; auto]|].
    eapply returns_then; [apply returns_setProp_any|].
    eapply returns_then
      with (P' := top_node base FRAME [] (fun ps => table_get "fills" ps = Some F)).
    { destruct (nonempty_list (field "backgroundFills" node)) eqn:Hb.
      - apply returns_get. eapply returns_pure; [exact HF|].
        apply returns_setProp. reflexivity.
      - rewrite paints_empty in HF by assumption. apply Ok_inj in HF. subst F.
        apply returns_setProp. reflexivity. }
    assert (Hkeep : keeps (fun ps => table_get "fills" ps = Some F)
                          ["strokes"; "strokeWeight"; "strokeAlign";
                           "topLeftRadius"; "topRightRadius"; "bottomRightRadius";
                           "bottomLeftRadius"; "effects"]).
    { intros name v ps Hin Hps. simpl in Hin.
      repeat (destruct Hin as [<-|Hin]; [exact Hps|]). contradiction. }
    eapply returns_then;
      [apply applyStrokes_returns;
       [exact H9 | eapply keeps_sub; [exact Hkeep|intros x Hx; simpl in *; tauto]]|].
    eapply returns_then;
      [apply applyCornerRadius_returns;
       eapply keeps_sub; [exact Hkeep|intros x Hx; simpl in *; tauto]|].
    eapply returns_then;
      [apply applyEffects_returns;
       [exact H7 | eapply keeps_sub; [exact Hkeep|intros x Hx; simpl in *; tauto]]|].
    apply returns_ret. intros s Hs. repeat split; auto.
  - (* the text primitive *)
    intros o. apply returns_fix. intros s0 Hs0.
    eapply returns_bind;
      [eapply returns_weaken;
       [apply (@returns_createNode (nodes s0) TEXT) | intros s ->; reflexivity
        | intros a s Ha; exact Ha]|].
    intros textNode. apply returns_assuming. intros ->.
    apply returns_get. eapply returns_pure; [exact Hfam|]. apply returns_get.
    eapply returns_bind;
      [apply tryFonts_returns;
       [exact inter_loads | apply keeps_true | simpl; auto]|].
    intros loaded. apply returns_assuming. intros ->.
    eapply returns_then; [apply returns_ret; intros s Hs; exact Hs|].
    apply returns_get. text_set.
    apply returns_get. text_set.
    apply returns_get.
    eapply returns_then with (P' := top_node (nodes s0) TEXT [] (fun _ => True)).
    { destruct (truthy (field "lineHeight" (VObj fields))) eqn:Tl;
        [|apply returns_ret; auto].
      eapply returns_pure; [apply get_truthy; auto|].
      match goal with |- returns _ (if ?b then _ else _) _ => destruct b end;
        [apply returns_setProp_any|].
      eapply returns_pure; [apply get_truthy; auto|].
      apply returns_when. apply returns_setProp_any. }
    apply returns_get. text_set.
    apply returns_get. text_set.
    apply returns_get. text_set.
    eapply returns_pure; [apply hasFills_list with (ok := paint_ok); exact H8|].
    cbn [fst snd].
    eapply returns_then with (P' := top_node (nodes s0) TEXT [] (fun _ => True)).
    { destruct (nonempty_list (field "fills" (VObj fields)));
        [|apply returns_ret; auto].
      eapply returns_pure; [exact Htf|]. apply returns_setProp_any. }
    eapply returns_pure; [exact Hwh|].
    text_set. text_set.
    destruct o as [w|].
    + destruct Hs0 as (Need & -> & (wprops & Hn0 & Hf)).
      eapply returns_then;
        [eapply returns_setProp
           with (ok' := fun ps => table_get "x" ps = Some (vnum 0)); reflexivity|].
      eapply returns_then;
        [eapply returns_setProp
           with (ok' := fun ps => table_get "x" ps = Some (vnum 0)
                                  /\ table_get "y" ps = Some (vnum 0));
         intros ps Hps; split; [exact Hps|reflexivity]|].
      intros s (tprops & Hn & Hx & Hy).
      eexists. eexists. split; [reflexivity|].
      unfold text_result. exists tprops. rewrite Need. exists wprops, F.
      repeat split; auto.
      cbn [nodes with_nodes]. rewrite Hn, Hn0, <- app_assoc. cbn [app].
      unfold n. rewrite update_nth_mid. cbn [kind props kids app].
      rewrite length_app, Nat.add_1_r. reflexivity.
    + destruct Hs0 as (Need & Hn0).
      apply returns_ret. intros s (tprops & Hn & _).
      unfold text_result. exists tprops. rewrite Need.
      rewrite Hn0 in *. auto.
Qed.

End TextNode.

End TextFacts.

(** C6.  For every TEXT node of the document, [createTextNode] (the host
    resolving the font Inter Regular) returns normally; it creates a
    wrapping frame exactly when the node has a non-empty
    [backgroundFills], a non-empty [strokes], a nonzero corner radius or
    an effect.  Then the frame is the node returned; its fills are the
    sanitized background fills (not the text colour), and its only child
    is the text primitive, placed at (0,0).  Otherwise the text primitive
    is created alone and returned. *)
Theorem text_node_wrapper
        (fontLoads : nat -> jsval -> bool) (node : jsval) (st : state) :
  text_node_ok node = true ->
  (forall n, fontLoads n interRegular = true) ->
  let n := List.length (nodes st) in
  exists st' tprops,
    createTextNode fontLoads node st = (Ok n, st')
    /\ if wrapper_required node then
         exists wprops fills,
           nodes st' = (nodes st ++ [mkNode FRAME wprops [S n];
                                     mkNode TEXT tprops []])%list
           /\ sanitizeFills (field "backgroundFills" node) = Ok fills
           /\ table_get "fills" wprops = Some fills
           /\ table_get "x" tprops = Some (vnum 0)
           /\ table_get "y" tprops = Some (vnum 0)
       else
         nodes st' = (nodes st ++ [mkNode TEXT tprops []])%list.
Proof.
  intros Hok Hfont n.
  assert (Hobj : is_obj node = true).
  { unfold text_node_ok in Hok. repeat (apply andb_true_iff in Hok as [Hok _]). exact Hok. }
  destruct node as [| | | | | |fields|]; try discriminate Hobj.
  destruct (@TextFacts.createTextNode_returns fontLoads Hfont fields st Hok st eq_refl)
    as (id & st' & Hrun & (tprops & Hres)).
  exists st', tprops.
  destruct (wrapper_required (VObj fields)).
  - destruct Hres as (wprops & fills & -> & Hn & Hs & Hf & Hx & Hy).
    split; [exact Hrun|]. exists wprops, fills. auto.
  - destruct Hres as (-> & Hn). auto.
Qed.

(** A plain label, and a badge with a background. *)
Definition label_node : jsval :=
  VObj [ ("type", VStr "TEXT"); ("characters", VStr "Hi");
         ("width", vnum 20); ("height", vnum 12);
         ("fills", VArr [ VObj [ ("type", VStr "SOLID");
                                 ("color", VObj [("r", vnum 0); ("g", vnum 0); ("b", vnum 0)]);
                                 ("opacity", vnum 1) ] ]) ].

Definition badge_node : jsval :=
  VObj [ ("type", VStr "TEXT"); ("characters", VStr "New");
         ("width", vnum 40); ("height", vnum 16);
         ("fills", VArr [ VObj [ ("type", VStr "SOLID");
                                 ("color", VObj [("r", vnum 1); ("g", vnum 1); ("b", vnum 1)]);
                                 ("opacity", vnum 1) ] ]);
         ("backgroundFills",
          VArr [ VObj [ ("type", VStr "SOLID");
                        ("color", VObj [("r", vnum 1); ("g", vnum 0); ("b", vnum 0)]);
                        ("opacity", vnum 1) ] ]) ].

Lemma text_node_wrapper_witness :
  (exists st' tprops,
     createTextNode (fun _ _ => true) label_node empty_scene = (Ok 0%nat, st')
     /\ nodes st' = [mkNode TEXT tprops []])
  /\ (exists st' tprops wprops,
        createTextNode (fun _ _ => true) badge_node empty_scene = (Ok 0%nat, st')
        /\ nodes st' = [mkNode FRAME wprops [1%nat]; mkNode TEXT tprops []]
        /\ table_get "fills" wprops
           = Some (VArr [ VObj [ ("type", VStr "SOLID");
                                 ("color", VObj [("r", vnum 1); ("g", vnum 0); ("b", vnum 0)]);
                                 ("opacity", vnum 1) ] ])).
Proof.
  split.
  - destruct (text_node_wrapper (fun _ _ => true) label_node empty_scene
                eq_refl (fun _ => eq_refl)) as (st' & tprops & Hrun & Hn).
    exists st', tprops. split; [exact Hrun | exact Hn].
  - destruct (text_node_wrapper (fun _ _ => true) badge_node empty_scene
                eq_refl (fun _ => eq_refl))
      as (st' & tprops & Hrun & (wprops & fills & Hn & Hs & Hf & _)).
    exists st', tprops, wprops. split; [exact Hrun|]. split; [exact Hn|].
    rewrite Hf. f_equal. apply SanitizeFacts.Ok_inj. rewrite <- Hs. reflexivity.
Defined.

(* ====================================================================== *)
(** * The walk over the document: recursion bound and what it leaves alone *)
(* ====================================================================== *)

Module FrameFacts.

(** ** Pure code never stops at the recursion bound *)

Lemma fueled_Ok (A : Type) (a : A) : fueled (Ok a).
Proof. discriminate. Qed.

Lemma fueled_Throw (A : Type) (e : exn) : fueled (@Throw A e).
Proof. discriminate. Qed.

Lemma fueled_Unmodelled (A : Type) : fueled (@Unmodelled A).
Proof. discriminate. Qed.

Lemma fueled_rbind (A B : Type) (m : outcome A) (k : A -> outcome B) :
  fueled m -> (forall x, fueled (k x)) -> fueled (rbind m k).
Proof.
  destruct m; cbn [rbind]; intros Hm Hk; auto; try discriminate.
  now destruct Hm.
Qed.

Lemma fueled_mapR (A B : Type) (f : A -> outcome B) (l : list A) :
  (forall x, fueled (f x)) -> fueled (mapR f l).
Proof.
  intros Hf. induction l as [|v l IH]; cbn [mapR].
  - apply fueled_Ok.
  - apply fueled_rbind; [apply Hf|intros w].
    apply fueled_rbind; [exact IH|intros ws]. apply fueled_Ok.
Qed.

Create HintDb fueled.

Ltac fuel :=
  repeat first
    [ assumption
    | apply fueled_Ok
    | apply fueled_Throw
    | apply fueled_Unmodelled
    | solve [auto with fueled nocore]
    | apply fueled_rbind; [|intros ?]
    | apply fueled_mapR; intros ?
    | progress cbv zeta
    | match goal with
      | |- fueled (if ?c then _ else _) => destruct c
      | |- fueled (match ?v with _ => _ end) => destruct v
      end ].

Lemma fueled_get (v : jsval) (name : string) : fueled (get v name).
Proof. unfold get. fuel. Qed.
#[local] Hint Resolve fueled_get : fueled.

Lemma fueled_at_index (v : jsval) (i : nat) : fueled (at_index v i).
Proof. unfold at_index. destruct v; fuel. Qed.
#[local] Hint Resolve fueled_at_index : fueled.

Lemma fueled_toNumber (v : jsval) : fueled (toNumber v).
Proof. unfold toNumber. fuel. Qed.
#[local] Hint Resolve fueled_toNumber : fueled.

Lemma fueled_maxWith (v : jsval) (n : jsnum) : fueled (maxWith v n).
Proof. unfold maxWith. fuel. Qed.

Lemma fueled_gtNum (v : jsval) (n : jsnum) : fueled (gtNum v n).
Proof. unfold gtNum. fuel. Qed.

Lemma fueled_ltNum (v : jsval) (n : jsnum) : fueled (ltNum v n).
Proof. unfold ltNum. fuel. Qed.
#[local] Hint Resolve fueled_maxWith fueled_gtNum fueled_ltNum : fueled.

Lemma fueled_has_items (v : jsval) : fueled (has_items v).
Proof. unfold has_items. fuel. Qed.

Lemma fueled_clamp (v : jsval) : fueled (clamp v).
Proof. unfold clamp. fuel. Qed.

Lemma fueled_minus (p q : jsval) : fueled (minus p q).
Proof. unfold minus. fuel. Qed.
#[local] Hint Resolve fueled_has_items fueled_clamp fueled_minus : fueled.

Lemma fueled_handlePositionsToTransform (handles : jsval) :
  fueled (handlePositionsToTransform handles).
Proof. unfold handlePositionsToTransform. fuel. Qed.

Lemma fueled_clampColor (c : jsval) (withAlpha : bool) :
  fueled (clampColor c withAlpha).
Proof. unfold clampColor. fuel. Qed.
#[local] Hint Resolve fueled_handlePositionsToTransform fueled_clampColor : fueled.

Lemma fueled_sanitizeStop (stop : jsval) : fueled (sanitizeStop stop).
Proof. unfold sanitizeStop. fuel. Qed.
#[local] Hint Resolve fueled_sanitizeStop : fueled.

Lemma fueled_array_map (f : jsval -> outcome jsval) (v : jsval) :
  (forall x, fueled (f x)) -> fueled (array_map f v).
Proof. intros Hf. unfold array_map. destruct v; fuel. Qed.

Lemma fueled_sanitizeFill (fill : jsval) : fueled (sanitizeFill fill).
Proof.
  unfold sanitizeFill. fuel.
  apply fueled_array_map. intros x. fuel.
Qed.
#[local] Hint Resolve fueled_sanitizeFill : fueled.

Lemma fueled_sanitizeFills (fills : jsval) : fueled (sanitizeFills fills).
Proof. unfold sanitizeFills. fuel. Qed.

Lemma fueled_sanitizeEffect (effect : jsval) : fueled (sanitizeEffect effect).
Proof. unfold sanitizeEffect. fuel. Qed.

Lemma fueled_sanitizeFontFamily (family : jsval) :
  fueled (sanitizeFontFamily family).
Proof. unfold sanitizeFontFamily. fuel. Qed.
#[local] Hint Resolve fueled_sanitizeFills fueled_sanitizeEffect
  fueled_sanitizeFontFamily : fueled.

Lemma fueled_effects (effects : jsval) :
  fueled (array_map sanitizeEffect effects).
Proof. apply fueled_array_map. intros x. fuel. Qed.

Lemma fueled_sizeOf (node : jsval) (d : Z) : fueled (sizeOf node d).
Proof. unfold sizeOf. fuel. Qed.

Lemma fueled_hasFills (node : jsval) (name : string) : fueled (hasFills node name).
Proof. unfold hasFills. fuel. Qed.
#[local] Hint Resolve fueled_effects fueled_sizeOf fueled_hasFills : fueled.

Lemma fueled_needsWrapper (node : jsval) : fueled (needsWrapper node).
Proof. unfold needsWrapper. fuel. Qed.

Lemma fueled_iterate (v : jsval) : fueled (iterate v).
Proof. unfold iterate. fuel. Qed.

Lemma fueled_centred (c : jsnum) (extent : jsval) : fueled (centred c extent).
Proof. unfold centred. fuel. Qed.
#[local] Hint Resolve fueled_needsWrapper fueled_iterate fueled_centred : fueled.

(** ** What a computation maintains *)

Section Rules.

Variable Inv : state -> Prop.

Lemma maintains_ret (A : Type) (a : A) (Q : A -> Prop) :
  Q a -> maintains Inv (ret a) Q.
Proof.
  intros Ha s Hs. unfold ret. cbn [fst snd]. repeat split; auto.
  - discriminate.
  - intros a' E. now injection E as <-.
Qed.

Lemma maintains_bind (A B : Type) (m : M A) (f : A -> M B)
      (Q : A -> Prop) (R : B -> Prop) :
  maintains Inv m Q ->
  (forall x, Q x -> maintains Inv (f x) R) ->
  maintains Inv (bind m f) R.
Proof.
  intros Hm Hf s Hs. destruct (Hm s Hs) as (Fm & Im & Qm). unfold bind.
  destruct (m s) as [[x|e| |] s1]; cbn [fst snd] in *.
  - apply (Hf x (Qm x eq_refl) s1 Im).
  - repeat split; auto; discriminate.
  - repeat split; auto; discriminate.
  - now destruct Fm.
Qed.

Lemma maintains_then (A B : Type) (m : M A) (f : A -> M B) (R : B -> Prop) :
  maintains Inv m (fun _ => True) ->
  (forall x, maintains Inv (f x) R) ->
  maintains Inv (bind m f) R.
Proof. intros Hm Hf. eapply maintains_bind; [exact Hm|]. intros x _. apply Hf. Qed.

Lemma maintains_weaken (A : Type) (m : M A) (Q Q' : A -> Prop) :
  (forall x, Q x -> Q' x) -> maintains Inv m Q -> maintains Inv m Q'.
Proof.
  intros HQ Hm s Hs. destruct (Hm s Hs) as (Fm & Im & Qm).
  repeat split; auto.
Qed.

Lemma maintains_any (A : Type) (m : M A) (Q : A -> Prop) :
  maintains Inv m Q -> maintains Inv m (fun _ => True).
Proof. apply maintains_weaken. auto. Qed.

Lemma maintains_pure (A : Type) (r : outcome A) :
  fueled r -> maintains Inv (lift r) (fun x => r = Ok x).
Proof. intros Hr s Hs. unfold lift. cbn [fst snd]. auto. Qed.

Lemma maintains_lift (A B : Type) (r : outcome A) (f : A -> M B) (R : B -> Prop) :
  fueled r ->
  (forall x, r = Ok x -> maintains Inv (f x) R) ->
  maintains Inv (bind (lift r) f) R.
Proof.
  intros Hr Hf. eapply maintains_bind; [apply maintains_pure, Hr|]. exact Hf.
Qed.

Lemma maintains_try (A : Type) (body : M A) (handler : exn -> M A)
      (Q : A -> Prop) :
  maintains Inv body Q ->
  (forall e, maintains Inv (handler e) Q) ->
  maintains Inv (try_catch body handler) Q.
Proof.
  intros Hb Hh s Hs. destruct (Hb s Hs) as (Fb & Ib & Qb). unfold try_catch.
  destruct (body s) as [[x|e| |] s1]; cbn [fst snd] in *.
  - repeat split; auto.
  - apply (Hh e s1 Ib).
  - repeat split; auto; discriminate.
  - now destruct Fb.
Qed.

Lemma maintains_forEachM (A : Type) (f : A -> M unit) (l : list A) :
  (forall x, In x l -> maintains Inv (f x) (fun _ => True)) ->
  maintains Inv (forEachM f l) (fun _ => True).
Proof.
  induction l as [|v l IH]; intros Hf; cbn [forEachM].
  - now apply maintains_ret.
  - apply maintains_then; [apply Hf; now left|intros _].
    apply IH. intros x Hx. apply Hf. now right.
Qed.

(** Code that leaves the scene alone maintains what is a property of
    the scene. *)
Hypothesis Inv_scene : scene_only Inv.

Lemma maintains_quiet (A : Type) (m : M A) :
  (forall s, fueled (fst (m s)) /\ nodes (snd (m s)) = nodes s) ->
  maintains Inv m (fun _ => True).
Proof.
  intros Hm s Hs. destruct (Hm s) as [F N]. repeat split; auto.
  eapply Inv_scene; eassumption.
Qed.

Lemma maintains_notify (n : notice) : maintains Inv (notify n) (fun _ => True).
Proof. apply maintains_quiet. intros s. split; [discriminate|reflexivity]. Qed.

Lemma maintains_sendProgress (message : progress_text) (percent : jsnum) :
  maintains Inv (sendProgress message percent) (fun _ => True).
Proof. apply maintains_quiet. intros s. split; [discriminate|reflexivity]. Qed.

Lemma maintains_scrollAndZoomIntoView (ids : list nat) :
  maintains Inv (scrollAndZoomIntoView ids) (fun _ => True).
Proof. apply maintains_quiet. intros s. split; [discriminate|reflexivity]. Qed.

Lemma maintains_setCounters (total processed : nat) :
  maintains Inv (setCounters total processed) (fun _ => True).
Proof. apply maintains_quiet. intros s. split; [discriminate|reflexivity]. Qed.

Lemma maintains_getCounters : maintains Inv getCounters (fun _ => True).
Proof. apply maintains_quiet. intros s. split; [discriminate|reflexivity]. Qed.

Lemma maintains_getProp (id : nat) (name : string) :
  maintains Inv (getProp id name) (fun _ => True).
Proof. apply maintains_quiet. intros s. split; [discriminate|reflexivity]. Qed.

Lemma maintains_canAppend (id : nat) : maintains Inv (canAppend id) (fun _ => True).
Proof. apply maintains_quiet. intros s. split; [discriminate|reflexivity]. Qed.

Lemma maintains_loadFontAsync (fontLoads : nat -> jsval -> bool) (font : jsval) :
  maintains Inv (loadFontAsync fontLoads font) (fun _ => True).
Proof.
  apply maintains_quiet. intros s. unfold loadFontAsync.
  destruct (fontLoads (loads s) font); split; try discriminate; reflexivity.
Qed.

End Rules.

(** ** The nodes that were there before *)

Lemma nth_error_update_nth (A : Type) (f : A -> A) (l : list A) (i j : nat) :
  nth_error (update_nth i f l) j
  = if Nat.eqb i j then option_map f (nth_error l j) else nth_error l j.
Proof.
  revert i j. induction l as [|a l IH]; intros i j.
  - destruct i, j; cbn; try reflexivity. now destruct (Nat.eqb i j).
  - destruct i as [|i], j as [|j]; cbn [update_nth nth_error Nat.eqb option_map]; auto.
Qed.

Lemma length_update_nth (A : Type) (f : A -> A) (l : list A) (i : nat) :
  List.length (update_nth i f l) = List.length l.
Proof.
  revert i. induction l as [|a l IH]; intros i.
  - now destruct i.
  - destruct i; cbn [update_nth List.length]; auto.
Qed.

Lemma old_kept_refl (n0 : nat) (s : state) :
  (n0 <= List.length (nodes s))%nat -> old_kept n0 s s.
Proof. intros H. split; auto. Qed.

Lemma old_kept_scene (n0 : nat) (s0 : state) : scene_only (old_kept n0 s0).
Proof. intros s s' N [L K]. unfold old_kept. rewrite N. auto. Qed.

Lemma sized_scene (id : nat) (w h : jsval) : scene_only (sized id w h).
Proof. intros s s' N. unfold sized, prop_of. now rewrite N. Qed.

Lemma kept_createNode (n0 : nat) (s0 : state) (k : node_kind) :
  maintains (old_kept n0 s0) (createNode k) (fun id => (n0 <= id)%nat).
Proof.
  intros s [L K]. unfold createNode, with_nodes, old_kept. cbn [fst snd nodes].
  split; [discriminate|split].
  - split; [rewrite length_app; lia|].
    intros id Hid. rewrite <- (K id Hid).
    rewrite nth_error_app1 by lia. reflexivity.
  - intros x E. injection E as <-. exact L.
Qed.

Lemma kept_setProp (n0 : nat) (s0 : state) (id : nat) (name : string) (v : jsval) :
  (n0 <= id)%nat ->
  maintains (old_kept n0 s0) (setProp id name v) (fun _ => True).
Proof.
  intros Hge s [L K]. unfold setProp, with_nodes, old_kept. cbn [fst snd nodes].
  split; [discriminate|split; [|auto]].
  split; [now rewrite length_update_nth|].
  intros i Hi. rewrite nth_error_update_nth.
  destruct (Nat.eqb_spec id i) as [->|_]; [lia|auto].
Qed.

Lemma kept_resize (n0 : nat) (s0 : state) (id : nat) (w h : jsval) :
  (n0 <= id)%nat ->
  maintains (old_kept n0 s0) (resize id w h) (fun _ => True).
Proof.
  intros Hge. unfold resize.
  apply maintains_then; [|intros _]; now apply kept_setProp.
Qed.

Lemma kept_appendChild (n0 : nat) (s0 : state) (parent child : nat) :
  maintains (old_kept n0 s0) (appendChild parent child) (fun _ => True).
Proof.
  intros s [L K]. unfold appendChild, with_nodes, old_kept. cbn [fst snd nodes].
  split; [discriminate|split; [|auto]].
  split; [now rewrite length_update_nth|].
  intros i Hi. rewrite nth_error_update_nth, <- (K i Hi).
  destruct (Nat.eqb parent i); [|reflexivity].
  now destruct (nth_error (nodes s) i).
Qed.

Lemma sized_setProp (id : nat) (w h : jsval) (id' : nat) (name : string) (v : jsval) :
  String.eqb "width" name = false ->
  String.eqb "height" name = false ->
  maintains (sized id w h) (setProp id' name v) (fun _ => True).
Proof.
  intros Nw Nh s (K & W & H). unfold setProp, with_nodes, sized, prop_of in *.
  cbn [fst snd nodes]. split; [discriminate|split; [|auto]].
  rewrite nth_error_update_nth.
  destruct (Nat.eqb id' id); [|auto].
  destruct (nth_error (nodes s) id) as [n|]; [|discriminate K].
  cbn [option_map kind props table_get] in *. now rewrite Nw, Nh.
Qed.

(** ** The constructors leave the older nodes alone *)

Ltac scene := first [apply old_kept_scene | apply sized_scene | assumption].

Ltac walk :=
  lazymatch goal with
  | |- maintains _ (ret _) _ =>
      apply maintains_ret; first [exact I | assumption | lia]
  | |- maintains _ (bind (lift _) _) _ =>
      apply maintains_lift; [fuel | intros ? ?; walk]
  | |- maintains _ (bind (createNode _) _) _ =>
      eapply maintains_bind;
      [apply kept_createNode | cbv beta; intros ? ?; walk]
  | |- maintains _ (bind _ _) _ =>
      apply maintains_then; [walk | intros ?; walk]
  | |- maintains _ (if ?c then _ else _) _ => destruct c; walk
  | |- maintains _ (match ?c with _ => _ end) _ => destruct c; walk
  | |- maintains _ (setProp _ _ _) _ =>
      first [apply kept_setProp; assumption | apply sized_setProp; reflexivity]
  | |- maintains _ (resize _ _ _) _ => apply kept_resize; assumption
  | |- maintains _ (appendChild _ _) _ => apply kept_appendChild
  | |- maintains _ (notify _) _ => apply maintains_notify; scene
  | |- maintains _ (sendProgress _ _) _ => apply maintains_sendProgress; scene
  | |- maintains _ (scrollAndZoomIntoView _) _ =>
      apply maintains_scrollAndZoomIntoView; scene
  | |- maintains _ (setCounters _ _) _ => apply maintains_setCounters; scene
  | |- maintains _ getCounters _ => apply maintains_getCounters; scene
  | |- maintains _ (getProp _ _) _ => apply maintains_getProp; scene
  | |- maintains _ (canAppend _) _ => apply maintains_canAppend; scene
  | |- maintains _ (loadFontAsync _ _) _ => apply maintains_loadFontAsync; scene
  | _ => idtac
  end.

Section Older.

Variable n0 : nat.
Variable s0 : state.

Lemma kept_applyStrokes (figmaNode : nat) (node : jsval) :
  (n0 <= figmaNode)%nat ->
  maintains (old_kept n0 s0) (applyStrokes figmaNode node) (fun _ => True).
Proof. intros Hge. unfold applyStrokes. walk. Qed.

Lemma kept_applyCornerRadius (figmaNode : nat) (node : jsval) :
  (n0 <= figmaNode)%nat ->
  maintains (old_kept n0 s0) (applyCornerRadius figmaNode node) (fun _ => True).
Proof. intros Hge. unfold applyCornerRadius. walk. Qed.

Lemma kept_applyEffects (figmaNode : nat) (node : jsval) :
  (n0 <= figmaNode)%nat ->
  maintains (old_kept n0 s0) (applyEffects figmaNode node) (fun _ => True).
Proof. intros Hge. unfold applyEffects. walk. Qed.

Ltac styled :=
  lazymatch goal with
  | |- maintains _ (applyStrokes _ _) _ => apply kept_applyStrokes; assumption
  | |- maintains _ (applyCornerRadius _ _) _ =>
      apply kept_applyCornerRadius; assumption
  | |- maintains _ (applyEffects _ _) _ => apply kept_applyEffects; assumption
  | _ => idtac
  end.

Lemma kept_createFrameNode (node : jsval) :
  maintains (old_kept n0 s0) (createFrameNode node) (fun id => (n0 <= id)%nat).
Proof. unfold createFrameNode. walk; styled. Qed.

Lemma kept_tryFonts (fontLoads : nat -> jsval -> bool)
      (fontsToTry : list jsval) (textNode : nat) :
  (n0 <= textNode)%nat ->
  maintains (old_kept n0 s0) (tryFonts fontLoads fontsToTry textNode)
            (fun _ => True).
Proof.
  intros Hge. induction fontsToTry as [|font rest IH]; cbn [tryFonts].
  - walk.
  - apply maintains_try; [walk|intros _; exact IH].
Qed.

Lemma kept_createTextNode (fontLoads : nat -> jsval -> bool) (node : jsval) :
  maintains (old_kept n0 s0) (createTextNode fontLoads node)
            (fun id => (n0 <= id)%nat).
Proof.
  unfold createTextNode.
  apply maintains_lift; [fuel|intros need _].
  eapply maintains_bind
    with (Q := fun w => match w with Some w' => (n0 <= w')%nat | None => True end).
  { destruct (fst need); walk; styled. }
  intros wrapper Hw. walk.
  apply kept_tryFonts; assumption.
Qed.

Lemma kept_createSvgNode (svgParses : jsval -> bool) (node : jsval) :
  maintains (old_kept n0 s0) (createSvgNode svgParses node)
            (fun id => (n0 <= id)%nat).
Proof. unfold createSvgNode. walk. Qed.

Lemma kept_createImageNode (imageOfBase64 imageOfUrl : jsval -> option string)
      (node : jsval) :
  maintains (old_kept n0 s0) (createImageNode imageOfBase64 imageOfUrl node)
            (fun id => (n0 <= id)%nat).
Proof. unfold createImageNode. walk. Qed.

End Older.

(** ** The recursion bound: the nesting depth of the document *)

Lemma depth_item (x : jsval) (items : list jsval) :
  In x items -> (depth x < depth (VArr items))%nat.
Proof.
  cbn [depth]. induction items as [|v items IH]; intros Hin; [contradiction|].
  cbn [fold_right]. destruct Hin as [->|Hin]; [lia|].
  specialize (IH Hin). lia.
Qed.

Lemma depth_field (name : string) (fields : list (string * jsval)) (w : jsval) :
  table_get name fields = Some w -> (depth w < depth (VObj fields))%nat.
Proof.
  cbn [depth]. induction fields as [|[k v] fields IH]; intros Hw; [discriminate|].
  cbn [table_get] in Hw. cbn [fold_right snd].
  destruct (String.eqb name k).
  - injection Hw as ->. lia.
  - specialize (IH Hw). lia.
Qed.

(** What the loop over [node.children] visits is nested more deeply in
    the document than the node is. *)
Lemma depth_child (node : jsval) (name : string) (children : jsval)
      (items : list jsval) (child : jsval) :
  get node name = Ok children ->
  iterate children = Ok items ->
  In child items ->
  (depth child < depth node)%nat.
Proof.
  intros Hget Hit Hin. destruct node; cbn [get] in Hget; try discriminate.
  - injection Hget as <-. discriminate Hit.
  - injection Hget as <-. discriminate Hit.
  - injection Hget as <-. now destruct (String.eqb name "length").
  - injection Hget as <-. now destruct (String.eqb name "length").
  - injection Hget as <-.
    destruct (table_get name fields) as [w|] eqn:E; [|discriminate Hit].
    apply depth_field in E.
    destruct w; try discriminate Hit; cbn [iterate] in Hit; injection Hit as <-.
    + apply in_map_iff in Hin as (c & <- & _). cbn [depth] in *. lia.
    + apply depth_item in Hin. lia.
Qed.

Section Walks.

Variable fontLoads : nat -> jsval -> bool.
Variable svgParses : jsval -> bool.
Variable imageOfBase64 : jsval -> option string.
Variable imageOfUrl : jsval -> option string.
Variable viewportCenter : jsnum * jsnum.

(** [processNode], given more fuel than the node is deep, does not stop
    at the bound, and changes neither the kind nor the properties of a
    node that was in the scene before. *)
Lemma kept_processNode (fuel : nat) :
  forall (node : jsval) (parent n0 : nat) (s0 : state),
    (depth node < fuel)%nat ->
    maintains (old_kept n0 s0)
              (processNode fontLoads svgParses imageOfBase64 imageOfUrl
                           fuel node parent)
              (fun _ => True).
Proof.
  induction fuel as [|fuel IH]; intros node parent n0 s0 Hd; [lia|].
  cbn [processNode]. destruct (negb (truthy node)); [walk|].
  apply maintains_then; [walk|intros counters].
  apply maintains_then; [walk|intros _].
  apply maintains_then; [walk|intros _].
  apply maintains_lift; [fuel|intros ty _].
  eapply maintains_bind with (Q := fun id => (n0 <= id)%nat).
  { destruct (is_str ty "TEXT"); [apply kept_createTextNode|].
    destruct (is_str ty "SVG"); [apply kept_createSvgNode|].
    destruct (is_str ty "IMAGE");
      [apply kept_createImageNode | apply kept_createFrameNode]. }
  intros figmaNode Hid. walk.
  match goal with
  | Hc : get node "children" = Ok ?c, Hi : iterate ?c = Ok ?items |- _ =>
      apply maintains_forEachM; intros child Hin;
      apply maintains_then; [|intros _; walk];
      apply IH; pose proof (@depth_child _ _ _ _ _ Hc Hi Hin); lia
  end.
Qed.

(** [countNodes], given more fuel than the node is deep, does not stop
    at the bound, and leaves the scene alone. *)
Lemma maintains_countNodes (Inv : state -> Prop) (fuel : nat) :
  scene_only Inv ->
  forall n : jsval,
    (depth n < fuel)%nat ->
    maintains Inv (countNodes fuel n) (fun _ => True).
Proof.
  intros Hscene. induction fuel as [|fuel IH]; intros n Hd; [lia|].
  cbn [countNodes]. destruct (negb (truthy n)); [walk|].
  apply maintains_then; [walk|intros counters].
  apply maintains_then; [walk|intros _].
  apply maintains_lift; [fuel|intros children Hc].
  destruct (truthy children); [|walk].
  destruct children;
    try (eapply maintains_any, maintains_pure; fuel).
  apply maintains_forEachM. intros child Hin. apply IH.
  pose proof (@depth_child n "children" (VArr items) items child Hc eq_refl Hin).
  lia.
Qed.

End Walks.

(** ** The root frame through the import *)

Lemma same_scene (ns : list fnode) : scene_only (fun s => nodes s = ns).
Proof. intros s s' N H. now rewrite N. Qed.

Lemma scene_or (P Q : state -> Prop) :
  scene_only P -> scene_only Q -> scene_only (fun s => P s \/ Q s).
Proof. intros HP HQ s s' N [H|H]; [left|right]; eauto. Qed.

(** From [P] through [m] and then [f] to [G], when [m] maintains [P]
    and [P] is enough for [G] should [m] not return. *)
Lemma through_bind (P G : state -> Prop) (A B : Type) (m : M A) (f : A -> M B)
      (Q : A -> Prop) :
  maintains P m Q ->
  (forall s, P s -> G s) ->
  (forall x, Q x -> forall s, P s -> fueled (fst (f x s)) /\ G (snd (f x s))) ->
  forall s, P s -> fueled (fst (bind m f s)) /\ G (snd (bind m f s)).
Proof.
  intros Hm HG Hf s Hs. destruct (Hm s Hs) as (Fm & Pm & Qm). unfold bind.
  destruct (m s) as [[x|e| |] s1]; cbn [fst snd] in *.
  - apply (Hf x (Qm x eq_refl) s1 Pm).
  - split; [discriminate|auto].
  - split; [discriminate|auto].
  - now destruct Fm.
Qed.

Lemma bind_Ok (A B : Type) (m : M A) (f : A -> M B) (s s' : state) (x : A) :
  m s = (Ok x, s') -> bind m f s = f x s'.
Proof. intros E. unfold bind. now rewrite E. Qed.

Lemma through_try (P G : state -> Prop) (A : Type) (body : M A)
      (handler : exn -> M A) (Q : A -> Prop) :
  (forall s, P s -> fueled (fst (body s)) /\ G (snd (body s))) ->
  (forall e, maintains G (handler e) Q) ->
  forall s, P s ->
    fueled (fst (try_catch body handler s)) /\ G (snd (try_catch body handler s)).
Proof.
  intros Hb Hh s Hs. destruct (Hb s Hs) as (Fb & Gb). unfold try_catch.
  destruct (body s) as [[x|e| |] s1]; cbn [fst snd] in *; auto.
  destruct (Hh e s1 Gb) as (F & G' & _). auto.
Qed.

(** What keeps the older nodes keeps the size of a frame among them. *)
Lemma sized_of_kept (A : Type) (m : M A) (Q : A -> Prop) (id : nat) (w h : jsval) :
  (forall s0, maintains (old_kept (S id) s0) m Q) ->
  maintains (sized id w h) m Q.
Proof.
  intros Hm s (K & W & H).
  assert (L : (S id <= List.length (nodes s))%nat).
  { apply Nat.le_succ_l, nth_error_Some. intros E. rewrite E in K. discriminate K. }
  destruct (Hm s s (@old_kept_refl (S id) s L)) as (F & [L' K'] & Qm).
  split; [exact F|split; [|exact Qm]].
  specialize (K' id (Nat.lt_succ_diag_r id)).
  unfold sized, prop_of in *.
  destruct (nth_error (nodes (snd (m s))) id) as [n'|],
           (nth_error (nodes s) id) as [n|];
    cbn [option_map] in *; try discriminate.
  injection K' as Ek Ep. now rewrite Ek, Ep.
Qed.

Lemma createRootFrame_eq (fields : list (string * jsval)) (st : state) :
  createRootFrame (VObj fields) st
  = (Ok (List.length (nodes st)),
     mkState
       (nodes st
        ++ [mkNode FRAME
              [("height", or_else (or_else (field "fullHeight" (VObj fields))
                                           (field "viewportHeight" (VObj fields)))
                                  (vnum 900));
               ("width", or_else (field "viewportWidth" (VObj fields)) (vnum 1440));
               ("name", or_else (field "pageTitle" (VObj fields))
                                (VStr "Imported Web Page"))] []])
       (notices st) (posts st) (views st) (loads st)
       (totalNodes st) (processedNodes st)).
Proof.
  unfold createRootFrame, resize, bind, lift, createNode, setProp, ret, with_nodes.
  cbn [get field nodes notices posts views loads totalNodes processedNodes].
  f_equal. f_equal.
  rewrite !HandlerFacts.update_nth_last. reflexivity.
Qed.

Section RootFrame.

Variable fontLoads : nat -> jsval -> bool.
Variable svgParses : jsval -> bool.
Variable imageOfBase64 : jsval -> option string.
Variable imageOfUrl : jsval -> option string.
Variable viewportCenter : jsnum * jsnum.

Variable fields : list (string * jsval).
Variable st : state.

Let data := VObj fields.
Let width := or_else (field "viewportWidth" data) (vnum 1440).
Let height := or_else (or_else (field "fullHeight" data)
                               (field "viewportHeight" data)) (vnum 900).
Let untouched := fun s : state => nodes s = nodes st.
Let rooted := fun s : state =>
  nodes s = nodes st \/ sized (List.length (nodes st)) width height s.

Lemma rooted_scene : scene_only rooted.
Proof. apply scene_or; [apply same_scene|apply sized_scene]. Qed.

(** The body of the [try] block, run in the scene of [st], does not stop
    at the recursion bound; it ends with the scene as it was (when
    counting the nodes fails) or with the root frame in it, sized as
    [resize] was called. *)
Lemma importDesign_rooted :
  forall s, untouched s ->
    let r := importDesign fontLoads svgParses imageOfBase64 imageOfUrl
                          viewportCenter data s in
    fueled (fst r) /\ rooted (snd r).
Proof.
  assert (Stay : forall s, untouched s -> rooted s) by (intros s H; now left).
  unfold importDesign. cbv zeta.
  eapply through_bind; [apply maintains_setCounters, same_scene|exact Stay|].
  intros _ _.
  eapply through_bind; [apply maintains_pure; fuel|exact Stay|].
  cbv beta. intros rootNode _.
  eapply through_bind;
    [apply maintains_countNodes; [apply same_scene|lia]|exact Stay|].
  intros _ _ s Hs. unfold untouched in Hs.
  unfold data at 1 2.
  rewrite !(@bind_Ok _ _ _ _ _ _ _ (createRootFrame_eq fields s)). rewrite Hs.
  match goal with
  | |- fueled (fst (?m ?s1)) /\ _ =>
      assert (Hm : maintains (sized (List.length (nodes st)) width height) m
                             (fun _ => True));
      [|destruct (Hm s1) as (F & S' & _); [|split; [exact F|right; exact S']]]
  end.
  - apply maintains_then; [|intros _; walk].
    apply sized_of_kept. intros s0. apply kept_processNode. lia.
  - unfold sized, prop_of. cbn [nodes].
    rewrite nth_error_app2 by lia. rewrite Nat.sub_diag.
    repeat split.
Qed.

(** The handler, for a message whose document is the object [data]. *)
Lemma onmessage_rooted (msg : jsval) :
  get msg "data" = Ok data ->
  let r := onmessage fontLoads svgParses imageOfBase64 imageOfUrl
                     viewportCenter msg st in
  fueled (fst r) /\ rooted (snd r).
Proof.
  intros Hdata.
  assert (Stay : forall s, untouched s -> rooted s) by (intros s H; now left).
  cbv zeta.
  assert (Go : forall s, untouched s ->
                 fueled (fst (onmessage fontLoads svgParses imageOfBase64
                                        imageOfUrl viewportCenter msg s))
                 /\ rooted (snd (onmessage fontLoads svgParses imageOfBase64
                                          imageOfUrl viewportCenter msg s)));
    [|apply Go; reflexivity].
  unfold onmessage.
  eapply through_bind; [apply maintains_pure; fuel|exact Stay|].
  cbv beta. intros ty _.
  destruct (is_str ty "import-design");
    [|intros s Hs; split; [discriminate|now apply Stay]].
  rewrite Hdata.
  eapply through_bind; [apply maintains_pure; fuel|exact Stay|].
  cbv beta. intros d Hd. injection Hd as <-.
  eapply through_bind; [apply maintains_pure; fuel|exact Stay|].
  cbv beta. intros invalid _.
  destruct invalid.
  { intros s Hs. split; [discriminate|]. apply Stay. exact Hs. }
  eapply through_bind; [apply maintains_notify, same_scene|exact Stay|].
  intros _ _.
  eapply through_bind; [apply maintains_sendProgress, same_scene|exact Stay|].
  intros _ _.
  eapply through_try with (Q := fun _ => True).
  - apply importDesign_rooted.
  - intros e. pose proof rooted_scene as HG.
    apply maintains_then; [walk|intros _; walk].
Qed.

End RootFrame.

End FrameFacts.

(** A page shorter than the viewport: full height 500 in a viewport of
    1440 by 900. *)
Definition short_page : jsval :=
  VObj [ ("pageTitle", VStr "Short");
         ("viewportWidth", vnum 1440); ("viewportHeight", vnum 900);
         ("fullHeight", vnum 500);
         ("rootNode", VObj [("type", VStr "FRAME"); ("width", vnum 1440);
                            ("height", vnum 500)]) ].

(** C7, counterexample.  The claim: the root frame is as high as the
    larger of [fullHeight] and [viewportHeight].  The height handed to
    [resize] is [fullHeight || viewportHeight || 900], the first of the
    three that is not zero or missing: 500 here, where the larger of the
    two is 900; and that is the height of the root frame when the import
    is over. *)
Lemma root_height_not_the_larger :
  (let st := snd (createRootFrame short_page empty_scene) in
   prop_of st 0 "height" = vnum 500)
  /\ (let st := snd (onmessage (fun _ _ => true) (fun _ => true)
                               (fun _ => None) (fun _ => None) (Num 0, Num 0)
                               (VObj [("type", VStr "import-design");
                                      ("data", short_page)])
                               empty_scene) in
      prop_of st 0 "height" = vnum 500
      /\ notices st = [StartingImport; ImportComplete 1])
  /\ Math_max (num_of_Z 500) (num_of_Z 900) = num_of_Z 900.
Proof. repeat split. Qed.

(** C7, as amended.  The root frame is the next node of the scene, a
    frame, sized by one call of [resize]: its width is [viewportWidth], or
    1440 when that is missing or zero; its height is [fullHeight], or
    [viewportHeight] when that is missing or zero, or 900 when both are.
    The handler, for a message with this document, does not stop at the
    recursion bound of the model, and ends with the scene as it was (no
    root node in the document, or counting the nodes failed) or with the
    root frame in it, of that width and height: nothing the import does
    afterwards resizes it.  So the height is the larger of [fullHeight]
    and [viewportHeight] whenever [fullHeight] is the larger (and not
    zero), as it is in the documents the scraper writes. *)
Theorem root_frame_size
        (fontLoads : nat -> jsval -> bool) (svgParses : jsval -> bool)
        (imageOfBase64 imageOfUrl : jsval -> option string)
        (viewportCenter : jsnum * jsnum)
        (fields : list (string * jsval)) (st : state) (msg : jsval) :
  let data := VObj fields in
  let width := or_else (field "viewportWidth" data) (vnum 1440) in
  let height := or_else (or_else (field "fullHeight" data)
                                 (field "viewportHeight" data)) (vnum 900) in
  let root := List.length (nodes st) in
  (exists name,
      createRootFrame data st
      = (Ok root,
         mkState (nodes st ++ [mkNode FRAME [("height", height); ("width", width);
                                             ("name", name)] []])
                 (notices st) (posts st) (views st) (loads st)
                 (totalNodes st) (processedNodes st)))
  /\ (get msg "data" = Ok data ->
      let r := onmessage fontLoads svgParses imageOfBase64 imageOfUrl
                         viewportCenter msg st in
      fueled (fst r)
      /\ (nodes (snd r) = nodes st \/ sized root width height (snd r)))
  /\ forall w fh vh,
       field "viewportWidth" data = VNum (Num w) -> ~ w == 0 ->
       field "fullHeight" data = VNum (Num fh) -> ~ fh == 0 ->
       field "viewportHeight" data = VNum (Num vh) -> vh <= fh ->
       width = VNum (Num w) /\ height = VNum (Num fh) /\ fh == Qmax fh vh.
Proof.
  intros data width height root. split; [|split].
  - exists (or_else (field "pageTitle" data) (VStr "Imported Web Page")).
    apply FrameFacts.createRootFrame_eq.
  - intros Hdata.
    apply (@FrameFacts.onmessage_rooted fontLoads svgParses imageOfBase64
             imageOfUrl viewportCenter fields st msg Hdata).
  - intros w fh vh Hw Hw0 Hfh Hfh0 Hvh Hle. subst width height.
    rewrite Hw, Hfh, Hvh. unfold or_else. cbn [truthy num_truthy].
    assert (Nz : forall q, ~ q == 0 -> Qeq_bool q 0 = false).
    { intros q Hq. destruct (Qeq_bool q 0) eqn:E; auto.
      apply Qeq_bool_iff in E. contradiction. }
    rewrite (Nz _ Hw0), (Nz _ Hfh0). cbn [negb truthy num_truthy].
    rewrite (Nz _ Hfh0). cbn [negb]. repeat split.
    symmetry. apply Q.max_l. exact Hle.
Qed.

(** A page of the scraper's own documents: full height at least the
    viewport's. *)
Definition tall_page : list (string * jsval) :=
  [ ("pageTitle", VStr "Tall");
    ("viewportWidth", vnum 1440); ("viewportHeight", vnum 900);
    ("fullHeight", vnum 2400);
    ("rootNode", VObj [("type", VStr "FRAME"); ("width", vnum 1440);
                       ("height", vnum 2400);
                       ("children", VArr [VObj [("type", VStr "TEXT");
                                                ("characters", VStr "Hello")]])]) ].

Lemma root_frame_size_witness :
  (let r := onmessage (fun _ _ => true) (fun _ => true)
                      (fun _ => None) (fun _ => None) (Num 0, Num 0)
                      (VObj [("type", VStr "import-design");
                             ("data", VObj tall_page)])
                      empty_scene in
   fueled (fst r)
   /\ (nodes (snd r) = nodes empty_scene
       \/ sized 0 (vnum 1440) (vnum 2400) (snd r)))
  /\ or_else (field "viewportWidth" (VObj tall_page)) (vnum 1440) = vnum 1440
  /\ or_else (or_else (field "fullHeight" (VObj tall_page))
                      (field "viewportHeight" (VObj tall_page))) (vnum 900)
     = vnum 2400
  /\ inject_Z 2400 == Qmax (inject_Z 2400) (inject_Z 900).
Proof.
  destruct (root_frame_size (fun _ _ => true) (fun _ => true)
              (fun _ => None) (fun _ => None) (Num 0, Num 0)
              tall_page empty_scene
              (VObj [("type", VStr "import-design"); ("data", VObj tall_page)]))
    as (_ & Hrun & H).
  split; [exact (Hrun eq_refl)|].
  apply (H (inject_Z 1440) (inject_Z 2400) (inject_Z 900)); try reflexivity.
  - intros E. vm_compute in E. discriminate E.
  - intros E. vm_compute in E. discriminate E.
  - intros E. vm_compute in E. discriminate E.
Defined.

(* ====================================================================== *)
(** * The scraper: further properties of the parsers and extractors *)
(* ====================================================================== *)

Module ExtractFacts.
Import StringFacts RegexFacts.

(** ** Joining what the splitter gives *)

Lemma concat_snoc (sep x : string) (l : list string) :
  String.concat sep (l ++ [x])
  = match l with
    | [] => x
    | _ :: _ => String.concat sep l ++ sep ++ x
    end.
Proof.
  induction l as [|y l IH]; [reflexivity|].
  rewrite <- app_comm_cons. destruct l as [|z l].
  - reflexivity.
  - change (String.concat sep (y :: (z :: l) ++ [x]))
      with (y ++ sep ++ String.concat sep ((z :: l) ++ [x])).
    rewrite IH.
    change (String.concat sep (y :: z :: l))
      with (y ++ sep ++ String.concat sep (z :: l)).
    now rewrite !append_assoc.
Qed.

(** The text read so far: the pieces pushed and the piece being read,
    with the commas between them. *)
Lemma joined_char (parts : list string) (current : string) (ch : ascii) :
  String.concat "," (parts ++ [current ++ String ch ""])
  = String.concat "," (parts ++ [current]) ++ String ch "".
Proof.
  rewrite !concat_snoc. destruct parts; [reflexivity|].
  now rewrite !append_assoc.
Qed.

Lemma joined_comma (parts : list string) (current : string) :
  String.concat "," ((parts ++ [current]) ++ [""])
  = String.concat "," (parts ++ [current]) ++ ",".
Proof.
  rewrite (concat_snoc "," "" (parts ++ [current])).
  destruct (parts ++ [current])%list eqn:E.
  - destruct parts; discriminate.
  - reflexivity.
Qed.

Lemma splitLoop_joined (str : string) :
  forall depth current parts,
    let result := splitLoop str depth current parts in
    let read := String.concat "," (parts ++ [current]) in
    String.concat "," result = read ++ str
    \/ String.concat "," result ++ "," = read ++ str.
Proof.
  induction str as [|ch str IH]; intros depth current parts; cbv zeta.
  - cbn [splitLoop]. rewrite append_nil_r. destruct current as [|c current].
    + cbn [str_truthy]. rewrite concat_snoc. destruct parts; auto.
    + cbn [str_truthy]. auto.
  - cbn [splitLoop].
    set (depth' := if Ascii.eqb ch "(" then (depth + 1)%Z
                   else if Ascii.eqb ch ")" then (depth - 1)%Z else depth).
    destruct (Ascii.eqb_spec ch ",") as [->|Hch]; cbn [andb].
    + destruct (depth' =? 0)%Z.
      * specialize (IH depth' "" (parts ++ [current])%list). cbv zeta in IH.
        rewrite joined_comma in IH. rewrite append_assoc in IH. exact IH.
      * specialize (IH depth' (current ++ ",") parts). cbv zeta in IH.
        rewrite joined_char in IH. rewrite append_assoc in IH. exact IH.
    + specialize (IH depth' (current ++ String ch "") parts). cbv zeta in IH.
      rewrite joined_char in IH. rewrite append_assoc in IH. exact IH.
Qed.

(** ** Colours: what the pattern captures *)

(** Whatever the pattern matches is a well-formed notation, and the
    captures are its numbers. *)
Lemma rgba_re_captures (pos : nat) (w rest : string) (cs : captures) :
  Matches rgba_re pos w rest [] cs ->
  exists t, rgb_wf t = true /\ w = rgb_text t /\ cs = ColorFacts.rgb_caps t.
Proof.
  unfold rgba_re. simpl.
  intros (? & ? & ? & -> & [-> ->] & H).
  destruct H as (wa & ? & csw & -> & Ha & H).
  destruct H as (? & ? & ? & -> & [-> ->] & H).
  destruct H as (sp0 & ? & ? & -> & [Hs0 ->] & H).
  destruct H as (r & ? & ? & -> & (? & (Hr & Hr' & ->) & ->) & H).
  destruct H as (? & ? & ? & -> & [-> ->] & H).
  destruct H as (sp1 & ? & ? & -> & [Hs1 ->] & H).
  destruct H as (g & ? & ? & -> & (? & (Hg & Hg' & ->) & ->) & H).
  destruct H as (? & ? & ? & -> & [-> ->] & H).
  destruct H as (sp2 & ? & ? & -> & [Hs2 ->] & H).
  destruct H as (b & ? & ? & -> & (? & (Hb & Hb' & ->) & ->) & H).
  destruct H as (wal & ? & csa & -> & Hal & H).
  destruct H as (sp4 & ? & ? & -> & [Hs4 ->] & -> & ->).
  apply ColorFacts.is_number_intro in Hr', Hg', Hb'; auto.
  assert (Hwa : exists a : bool, wa = (if a then "a" else "") /\ csw = []).
  { destruct Ha as [[-> ->]|[-> ->]]; [now exists false | now exists true]. }
  destruct Hwa as [a [-> ->]].
  destruct Hal as [[-> ->]|Hal].
  - exists (mkNotation a sp0 r sp1 g sp2 b None sp4). split; [|split].
    + unfold rgb_wf. simpl. now rewrite Hs0, Hs1, Hs2, Hs4, Hr', Hg', Hb'.
    + reflexivity.
    + reflexivity.
  - destruct Hal as (? & ? & ? & -> & [-> ->] & H).
    destruct H as (sp3 & n4 & ? & -> & [Hs3 ->] & (? & (Ha4 & Ha4' & ->) & ->)).
    apply ColorFacts.is_number_intro in Ha4'; auto.
    exists (mkNotation a sp0 r sp1 g sp2 b (Some (sp3, n4)) sp4). split; [|split].
    + unfold rgb_wf. simpl. now rewrite Hs0, Hs1, Hs2, Hs3, Hs4, Hr', Hg', Hb', Ha4'.
    + unfold rgb_text. simpl. now rewrite !append_assoc.
    + reflexivity.
Qed.

(** The colour [parseColor] returns is the colour of a well-formed
    notation that occurs in the input. *)
Lemma parseColor_some_notation (s : string) (c : RGBA) :
  parseColor s = Some c ->
  exists pre t post,
    rgb_wf t = true /\ s = pre ++ rgb_text t ++ post
    /\ c = {| r := ndiv (parseFloat (n1 t)) (num_of_Z 255);
              g := ndiv (parseFloat (n2 t)) (num_of_Z 255);
              b := ndiv (parseFloat (n3 t)) (num_of_Z 255);
              a := match alpha t with
                   | Some (_, n4) => parseFloat n4
                   | None => num_of_Z 1
                   end |}.
Proof.
  unfold parseColor.
  destruct (negb (str_truthy s) || String.eqb s "transparent"
            || String.eqb s "rgba(0, 0, 0, 0)"); try discriminate.
  destruct (str_match rgba_re s) as [m|] eqn:E; try discriminate. intros Hc.
  apply str_match_sound in E as (pre & Hs & _ & Hm).
  apply rgba_re_captures in Hm as (t & Hwf & Ht & Hcaps).
  exists pre, t, (m_rest m). rewrite <- Ht. split; [exact Hwf|split; [exact Hs|]].
  apply SanitizeFacts.Some_inj in Hc. subst c. unfold capd. rewrite Hcaps.
  unfold ColorFacts.rgb_caps. destruct (alpha t) as [[ws3 n4]|]; reflexivity.
Qed.

Lemma number_unsigned (n : string) (q : Q) :
  is_number n = true -> parseFloat n = Num q -> 0 <= q.
Proof.
  unfold is_number. intros H. apply andb_true_iff in H as [_ H].
  apply ShadowFacts.parseFloat_unsigned.
  now apply (all_chars_has_char digdot "-" n H).
Qed.

Lemma ndiv_not_negative (n : jsnum) (z : Z) :
  (0 < z)%Z -> not_negative n -> not_negative (ndiv n (num_of_Z z)).
Proof.
  intros Hz. destruct n as [q|]; [|auto]. unfold ndiv, num_of_Z. cbn [not_negative].
  intros Hq. destruct (Qeq_bool (inject_Z z) 0); [exact I|]. cbn [not_negative].
  apply ShadowFacts.Qred_nonneg. apply Qle_shift_div_l.
  - change 0 with (inject_Z 0). rewrite <- Zlt_Qlt. exact Hz.
  - now rewrite Qmult_0_l.
Qed.

Lemma number_not_negative (n : string) :
  is_number n = true -> not_negative (parseFloat n).
Proof.
  intros H. destruct (parseFloat n) as [q|] eqn:E; [|exact I].
  exact (number_unsigned n H E).
Qed.

(** ** The pattern of a background image address *)

Lemma step_class (A : Type) (p : ascii -> bool) (c : ascii) pos s cs
      (k : nat -> string -> captures -> option A) :
  p c = true -> rmatch (Class p) pos (String c s) cs k = k (S pos) s cs.
Proof. intros H. simpl. now rewrite H. Qed.

Lemma class_head_fail (A : Type) (p : ascii -> bool) pos s cs
      (k : nat -> string -> captures -> option A) :
  head_is p s = false -> rmatch (Class p) pos s cs k = None.
Proof. destruct s as [|c s]; simpl; auto. now intros ->. Qed.

Lemma url_char_not_quote (c : ascii) : url_char c = true -> is_quote c = false.
Proof.
  unfold url_char. intros H. apply negb_true_iff, orb_false_iff in H. tauto.
Qed.

(** The pattern matches an address written between [url(] and [)],
    bare or between quotes, at the first character, and captures it. *)
Lemma exec_url (quote u rest : string) :
  quote = "" \/ (exists c, quote = String c "" /\ is_quote c = true) ->
  str_truthy u = true ->
  all_chars url_char u = true ->
  exists m,
    exec_at url_re 0 ("url(" ++ quote ++ u ++ quote ++ ")" ++ rest) = Some m
    /\ m_caps m = [(1%nat, u)].
Proof.
  intros Hq Hne Hu.
  assert (Hhead : head_is is_quote (u ++ quote ++ ")" ++ rest) = false).
  { destruct u as [|c u]; [discriminate Hne|]. cbn [append head_is].
    cbn [all_chars] in Hu. apply andb_true_iff in Hu as [Hc _].
    now apply url_char_not_quote. }
  assert (Hend : head_is url_char (quote ++ ")" ++ rest) = false).
  { destruct Hq as [->|(c & -> & Hc)]; cbn [append head_is].
    - reflexivity.
    - unfold url_char. now rewrite Hc. }
  assert (Hn : str_truthy u && all_chars url_char u = true) by now rewrite Hne, Hu.
  destruct Hq as [->|(c & -> & Hc)].
  - cbn [append] in Hhead, Hend.
    change ("url(" ++ "" ++ u ++ "" ++ ")" ++ rest)
      with ("url(" ++ u ++ ")" ++ rest).
    eexists. split.
    + unfold exec_at, url_re.
      rewrite ColorFacts.step_seq, (ColorFacts.step_lit "url("), ColorFacts.step_seq.
      rewrite ColorFacts.step_opt_none by (apply class_head_fail; exact Hhead).
      rewrite ColorFacts.step_seq.
      eapply ColorFacts.step_group_plus; [exact Hn|exact Hend|].
      cbv beta. rewrite ColorFacts.step_seq.
      rewrite ColorFacts.step_opt_none by (apply class_head_fail; reflexivity).
      rewrite (ColorFacts.step_lit ")" _ rest). reflexivity.
    + reflexivity.
  - cbn [append] in Hend.
    change ("url(" ++ String c "" ++ u ++ String c "" ++ ")" ++ rest)
      with ("url(" ++ String c (u ++ String c (")" ++ rest))).
    eexists. split.
    + unfold exec_at, url_re.
      rewrite ColorFacts.step_seq, (ColorFacts.step_lit "url("), ColorFacts.step_seq.
      apply ColorFacts.step_opt_some. rewrite step_class by exact Hc.
      rewrite ColorFacts.step_seq.
      eapply ColorFacts.step_group_plus; [exact Hn|exact Hend|].
      cbv beta. rewrite ColorFacts.step_seq.
      apply ColorFacts.step_opt_some. rewrite step_class by exact Hc.
      rewrite (ColorFacts.step_lit ")" _ rest). reflexivity.
    + reflexivity.
Qed.

(** ** Borders *)

Lemma ngt_zero (n : jsnum) :
  ngt n (num_of_Z 0) = true -> exists x, n = Num x /\ 0 < x.
Proof.
  destruct n as [x|]; [|discriminate]. unfold ngt, nlt, num_of_Z.
  intros H. apply negb_true_iff in H. exists x. split; [reflexivity|].
  destruct (Qlt_le_dec 0 x) as [Hx|Hx]; [exact Hx|].
  apply Qle_bool_iff in Hx. change (inject_Z 0) with 0 in H. congruence.
Qed.

Lemma Math_max_cases (x y : Q) :
  exists z, Math_max (Num x) (Num y) = Num z /\ x <= z /\ y <= z
            /\ (z = x \/ z = y).
Proof.
  unfold Math_max. destruct (Qle_bool x y) eqn:E.
  - exists y. repeat split; auto; [now apply Qle_bool_iff|apply Qle_refl].
  - exists x. repeat split; auto; [apply Qle_refl|].
    destruct (Qlt_le_dec y x) as [H|H]; [now apply Qlt_le_weak|].
    apply Qle_bool_iff in H. congruence.
Qed.

Section Borders.

Variable cs : style.

(** The loop, in one step: whether a side counts, the paint of the first
    side that counts, the largest width among the sides that count. *)
Lemma bordersLoop_spec (sides : list string) :
  forall hasAnyBorder strokes strokeWeight,
    bordersLoop cs sides hasAnyBorder strokes strokeWeight
    = (hasAnyBorder || existsb (side_visible cs) sides,
       if (List.length strokes =? 0)%nat then
         match find (side_visible cs) sides with
         | Some first =>
             (strokes
              ++ [colorToFigmaFill
                    (parseColor (cs ("border" ++ first ++ "Color")%string))])%list
         | None => strokes
         end
       else strokes,
       fold_left (fun acc side =>
                    if side_visible cs side
                    then Math_max acc (side_width cs side) else acc)
                 sides strokeWeight).
Proof.
  unfold side_visible, side_width.
  induction sides as [|side rest IH]; intros has strokes w;
    cbn [bordersLoop existsb find fold_left].
  - rewrite orb_false_r. now destruct (List.length strokes =? 0)%nat.
  - destruct (ngt (parseFloat (cs ("border" ++ side ++ "Width"))) (num_of_Z 0)
              && negb (String.eqb (cs ("border" ++ side ++ "Style")) "none")
              && match parseColor (cs ("border" ++ side ++ "Color")) with
                 | Some _ => true
                 | None => false
                 end).
    + rewrite IH. cbn [orb]. rewrite orb_true_r.
      destruct (List.length strokes =? 0)%nat eqn:L.
      * rewrite length_app. cbn [List.length].
        replace (List.length strokes + 1 =? 0)%nat with false; [reflexivity|].
        symmetry. apply Nat.eqb_neq. lia.
      * rewrite L. reflexivity.
    + rewrite IH. reflexivity.
Qed.

Lemma weight_fold (sides : list string) :
  forall q0,
    exists q,
      fold_left (fun acc side =>
                   if side_visible cs side
                   then Math_max acc (side_width cs side) else acc)
                sides (Num q0) = Num q
      /\ q0 <= q
      /\ (forall side x, In side sides -> side_visible cs side = true ->
                         side_width cs side = Num x -> x <= q)
      /\ (q = q0
          \/ exists side, In side sides /\ side_visible cs side = true
                          /\ side_width cs side = Num q).
Proof.
  induction sides as [|side rest IH]; intros q0; cbn [fold_left].
  - exists q0. repeat split; auto; [apply Qle_refl|]. intros side x [].
  - destruct (side_visible cs side) eqn:V.
    + assert (Hw : exists x, side_width cs side = Num x).
      { unfold side_visible in V. apply andb_true_iff in V as [V _].
        apply andb_true_iff in V as [V _].
        apply ngt_zero in V as (x & Hx & _). eauto. }
      destruct Hw as (x & Hx). rewrite Hx.
      destruct (Math_max_cases q0 x) as (z & -> & Hq0 & Hxz & Hz).
      destruct (IH z) as (q & Hf & Hzq & Hall & Hsome).
      exists q. split; [exact Hf|]. split; [now apply Qle_trans with z|]. split.
      * intros s' x' [<-|Hin] Hv Hw'.
        -- rewrite Hx in Hw'. apply ShadowFacts.Num_inj in Hw'. subst x'.
           now apply Qle_trans with z.
        -- eauto.
      * destruct Hsome as [->|(s' & Hin & Hv & Hw')].
        -- destruct Hz as [-> | ->]; [now left|].
           right. exists side. split; [now left|]. auto.
        -- right. exists s'. split; [now right|]. auto.
    + destruct (IH q0) as (q & Hf & Hq & Hall & Hsome).
      exists q. split; [exact Hf|]. split; [exact Hq|]. split.
      * intros s' x' [<-|Hin] Hv Hw'; [congruence|eauto].
      * destruct Hsome as [->|(s' & Hin & Hv & Hw')]; [now left|].
        right. exists s'. split; [now right|]. auto.
Qed.

End Borders.

End ExtractFacts.

Import JS Scrape.

(** X1.  [parseGradient] returns null on every input.  The pattern that
    takes the argument list stops at the first closing parenthesis, so no
    colour stop handed to [parseColor] carries one, and [parseColor] reads
    nothing without it: fewer than two stops are collected, whatever the
    string. *)
Theorem parseGradient_never_a_paint
        (Math_PI : jsnum) (Math_cos Math_sin : jsnum -> jsnum) (bgImage : string) :
  parseGradient Math_PI Math_cos Math_sin bgImage = None.
Proof. apply GradientFacts.parseGradient_always_null. Qed.

(** X2.  [splitGradientParts] loses nothing but a comma at the very end:
    the pieces joined by commas are the string given, or the string given
    without its last character, a comma. *)
Theorem splitGradientParts_join (str : string) :
  String.concat "," (splitGradientParts str) = str
  \/ String.concat "," (splitGradientParts str) ++ "," = str.
Proof. exact (ExtractFacts.splitLoop_joined str 0 "" []). Qed.

(** X3.  Pieces in which the parentheses are balanced and no comma
    stands outside them, joined by commas, are split into the same
    pieces again (the last piece not being empty: an empty last piece is
    not pushed). *)
Theorem splitGradientParts_of_joined (pieces : list string) (last : string) :
  forallb top_level_piece pieces = true ->
  top_level_piece last = true ->
  str_truthy last = true ->
  splitGradientParts (String.concat "," (pieces ++ [last])) = (pieces ++ [last])%list.
Proof. apply GradientFacts.splitGradientParts_pieces. Qed.

Lemma splitGradientParts_of_joined_witness :
  splitGradientParts "rgb(255, 0, 0) 0%, ,rgba(0, 0, 255, 0.5) 100%"
  = ["rgb(255, 0, 0) 0%"; " "; "rgba(0, 0, 255, 0.5) 100%"].
Proof.
  apply (splitGradientParts_of_joined
           ["rgb(255, 0, 0) 0%"; " "] "rgba(0, 0, 255, 0.5) 100%");
    reflexivity.
Defined.

(** X4.  [extractBackground] never returns a gradient: its result is
    null when [parseColor] reads no background colour, and otherwise the
    list of one solid paint of that colour, whatever the background image
    is (the gradient parser it calls returns null on every input). *)
Theorem extractBackground_solid_only
        (Math_PI : jsnum) (Math_cos Math_sin : jsnum -> jsnum) (cs : style) :
  extractBackground Math_PI Math_cos Math_sin cs
  = match parseColor (cs "backgroundColor") with
    | Some c => Some [SolidFill (mkSolid (r c) (g c) (b c) (a c))]
    | None => None
    end.
Proof.
  unfold extractBackground.
  rewrite GradientFacts.parseGradient_always_null.
  destruct (parseColor (cs "backgroundColor")); reflexivity.
Qed.

(** X5.  No channel of a colour [parseColor] returns is negative: each of
    red, green, blue and alpha is a number that is at least 0, or NaN
    (for a component written with dots only). *)
Theorem parseColor_never_negative (s : string) (c : RGBA) :
  parseColor s = Some c ->
  not_negative (r c) /\ not_negative (g c)
  /\ not_negative (b c) /\ not_negative (a c).
Proof.
  intros H.
  apply ExtractFacts.parseColor_some_notation in H
    as (pre & t & post & Hwf & _ & ->).
  unfold rgb_wf in Hwf. repeat (apply andb_true_iff in Hwf as [Hwf ?]).
  cbn [r g b a]. repeat split.
  - apply ExtractFacts.ndiv_not_negative; [lia|].
    now apply ExtractFacts.number_not_negative.
  - apply ExtractFacts.ndiv_not_negative; [lia|].
    now apply ExtractFacts.number_not_negative.
  - apply ExtractFacts.ndiv_not_negative; [lia|].
    now apply ExtractFacts.number_not_negative.
  - destruct (alpha t) as [[ws3 n4]|].
    + match goal with Ha : _ && is_number n4 = true |- _ =>
        apply andb_true_iff in Ha as [_ Ha] end.
      now apply ExtractFacts.number_not_negative.
    + cbn. discriminate.
Qed.

Lemma parseColor_never_negative_witness :
  not_negative (r (mkRGBA (Num 1) (Num (128 # 255)) (Num 0) (Num 1)))
  /\ not_negative (g (mkRGBA (Num 1) (Num (128 # 255)) (Num 0) (Num 1)))
  /\ not_negative (b (mkRGBA (Num 1) (Num (128 # 255)) (Num 0) (Num 1)))
  /\ not_negative (a (mkRGBA (Num 1) (Num (128 # 255)) (Num 0) (Num 1))).
Proof.
  apply (parseColor_never_negative "rgb(255, 128, 0)"). reflexivity.
Defined.

(** X6.  An address written as [url(...)], bare or between two quotes
    of the same kind, is what [extractBackgroundImageUrl] returns,
    whatever follows the closing parenthesis; the address is any
    non-empty text without a quote or a closing parenthesis. *)
Theorem extractBackgroundImageUrl_address (quote u rest : string) :
  quote = "" \/ (exists c, quote = String c "" /\ is_quote c = true) ->
  str_truthy u = true ->
  all_chars url_char u = true ->
  extractBackgroundImageUrl ("url(" ++ quote ++ u ++ quote ++ ")" ++ rest)
  = Some u.
Proof.
  intros Hq Hne Hu.
  destruct (@ExtractFacts.exec_url quote u rest Hq Hne Hu) as (m & Hm & Hc).
  unfold extractBackgroundImageUrl, str_match.
  cbn [append str_truthy negb String.eqb Ascii.eqb Bool.eqb orb].
  cbn [append] in Hm. cbn [search]. rewrite Hm.
  unfold capd. now rewrite Hc.
Qed.

Lemma extractBackgroundImageUrl_address_witness :
  extractBackgroundImageUrl "url('img/hero.png'), none" = Some "img/hero.png".
Proof.
  apply (@extractBackgroundImageUrl_address "'" "img/hero.png" ", none");
    [right; exists "'"%char; split; reflexivity | reflexivity | reflexivity].
Defined.

(** X7.  [extractBorders] returns null exactly when no side of the box
    counts (a side counts when its width is positive, its style is not
    [none] and [parseColor] reads its colour).  Otherwise the result has
    one stroke paint, the colour of the first side that counts in the
    order top, right, bottom, left; its stroke weight is the largest
    width among the sides that count, a positive number; and its
    alignment is INSIDE. *)
Theorem extractBorders_one_stroke (cs : style) :
  match extractBorders cs with
  | None => forall side, In side border_sides -> side_visible cs side = false
  | Some bd =>
      exists first c w,
        find (side_visible cs) border_sides = Some first
        /\ parseColor (cs ("border" ++ first ++ "Color")) = Some c
        /\ bd_strokes bd = [mkSolid (r c) (g c) (b c) (a c)]
        /\ bd_strokeAlign bd = "INSIDE"
        /\ bd_strokeWeight bd = Num w /\ 0 < w
        /\ (exists side, In side border_sides /\ side_visible cs side = true
                         /\ side_width cs side = Num w)
        /\ (forall side x, In side border_sides -> side_visible cs side = true ->
                           side_width cs side = Num x -> x <= w)
  end.
Proof.
  unfold extractBorders. rewrite ExtractFacts.bordersLoop_spec.
  cbn [orb List.length Nat.eqb app negb].
  destruct (existsb (side_visible cs) border_sides) eqn:E; cbn [negb].
  - destruct (find (side_visible cs) border_sides) as [first|] eqn:F.
    + pose proof (find_some _ _ F) as [Hin Hv].
      destruct (parseColor (cs ("border" ++ first ++ "Color"))) as [c|] eqn:C.
      * destruct (ExtractFacts.weight_fold cs border_sides 0)
          as (w & Hf & H0 & Hall & Hsome).
        change (num_of_Z 0) with (Num 0). rewrite Hf.
        assert (Hpos : exists x, side_width cs first = Num x /\ 0 < x).
        { unfold side_visible in Hv. apply andb_true_iff in Hv as [Hv _].
          apply andb_true_iff in Hv as [Hv _].
          now apply ExtractFacts.ngt_zero in Hv. }
        destruct Hpos as (x & Hx & Hx0).
        assert (Hw : 0 < w).
        { apply Qlt_le_trans with x; [exact Hx0|]. now apply (Hall first). }
        exists first, c, w. cbn [bd_strokes bd_strokeAlign bd_strokeWeight
                                 filterBoolean colorToFigmaFill].
        repeat split; auto.
        destruct Hsome as [->|Hs]; [|exact Hs].
        exfalso. now apply (Qlt_irrefl 0).
      * unfold side_visible in Hv. rewrite C in Hv.
        rewrite andb_false_r in Hv. discriminate Hv.
    + apply existsb_exists in E as (side & Hin & Hv).
      now rewrite (find_none _ _ F side Hin) in Hv.
  - intros side Hin. destruct (side_visible cs side) eqn:V; [|reflexivity].
    rewrite <- E. symmetry. apply existsb_exists. eauto.
Qed.

(** X8.  [extractCornerRadius] sets the four radius fields together or
    none of them: none when no radius of the style is positive, and
    otherwise four numbers (never NaN: a radius that does not parse is
    written as 0), one of them at least positive. *)
Theorem extractCornerRadius_all_or_none (cs : style) :
  match extractCornerRadius cs with
  | None =>
      forall name,
        In name ["borderTopLeftRadius"; "borderTopRightRadius";
                 "borderBottomRightRadius"; "borderBottomLeftRadius"] ->
        ngt (parseFloat (cs name)) (num_of_Z 0) = false
  | Some radii =>
      exists tl tr br bl,
        radii = mkRadii (Num tl) (Num tr) (Num br) (Num bl)
        /\ (0 < tl \/ 0 < tr \/ 0 < br \/ 0 < bl)
  end.
Proof.
  assert (Hz : forall n, exists q,
               or_zero n = Num q
               /\ ngt (or_zero n) (num_of_Z 0) = ngt n (num_of_Z 0)).
  { intros [q|]; unfold or_zero; cbn [num_truthy].
    - destruct (Qeq_bool q 0) eqn:E; cbn [negb]; [|eauto].
      exists (inject_Z 0). split; [reflexivity|].
      apply Qeq_bool_iff in E. unfold ngt, nlt, num_of_Z.
      f_equal. change (inject_Z 0) with 0.
      destruct (Qle_bool q 0) eqn:L; [reflexivity|].
      assert (Hq : q <= 0) by (rewrite E; apply Qle_refl).
      apply Qle_bool_iff in Hq. congruence.
    - exists (inject_Z 0). split; reflexivity. }
  unfold extractCornerRadius.
  destruct (Hz (parseFloat (cs "borderTopLeftRadius"))) as (tl & -> & Gtl).
  destruct (Hz (parseFloat (cs "borderTopRightRadius"))) as (tr & -> & Gtr).
  destruct (Hz (parseFloat (cs "borderBottomRightRadius"))) as (br & -> & Gbr).
  destruct (Hz (parseFloat (cs "borderBottomLeftRadius"))) as (bl & -> & Gbl).
  destruct (ngt (Num tl) (num_of_Z 0)) eqn:Etl; cbn [orb].
  { exists tl, tr, br, bl. split; [reflexivity|].
    apply ExtractFacts.ngt_zero in Etl as (x & Hx & Hx0).
    apply ShadowFacts.Num_inj in Hx. subst x. auto. }
  destruct (ngt (Num tr) (num_of_Z 0)) eqn:Etr; cbn [orb].
  { exists tl, tr, br, bl. split; [reflexivity|].
    apply ExtractFacts.ngt_zero in Etr as (x & Hx & Hx0).
    apply ShadowFacts.Num_inj in Hx. subst x. auto. }
  destruct (ngt (Num br) (num_of_Z 0)) eqn:Ebr; cbn [orb].
  { exists tl, tr, br, bl. split; [reflexivity|].
    apply ExtractFacts.ngt_zero in Ebr as (x & Hx & Hx0).
    apply ShadowFacts.Num_inj in Hx. subst x. auto. }
  destruct (ngt (Num bl) (num_of_Z 0)) eqn:Ebl; cbn [orb].
  { exists tl, tr, br, bl. split; [reflexivity|].
    apply ExtractFacts.ngt_zero in Ebl as (x & Hx & Hx0).
    apply ShadowFacts.Num_inj in Hx. subst x. auto. }
  intros name [<-|[<-|[<-|[<-|[]]]]]; congruence.
Qed.

(* ====================================================================== *)
(** * The plugin: further properties of the sanitizers and constructors *)
(* ====================================================================== *)

Module PaintFacts.
Import SanitizeFacts.
Local Open Scope outcome_scope.

(** ** [clamp] *)

Lemma clampQ_cases (q : Q) :
  exists q',
    clampQ (Num q) = Num q' /\ 0 <= q' /\ q' <= 1
    /\ (q' == q \/ (q < 0 /\ q' == 0) \/ (1 < q /\ q' == 1)).
Proof.
  unfold clampQ, Math_max, Math_min, num_of_Z.
  destruct (Qle_bool q (inject_Z 0)) eqn:E0.
  - exists (inject_Z 0). split; [reflexivity|].
    split; [unfold Qle; simpl; lia|]. split; [unfold Qle; simpl; lia|].
    apply Qle_bool_iff in E0. change (inject_Z 0) with 0 in *.
    destruct (Qle_lt_or_eq _ _ E0) as [H|H].
    + right. left. split; [exact H|reflexivity].
    + left. now symmetry.
  - assert (H0 : 0 < q).
    { destruct (Qlt_le_dec 0 q) as [H|H]; [exact H|].
      apply Qle_bool_iff in H. change (inject_Z 0) with 0 in E0. congruence. }
    destruct (Qle_bool q (inject_Z 1)) eqn:E1.
    + exists q. split; [reflexivity|]. split; [now apply Qlt_le_weak|].
      split; [now apply Qle_bool_iff in E1|]. left. reflexivity.
    + exists (inject_Z 1). split; [reflexivity|].
      split; [unfold Qle; simpl; lia|]. split; [unfold Qle; simpl; lia|].
      right. right. split; [|reflexivity].
      destruct (Qlt_le_dec 1 q) as [H|H]; [exact H|].
      apply Qle_bool_iff in H. change (inject_Z 1) with 1 in E1. congruence.
Qed.

(** ** Ranges of what the sanitizers write *)

Lemma clampColor_solid_range (c : jsval) :
  color_ok c = true ->
  exists r g b,
    clampColor (or_else c (VObj [])) false
    = Ok (VObj [("r", r); ("g", g); ("b", b)])
    /\ unit_interval r /\ unit_interval g /\ unit_interval b.
Proof.
  intros H. destruct (color_ok_fields c H) as (fields & -> & Hr & Hg & Hb & Ha).
  unfold clampColor.
  destruct (clamp_or_range _ Hr) as (r & Er & Rr).
  destruct (clamp_or_range _ Hg) as (g & Eg & Rg).
  destruct (clamp_or_range _ Hb) as (b & Eb & Rb).
  rewrite get_obj. cbn [rbind]. rewrite Er. cbn [rbind].
  rewrite get_obj. cbn [rbind]. rewrite Eg. cbn [rbind].
  rewrite get_obj. cbn [rbind]. rewrite Eb. cbn [rbind].
  exists (VNum (Num r)), (VNum (Num g)), (VNum (Num b)).
  unfold unit_interval. repeat split; eauto.
Qed.

Lemma sanitizeStop_range (stop : jsval) :
  stop_ok stop = true ->
  exists out, sanitizeStop stop = Ok out /\ sanitized_stop out.
Proof.
  unfold stop_ok. intros H. repeat (apply andb_true_iff in H as [H ?]).
  destruct stop as [| | | | | |fields|]; try discriminate.
  unfold sanitizeStop. rewrite get_obj. cbn [rbind].
  match goal with Hc : color_ok _ = true |- _ =>
    destruct (clampColor_alpha_total _ Hc) as (r & g & b & a & -> & Rr & Rg & Rb & Ra) end.
  cbn [rbind]. rewrite get_obj. cbn [rbind].
  match goal with Hp : numeric _ = true |- _ =>
    destruct (clamp_or_range _ Hp) as (q & -> & Rq) end.
  cbn [rbind]. eexists. split; [reflexivity|].
  exists r, g, b, a, (VNum (Num q)). repeat split; auto.
  exists q. auto.
Qed.

(** A well-formed paint of one of the three types the plugin knows is
    written with every number in range. *)
Lemma sanitizeFill_range (fill : jsval) :
  paint_ok fill = true ->
  exists out,
    sanitizeFill fill = Ok out /\ truthy out = true
    /\ (if is_solid fill then sanitized_solid out
        else if is_gradient fill then sanitized_gradient fill out
        else out = fill).
Proof.
  unfold paint_ok. intros H. apply andb_true_iff in H as [Ho H].
  destruct fill as [| | | | | |fields|]; try discriminate Ho.
  unfold sanitizeFill. rewrite get_obj. cbn [rbind].
  unfold is_solid, is_gradient in *.
  destruct (is_str (field "type" (VObj fields)) "SOLID").
  - apply andb_true_iff in H as [Hc Hop].
    destruct (clampColor_solid_range _ Hc) as (r & g & b & Ec & Rr & Rg & Rb).
    destruct (clamp_opt_range _ Hop) as (o & Eo & Ro).
    rewrite get_obj. cbn [rbind]. rewrite Ec. cbn [rbind].
    rewrite get_obj. cbn [rbind]. rewrite Eo. cbn [rbind].
    eexists. split; [reflexivity|]. split; [reflexivity|].
    exists r, g, b, (VNum (Num o)). repeat split; auto. exists o. auto.
  - destruct (is_str (field "type" (VObj fields)) "GRADIENT_LINEAR"
              || is_str (field "type" (VObj fields)) "GRADIENT_RADIAL").
    + apply andb_true_iff in H as [Hs Hh].
      assert (Es : exists stops,
                 array_map sanitizeStop
                   (or_else (field "gradientStops" (VObj fields)) (VArr []))
                 = Ok (VArr stops)
                 /\ Forall sanitized_stop stops).
      { destruct (field "gradientStops" (VObj fields)) as [| | | | |l| |];
          try discriminate Hs; unfold or_else; cbn [truthy array_map].
        - exists []. split; [reflexivity|constructor].
        - destruct (mapR_total stop_ok sanitizeStop sanitized_stop) with (l := l)
            as (l' & -> & Hl'); auto.
          + apply sanitizeStop_range.
          + cbn [rbind]. eauto. }
      destruct Es as (stops & Es & Hstops).
      assert (Et : exists t,
                 (if truthy (field "gradientHandlePositions" (VObj fields))
                  then handlePositionsToTransform
                         (field "gradientHandlePositions" (VObj fields))
                  else Ok identityTransform) = Ok t).
      { destruct (field "gradientHandlePositions" (VObj fields)) as [| | | | |l| |];
          try discriminate Hh; cbn [truthy]; eauto.
        apply handlePositionsToTransform_total. exact Hh. }
      destruct Et as (t & Et).
      rewrite get_obj. cbn [rbind]. rewrite Es. cbn [rbind].
      rewrite get_obj. cbn [rbind]. rewrite Et. cbn [rbind].
      eexists. split; [reflexivity|]. split; [reflexivity|].
      exists stops, t. auto.
    + eexists. split; [reflexivity|]. split; [reflexivity|]. reflexivity.
Qed.

Lemma mapR_Forall2 (ok : jsval -> bool) (f : jsval -> outcome jsval)
      (P : jsval -> jsval -> Prop) :
  (forall x, ok x = true -> exists y, f x = Ok y /\ truthy y = true /\ P x y) ->
  forall l, forallb ok l = true ->
            exists l', mapR f l = Ok l' /\ forallb truthy l' = true /\ Forall2 P l l'.
Proof.
  intros Hf. induction l as [|x l IH]; cbn [forallb mapR]; intros H.
  - exists []. auto.
  - apply andb_true_iff in H as [Hx Hl].
    destruct (Hf _ Hx) as (y & -> & Ty & Py). destruct (IH Hl) as (l' & -> & Tl & Pl).
    exists (y :: l'). cbn [rbind forallb]. rewrite Ty, Tl. auto.
Qed.

(** ** Gradient handles *)



(** ** Effects, a second time *)

Lemma or_else_again (v d : jsval) :
  truthy d = false -> or_else (or_else v d) d = or_else v d.
Proof. unfold or_else. intros Hd. destruct (truthy v) eqn:T; now rewrite ?T, ?Hd. Qed.

Lemma radius_again (v : jsval) (n : jsnum) :
  maxWith (or_else v (vnum 0)) (num_of_Z 0) = Ok n ->
  maxWith (or_else (VNum n) (vnum 0)) (num_of_Z 0) = Ok n.
Proof.
  unfold maxWith. intros H. bind_inv H as x. apply Ok_inj in H. subst n.
  destruct x as [q|].
  - unfold Math_max, num_of_Z. destruct (Qle_bool q (inject_Z 0)) eqn:L.
    + reflexivity.
    + unfold or_else. cbn [truthy num_truthy].
      destruct (Qeq_bool q 0) eqn:Z; cbn [negb vnum toNumber rbind].
      * exfalso. apply Qeq_bool_iff in Z.
        assert (Hq : q <= 0) by (rewrite Z; apply Qle_refl).
        apply Qle_bool_iff in Hq. change (inject_Z 0) with 0 in L. congruence.
      * unfold Math_max, num_of_Z. now rewrite L.
  - exfalso. unfold or_else in E.
    destruct v as [| |[|]|[q|]|s|l|fs|nm]; cbn [truthy num_truthy] in E;
      try discriminate E;
      try (destruct (negb (Qeq_bool q 0)); discriminate E);
      try (destruct (str_truthy s); discriminate E).
Qed.

Lemma sanitizeEffect_again (effect out : jsval) :
  sanitizeEffect effect = Ok out -> sanitizeEffect out = Ok out.
Proof.
  unfold sanitizeEffect. intros H.
  bind_inv H as ec0. bind_inv H as eo0. bind_inv H as ty.
  bind_inv H as color. bind_inv H as ox. bind_inv H as oy.
  bind_inv H as rad. bind_inv H as radius. bind_inv H as sp.
  apply Ok_inj in H. subst out.
  cbn [get table_get String.eqb Ascii.eqb Bool.eqb rbind].
  rewrite (@or_else_truthy color (VObj []))
    by (eapply is_obj_truthy, clampColor_obj; eauto).
  rewrite (clampColor_idem _ _ E2). cbn [rbind].
  rewrite (@or_else_truthy (VObj [("x", or_else ox (vnum 0));
                                  ("y", or_else oy (vnum 0))]) (VObj []))
    by reflexivity.
  cbn [get table_get String.eqb Ascii.eqb Bool.eqb rbind].
  rewrite (radius_again _ E6). cbn [rbind].
  now rewrite !or_else_again by reflexivity.
Qed.

End PaintFacts.

Module NodeFacts.
Import SanitizeFacts.

(** ** Running a constructor on the node it has just created *)

Lemma bind_lift_Ok (A B : Type) (r : outcome A) (a : A) (f : A -> M B) (s : state) :
  r = Ok a -> bind (lift r) f s = f a s.
Proof. intros ->. reflexivity. Qed.

Lemma bind_createNode (B : Type) (k : node_kind) (f : nat -> M B) (st : state) :
  bind (createNode k) f st = f (List.length (nodes st)) (with_top st k [] []).
Proof. reflexivity. Qed.

Lemma setProp_top (st : state) (k : node_kind) (ps : list (string * jsval))
      (children : list nat) (name : string) (v : jsval) :
  setProp (List.length (nodes st)) name v (with_top st k ps children)
  = (Ok tt, with_top st k ((name, v) :: ps) children).
Proof.
  unfold setProp, with_top, with_nodes. cbn [nodes notices posts views loads
                                             totalNodes processedNodes].
  now rewrite HandlerFacts.update_nth_last.
Qed.

Lemma bind_setProp_top (B : Type) (st : state) (k : node_kind)
      (ps : list (string * jsval)) (children : list nat) (name : string)
      (v : jsval) (f : unit -> M B) :
  bind (setProp (List.length (nodes st)) name v) f (with_top st k ps children)
  = f tt (with_top st k ((name, v) :: ps) children).
Proof. unfold bind. now rewrite setProp_top. Qed.

Lemma bind_resize_top (B : Type) (st : state) (k : node_kind)
      (ps : list (string * jsval)) (children : list nat) (w h : jsval)
      (f : unit -> M B) :
  bind (resize (List.length (nodes st)) w h) f (with_top st k ps children)
  = f tt (with_top st k (("height", h) :: ("width", w) :: ps) children).
Proof.
  unfold resize. unfold bind at 1. unfold bind at 1.
  now rewrite !setProp_top.
Qed.

Lemma bind_bind (A B C : Type) (m : M A) (f : A -> M B) (g : B -> M C) (s : state) :
  bind (bind m f) g s = bind m (fun x => bind (f x) g) s.
Proof. unfold bind. destruct (m s) as [[x|e| |] s']; reflexivity. Qed.

(** ** Sizes *)

Lemma at_least_one (v : jsval) (d : Z) :
  numeric v = true -> (1 <= d)%Z ->
  exists q, maxWith (or_else v (vnum d)) (num_of_Z 1) = Ok (Num q) /\ 1 <= q.
Proof.
  intros Hv Hd.
  assert (Hmax : forall x, exists z, Math_max (Num x) (num_of_Z 1) = Num z /\ 1 <= z).
  { intros x. destruct (ExtractFacts.Math_max_cases x (inject_Z 1))
      as (z & Ez & _ & Hz & _). exists z. auto. }
  unfold or_else, maxWith.
  destruct v as [| | |[q|]| | | |]; try discriminate Hv; cbn [truthy].
  - cbn [vnum toNumber rbind]. destruct (Hmax (inject_Z d)) as (z & Ez & Hz).
    unfold num_of_Z in *. rewrite Ez. eauto.
  - destruct (num_truthy (Num q)); cbn [vnum toNumber rbind].
    + destruct (Hmax q) as (z & -> & Hz). eauto.
    + destruct (Hmax (inject_Z d)) as (z & Ez & Hz).
      unfold num_of_Z in *. rewrite Ez. eauto.
Qed.

Lemma sizeOf_range (fields : list (string * jsval)) (d : Z) :
  numeric (field "width" (VObj fields)) = true ->
  numeric (field "height" (VObj fields)) = true ->
  (1 <= d)%Z ->
  exists w h, sizeOf (VObj fields) d = Ok (Num w, Num h) /\ 1 <= w /\ 1 <= h.
Proof.
  intros Hw Hh Hd. unfold sizeOf. rewrite get_obj. cbn [rbind].
  destruct (at_least_one _ Hw Hd) as (w & -> & Rw). cbn [rbind].
  rewrite get_obj. cbn [rbind].
  destruct (at_least_one _ Hh Hd) as (h & -> & Rh). cbn [rbind]. eauto.
Qed.

End NodeFacts.

Module FontFacts.
Import StringFacts.

(** ** Cleaning a font family *)

Lemma stripQuotes_clean (s : string) :
  has_char "'" (stripQuotes s) = false /\ has_char "034" (stripQuotes s) = false.
Proof.
  induction s as [|c s [IH1 IH2]]; [split; reflexivity|].
  cbn [stripQuotes].
  destruct (Ascii.eqb c "'") eqn:E1; cbn [orb]; [auto|].
  destruct (Ascii.eqb c "034") eqn:E2; [auto|].
  cbn [has_char]. now rewrite E1, E2, IH1, IH2.
Qed.

Lemma beforeComma_clean (s : string) : has_char "," (beforeComma s) = false.
Proof.
  induction s as [|c s IH]; [reflexivity|]. cbn [beforeComma].
  destruct (Ascii.eqb c ",") eqn:E; [reflexivity|].
  cbn [has_char]. now rewrite E, IH.
Qed.

Lemma has_char_beforeComma (c : ascii) (s : string) :
  has_char c s = false -> has_char c (beforeComma s) = false.
Proof.
  induction s as [|d s IH]; [reflexivity|]. cbn [has_char beforeComma].
  intros H. apply orb_false_iff in H as [Hd Hs].
  destruct (Ascii.eqb d ","); [reflexivity|].
  cbn [has_char]. now rewrite Hd, IH.
Qed.

Lemma has_char_trim_false (c : ascii) (s : string) :
  has_char c s = false -> has_char c (trim s) = false.
Proof.
  intros H. destruct (has_char c (trim s)) eqn:E; [|reflexivity].
  apply has_char_trim in E. congruence.
Qed.

Lemma trimStart_head (s : string) : head_is is_space (trimStart s) = false.
Proof.
  induction s as [|c s IH]; [reflexivity|]. cbn [trimStart].
  destruct (is_space c) eqn:E; [exact IH|]. exact E.
Qed.

Lemma trimStart_fixed (s : string) :
  head_is is_space s = false -> trimStart s = s.
Proof. destruct s as [|c s]; [reflexivity|]. cbn. now intros ->. Qed.

Lemma trimEnd_head (s : string) :
  head_is is_space s = false -> head_is is_space (trimEnd s) = false.
Proof.
  destruct s as [|c s]; [reflexivity|]. cbn [head_is trimEnd]. intros H.
  destruct (trimEnd s); [now rewrite H|exact H].
Qed.

Lemma trimEnd_again (s : string) : trimEnd (trimEnd s) = trimEnd s.
Proof.
  induction s as [|c s IH]; [reflexivity|]. cbn [trimEnd].
  destruct (trimEnd s) as [|d t] eqn:E.
  - destruct (is_space c) eqn:Ec; [reflexivity|]. cbn [trimEnd]. now rewrite Ec.
  - change (trimEnd (String c (String d t)))
      with (match trimEnd (String d t) with
            | EmptyString => if is_space c then EmptyString else String c EmptyString
            | u => String c u
            end).
    now rewrite IH.
Qed.

Lemma trim_again (s : string) : trim (trim s) = trim s.
Proof.
  unfold trim.
  rewrite (trimStart_fixed (trimEnd (trimStart s)))
    by (apply trimEnd_head, trimStart_head).
  apply trimEnd_again.
Qed.

(** A name without quote or comma and without white space around it. *)
Lemma cleaned_clean (family : string) :
  let cleaned := trim (beforeComma (stripQuotes family)) in
  has_char "," cleaned = false /\ has_char "'" cleaned = false
  /\ has_char "034" cleaned = false /\ trim cleaned = cleaned.
Proof.
  cbv zeta. destruct (stripQuotes_clean family) as [H1 H2]. repeat split.
  - apply has_char_trim_false, beforeComma_clean.
  - now apply has_char_trim_false, has_char_beforeComma.
  - now apply has_char_trim_false, has_char_beforeComma.
  - apply trim_again.
Qed.

Lemma mapped_clean (cleaned mapped : string) :
  table_get cleaned systemFontMap = Some mapped ->
  has_char "," mapped = false /\ has_char "'" mapped = false
  /\ has_char "034" mapped = false /\ trim mapped = mapped.
Proof.
  unfold systemFontMap. cbn [table_get].
  repeat match goal with
         | |- context [if String.eqb cleaned ?k then _ else _] =>
             destruct (String.eqb cleaned k)
         end;
    intros H; try discriminate H;
    apply SanitizeFacts.Some_inj in H; subst mapped; repeat split.
Qed.

(** ** The loop over the fonts to try *)

Lemma more_loads_more (n m : nat) (s : state) :
  more_loads n (more_loads m s) = more_loads (m + n) s.
Proof. unfold more_loads. cbn [nodes notices posts views loads totalNodes
                                     processedNodes]. now rewrite Nat.add_assoc. Qed.

Lemma tryFonts_failed (fontLoads : nat -> jsval -> bool) (textNode : nat)
      (failed : list jsval) :
  forall (rest : list jsval) (st : state),
    (forall i f, nth_error failed i = Some f ->
                 fontLoads (loads st + i)%nat f = false) ->
    tryFonts fontLoads (failed ++ rest) textNode st
    = tryFonts fontLoads rest textNode (more_loads (List.length failed) st).
Proof.
  induction failed as [|font failed IH]; intros rest st Hf.
  - cbn [app List.length]. unfold more_loads. rewrite Nat.add_0_r. now destruct st.
  - cbn [app tryFonts]. unfold try_catch, bind at 1, loadFontAsync.
    pose proof (Hf 0%nat font eq_refl) as H0. rewrite Nat.add_0_r in H0. rewrite H0.
    rewrite IH.
    + f_equal. unfold more_loads.
      cbn [nodes notices posts views loads totalNodes processedNodes List.length].
      f_equal. lia.
    + intros i f Hi. cbn [loads].
      replace (S (loads st) + i)%nat with (loads st + S i)%nat by lia.
      now apply (Hf (S i)).
Qed.

End FontFacts.

Import JS Scrape Plugin.
Local Open Scope plugin_scope.

(** X9.  [clamp] brings every number into the range from 0 to 1: the
    result is the number itself when it lies in the range, 0 when it is
    below and 1 when it is above; clamping the result again changes
    nothing. *)
Theorem clamp_into_unit_interval (q : Q) :
  exists q',
    clamp (VNum (Num q)) = Ok (Num q')
    /\ 0 <= q' /\ q' <= 1
    /\ (q' == q \/ (q < 0 /\ q' == 0) \/ (1 < q /\ q' == 1))
    /\ clamp (VNum (Num q')) = Ok (Num q').
Proof.
  destruct (PaintFacts.clampQ_cases q) as (q' & E & H0 & H1 & Hc).
  exists q'. rewrite !SanitizeFacts.clamp_num. rewrite E. repeat split; auto.
  rewrite <- E. now rewrite SanitizeFacts.clampQ_idem.
Qed.

(** X10.  On a list of well-formed paints [sanitizeFills] writes every
    number in range: a solid paint comes out with its three channels and
    its opacity between 0 and 1, a gradient with the colour and the
    position of every stop between 0 and 1 (and a transform in place of
    its handle positions); a paint of another type comes out as it is. *)
Theorem sanitizeFills_in_range (items : list jsval) :
  forallb paint_ok items = true ->
  exists outs,
    sanitizeFills (VArr items) = Ok (VArr outs)
    /\ Forall2 (fun fill out =>
                  if is_solid fill then sanitized_solid out
                  else if is_gradient fill then sanitized_gradient fill out
                  else out = fill)
               items outs.
Proof.
  intros H. unfold sanitizeFills. cbn [truthy isArray negb orb].
  destruct (PaintFacts.mapR_Forall2 paint_ok sanitizeFill
              (fun fill out =>
                 if is_solid fill then sanitized_solid out
                 else if is_gradient fill then sanitized_gradient fill out
                 else out = fill))
    with (l := items) as (ws & -> & Tws & Pws); auto.
  - intros x Hx. destruct (PaintFacts.sanitizeFill_range x Hx) as (y & Ey & Ty & Py).
    eauto.
  - cbn [rbind]. rewrite SanitizeFacts.filter_all by auto. eauto.
Qed.

(** A bright red written out of range, and a gradient with one stop. *)
Definition loud_paints : list jsval :=
  [ VObj [ ("type", VStr "SOLID");
           ("color", VObj [("r", vnum 2); ("g", vnum (-1)); ("b", vnum 0)]) ];
    VObj [ ("type", VStr "GRADIENT_LINEAR");
           ("gradientStops",
            VArr [ VObj [ ("color", VObj [("r", vnum 1); ("g", vnum 1);
                                          ("b", vnum 1); ("a", vnum 3)]);
                          ("position", vnum 7) ] ]) ] ].

Lemma sanitizeFills_in_range_witness :
  exists outs,
    sanitizeFills (VArr loud_paints) = Ok (VArr outs)
    /\ Forall2 (fun fill out =>
                  if is_solid fill then sanitized_solid out
                  else if is_gradient fill then sanitized_gradient fill out
                  else out = fill)
               loud_paints outs.
Proof. apply (sanitizeFills_in_range loud_paints). reflexivity. Defined.




(** X12.  For a well-formed effect (an object; the colour channels and
    the radius that are there are numbers) the callback of [applyEffects]
    returns, and what it writes is a fixed point of it: sanitizing the
    result again returns it unchanged (unlike a gradient paint, whose
    transform a second pass of [sanitizeFills] resets). *)
Theorem sanitizeEffect_idempotent (effect : jsval) :
  effect_ok effect = true ->
  exists out,
    sanitizeEffect effect = Ok out
    /\ applied_effect out
    /\ sanitizeEffect out = Ok out.
Proof.
  intros Hok.
  destruct (SanitizeFacts.sanitizeEffect_total effect Hok) as (out & H & Ha).
  exists out. repeat split; auto.
  exact (PaintFacts.sanitizeEffect_again _ H).
Qed.

Lemma sanitizeEffect_idempotent_witness :
  exists out,
    sanitizeEffect
      (VObj [("type", VStr "DROP_SHADOW");
             ("color", VObj [("a", VNum (Num (5 # 4)))]);
             ("offset", VObj [("y", vnum 4)]);
             ("radius", vnum (-6))])
    = Ok out
    /\ applied_effect out
    /\ sanitizeEffect out = Ok out.
Proof.
  apply (sanitizeEffect_idempotent
           (VObj [("type", VStr "DROP_SHADOW");
                  ("color", VObj [("a", VNum (Num (5 # 4)))]);
                  ("offset", VObj [("y", vnum 4)]);
                  ("radius", vnum (-6))])).
  reflexivity.
Defined.

(** X13.  [createImageNode], for a node with numeric sizes, never fails
    and creates one node, a rectangle, at least 1 wide and 1 high.  Its
    fill is the image when the bytes of [imageBase64] decode, or, without
    bytes, when the address [imageUrl] loads; otherwise one grey solid
    paint.  Bytes that do not decode end in the grey paint: the address
    is not tried after them. *)
Theorem createImageNode_rectangle
        (imageOfBase64 imageOfUrl : jsval -> option string)
        (fields : list (string * jsval)) (st : state) :
  let node := VObj fields in
  let source :=
    if truthy (field "imageBase64" node) then imageOfBase64 (field "imageBase64" node)
    else if truthy (field "imageUrl" node) then imageOfUrl (field "imageUrl" node)
    else None in
  numeric (field "width" node) = true ->
  numeric (field "height" node) = true ->
  exists ps w h,
    createImageNode imageOfBase64 imageOfUrl node st
    = (Ok (List.length (nodes st)), with_top st RECTANGLE ps [])
    /\ table_get "width" ps = Some (VNum (Num w)) /\ 1 <= w
    /\ table_get "height" ps = Some (VNum (Num h)) /\ 1 <= h
    /\ match source with
       | Some hash => table_get "fills" ps = Some (imageFill hash)
       | None => exists r g b, table_get "fills" ps = Some (solidFill r g b)
       end.
Proof.
  intros node source Hw Hh. subst node source.
  destruct (@NodeFacts.sizeOf_range fields 100%Z Hw Hh) as (w & h & Es & Rw & Rh); [lia|].
  unfold createImageNode.
  rewrite NodeFacts.bind_createNode.
  rewrite (NodeFacts.bind_lift_Ok _ _ Es). cbn [fst snd].
  rewrite NodeFacts.bind_resize_top.
  rewrite !SanitizeFacts.get_obj.
  rewrite !(NodeFacts.bind_lift_Ok _ _ eq_refl).
  destruct (truthy (field "imageBase64" (VObj fields))).
  - destruct (imageOfBase64 (field "imageBase64" (VObj fields))) as [hash|].
    + rewrite NodeFacts.bind_setProp_top. unfold ret.
      eexists _, w, h. split; [reflexivity|]. repeat split; auto.
    + rewrite NodeFacts.bind_bind, !NodeFacts.bind_setProp_top. unfold ret.
      eexists _, w, h. split; [reflexivity|]. repeat split; auto.
      do 3 eexists. reflexivity.
  - destruct (truthy (field "imageUrl" (VObj fields))).
    + destruct (imageOfUrl (field "imageUrl" (VObj fields))) as [hash|].
      * rewrite NodeFacts.bind_setProp_top. unfold ret.
        eexists _, w, h. split; [reflexivity|]. repeat split; auto.
      * rewrite NodeFacts.bind_bind, !NodeFacts.bind_setProp_top. unfold ret.
        eexists _, w, h. split; [reflexivity|]. repeat split; auto.
        do 3 eexists. reflexivity.
    + rewrite NodeFacts.bind_setProp_top. unfold ret.
      eexists _, w, h. split; [reflexivity|]. repeat split; auto.
      do 3 eexists. reflexivity.
Qed.

(** A picture whose bytes do not decode, with an address that would
    load. *)
Definition broken_picture : list (string * jsval) :=
  [ ("type", VStr "IMAGE"); ("width", vnum 0); ("height", vnum 48);
    ("imageBase64", VStr "AAAA"); ("imageUrl", VStr "https://example.com/a.png") ].

Lemma createImageNode_rectangle_witness :
  exists ps w h,
    createImageNode (fun _ => None) (fun _ => Some "hash") (VObj broken_picture)
                    empty_scene
    = (Ok 0%nat, with_top empty_scene RECTANGLE ps [])
    /\ table_get "width" ps = Some (VNum (Num w)) /\ 1 <= w
    /\ table_get "height" ps = Some (VNum (Num h)) /\ 1 <= h
    /\ exists r g b, table_get "fills" ps = Some (solidFill r g b).
Proof.
  exact (createImageNode_rectangle (fun _ => None) (fun _ => Some "hash")
           broken_picture empty_scene eq_refl eq_refl).
Defined.

(** X14.  [createSvgNode], for a node with numeric sizes, never fails
    and creates one node: the frame the host makes of the markup when
    there is markup and the host accepts it; otherwise (no markup, or
    markup the host rejects) a placeholder rectangle, at least 1 wide and
    1 high, with one solid paint. *)
Theorem createSvgNode_fallback
        (svgParses : jsval -> bool) (fields : list (string * jsval)) (st : state) :
  let node := VObj fields in
  let content := field "svgContent" node in
  numeric (field "width" node) = true ->
  numeric (field "height" node) = true ->
  exists k ps,
    createSvgNode svgParses node st
    = (Ok (List.length (nodes st)), with_top st k ps [])
    /\ if truthy content && svgParses content
       then k = FRAME /\ table_get "svg" ps = Some content
       else k = RECTANGLE
            /\ exists w h r g b,
                 table_get "width" ps = Some (VNum (Num w)) /\ 1 <= w
                 /\ table_get "height" ps = Some (VNum (Num h)) /\ 1 <= h
                 /\ table_get "fills" ps = Some (solidFill r g b).
Proof.
  intros node content Hw Hh. subst node content.
  destruct (@NodeFacts.sizeOf_range fields 24%Z Hw Hh) as (w & h & Es & Rw & Rh); [lia|].
  unfold createSvgNode. rewrite SanitizeFacts.get_obj.
  rewrite (NodeFacts.bind_lift_Ok _ _ eq_refl).
  destruct (truthy (field "svgContent" (VObj fields))); cbn [negb andb].
  - destruct (svgParses (field "svgContent" (VObj fields))).
    + rewrite NodeFacts.bind_createNode, NodeFacts.bind_setProp_top.
      rewrite !SanitizeFacts.get_obj. rewrite !(NodeFacts.bind_lift_Ok _ _ eq_refl).
      destruct (truthy (field "width" (VObj fields))
                && truthy (field "height" (VObj fields))) eqn:T.
      * apply andb_true_iff in T as [Tw Th].
        assert (Hm : forall v, numeric v = true -> truthy v = true ->
                               exists n, maxWith v (num_of_Z 1) = Ok n).
        { intros v Hv Tv. destruct v as [| | |[q|]| | | |]; try discriminate.
          eexists. reflexivity. }
        destruct (Hm _ Hw Tw) as (w' & Ew). destruct (Hm _ Hh Th) as (h' & Eh).
        rewrite NodeFacts.bind_bind, (NodeFacts.bind_lift_Ok _ _ Ew).
        rewrite NodeFacts.bind_bind, (NodeFacts.bind_lift_Ok _ _ Eh).
        rewrite NodeFacts.bind_resize_top. unfold ret.
        eexists _, _. split; [reflexivity|]. split; reflexivity.
      * unfold bind, ret.
        eexists _, _. split; [reflexivity|]. split; reflexivity.
    + rewrite NodeFacts.bind_createNode.
      rewrite (NodeFacts.bind_lift_Ok _ _ Es). cbn [fst snd].
      rewrite NodeFacts.bind_resize_top, !NodeFacts.bind_setProp_top. unfold ret.
      eexists _, _. split; [reflexivity|]. split; [reflexivity|].
      exists w, h. do 3 eexists. repeat split; auto.
  - rewrite NodeFacts.bind_createNode.
    rewrite (NodeFacts.bind_lift_Ok _ _ Es). cbn [fst snd].
    rewrite NodeFacts.bind_resize_top, !NodeFacts.bind_setProp_top. unfold ret.
    eexists _, _. split; [reflexivity|]. split; [reflexivity|].
    exists w, h. do 3 eexists. repeat split; auto.
Qed.

Lemma createSvgNode_fallback_witness :
  exists k ps,
    createSvgNode (fun _ => false)
                  (VObj [("type", VStr "SVG"); ("svgContent", VStr "<svg")])
                  empty_scene
    = (Ok 0%nat, with_top empty_scene k ps [])
    /\ k = RECTANGLE
    /\ exists w h r g b,
         table_get "width" ps = Some (VNum (Num w)) /\ 1 <= w
         /\ table_get "height" ps = Some (VNum (Num h)) /\ 1 <= h
         /\ table_get "fills" ps = Some (solidFill r g b).
Proof.
  exact (createSvgNode_fallback (fun _ => false)
           [("type", VStr "SVG"); ("svgContent", VStr "<svg")] empty_scene
           eq_refl eq_refl).
Defined.

(** X15.  For a string, [sanitizeFontFamily] returns a name without
    quotes, without a comma and without white space around it: the first
    name of the list, or the font it stands for in the table of system
    fonts.  The one exception: a first name that is a member every object
    inherits ([constructor], [toString], ...) is looked up in the table
    too, and what comes back is that member, not a string. *)
Theorem sanitizeFontFamily_clean (family : string) :
  exists out,
    sanitizeFontFamily (VStr family) = Ok out
    /\ match out with
       | VStr name =>
           has_char "," name = false /\ has_char "'" name = false
           /\ has_char "034" name = false /\ trim name = name
       | VBuiltin name =>
           name = trim (beforeComma (stripQuotes family)) /\ In name inherited
       | _ => False
       end.
Proof.
  unfold sanitizeFontFamily. cbn [truthy].
  destruct (str_truthy family); cbn [negb].
  - destruct (table_get (trim (beforeComma (stripQuotes family))) systemFontMap)
      as [mapped|] eqn:E.
    + eexists. split; [reflexivity|]. exact (FontFacts.mapped_clean _ E).
    + destruct (existsb (String.eqb (trim (beforeComma (stripQuotes family))))
                        inherited) eqn:I.
      * eexists. split; [reflexivity|]. split; [reflexivity|].
        apply existsb_exists in I as (name & Hin & Hn).
        apply String.eqb_eq in Hn. now subst name.
      * eexists. split; [reflexivity|]. apply FontFacts.cleaned_clean.
  - eexists. split; [reflexivity|]. repeat split.
Qed.

(** X16.  The loop over the fonts to try stops at the first font the
    host loads: that font becomes the [fontName] of the text node, one
    load has been attempted for it and for each font before it, and the
    fonts after it are not asked for.  When the host loads none, the loop
    ends without a font and without an error, every font having been
    attempted once. *)
Theorem tryFonts_first_that_loads
        (fontLoads : nat -> jsval -> bool) (textNode : nat)
        (failed : list jsval) (font : jsval) (rest : list jsval) (st : state) :
  (forall i f, nth_error failed i = Some f ->
               fontLoads (loads st + i)%nat f = false) ->
  (fontLoads (loads st + List.length failed)%nat font = true ->
   tryFonts fontLoads (failed ++ font :: rest) textNode st
   = (Ok true,
      snd (setProp textNode "fontName" font
                   (more_loads (S (List.length failed)) st))))
  /\ tryFonts fontLoads failed textNode st
     = (Ok false, more_loads (List.length failed) st).
Proof.
  intros Hf. split.
  - intros Hl. rewrite (FontFacts.tryFonts_failed _ _ _ _ _ Hf).
    cbn [tryFonts]. unfold try_catch, bind at 1, loadFontAsync.
    cbn [loads more_loads]. rewrite Hl.
    unfold bind, setProp, ret, more_loads.
    cbn [nodes notices posts views loads totalNodes processedNodes fst snd].
    now rewrite Nat.add_succ_r.
  - rewrite <- (app_nil_r failed) at 1.
    now rewrite (FontFacts.tryFonts_failed _ _ _ _ _ Hf).
Qed.

Lemma tryFonts_first_that_loads_witness :
  tryFonts (fun n _ => (2 <=? n)%nat)
           [fontOf (VStr "Futura") (VStr "Bold"); fontOf (VStr "Futura") (VStr "Regular");
            fontOf (VStr "Inter") (VStr "Bold"); interRegular]
           0 (with_top empty_scene TEXT [] [])
  = (Ok true,
     snd (setProp 0 "fontName" (fontOf (VStr "Inter") (VStr "Bold"))
                  (more_loads 3 (with_top empty_scene TEXT [] [])))).
Proof.
  refine (proj1 (@tryFonts_first_that_loads (fun n _ => (2 <=? n)%nat) 0
                   [fontOf (VStr "Futura") (VStr "Bold");
                    fontOf (VStr "Futura") (VStr "Regular")]
                   (fontOf (VStr "Inter") (VStr "Bold")) [interRegular]
                   (with_top empty_scene TEXT [] []) _) _).
  - intros [|[|i]] f H; try reflexivity. destruct i; discriminate H.
  - reflexivity.
Defined.

(* ====================================================================== *)
(** * The handler: what an import leaves alone, and what it counts *)
(* ====================================================================== *)

Module SceneFacts.
Import FrameFacts.

#[local] Hint Resolve fueled_get fueled_at_index fueled_toNumber fueled_maxWith
  fueled_gtNum fueled_ltNum fueled_has_items fueled_clamp fueled_minus
  fueled_handlePositionsToTransform fueled_clampColor fueled_sanitizeStop
  fueled_sanitizeFill fueled_sanitizeFills fueled_sanitizeEffect
  fueled_sanitizeFontFamily fueled_effects fueled_sizeOf fueled_hasFills
  fueled_needsWrapper fueled_iterate fueled_centred : fueled.

(** ** The nodes that were there before, children included *)

Lemma old_same_scene (n0 : nat) (s0 : state) : scene_only (old_same n0 s0).
Proof. intros s s' N [L K]. unfold old_same. rewrite N. auto. Qed.

Lemma old_same_refl (s : state) : old_same (List.length (nodes s)) s s.
Proof. split; auto. Qed.

Lemma same_createNode (n0 : nat) (s0 : state) (k : node_kind) :
  maintains (old_same n0 s0) (createNode k) (fun id => (n0 <= id)%nat).
Proof.
  intros s [L K]. unfold createNode, with_nodes, old_same. cbn [fst snd nodes].
  split; [discriminate|split].
  - split; [rewrite length_app; lia|].
    intros id Hid. rewrite <- (K id Hid). apply nth_error_app1. lia.
  - intros x E. injection E as <-. exact L.
Qed.

Lemma same_setProp (n0 : nat) (s0 : state) (id : nat) (name : string) (v : jsval) :
  (n0 <= id)%nat ->
  maintains (old_same n0 s0) (setProp id name v) (fun _ => True).
Proof.
  intros Hge s [L K]. unfold setProp, with_nodes, old_same. cbn [fst snd nodes].
  split; [discriminate|split; [|auto]].
  split; [now rewrite length_update_nth|].
  intros i Hi. rewrite nth_error_update_nth.
  destruct (Nat.eqb_spec id i) as [->|_]; [lia|auto].
Qed.

Lemma same_resize (n0 : nat) (s0 : state) (id : nat) (w h : jsval) :
  (n0 <= id)%nat ->
  maintains (old_same n0 s0) (resize id w h) (fun _ => True).
Proof.
  intros Hge. unfold resize.
  apply maintains_then; [|intros _]; now apply same_setProp.
Qed.

Lemma same_appendChild (n0 : nat) (s0 : state) (parent child : nat) :
  (n0 <= parent)%nat ->
  maintains (old_same n0 s0) (appendChild parent child) (fun _ => True).
Proof.
  intros Hge s [L K]. unfold appendChild, with_nodes, old_same. cbn [fst snd nodes].
  split; [discriminate|split; [|auto]].
  split; [now rewrite length_update_nth|].
  intros i Hi. rewrite nth_error_update_nth.
  destruct (Nat.eqb_spec parent i) as [->|_]; [lia|auto].
Qed.

Ltac quiet := first [apply old_same_scene | assumption].

Ltac stroll :=
  lazymatch goal with
  | |- maintains _ (ret _) _ =>
      apply maintains_ret; first [exact I | assumption | lia]
  | |- maintains _ (bind (lift _) _) _ =>
      apply maintains_lift; [fuel | intros ? ?; stroll]
  | |- maintains _ (bind (createNode _) _) _ =>
      eapply maintains_bind;
      [apply same_createNode | cbv beta; intros ? ?; stroll]
  | |- maintains _ (bind _ _) _ =>
      apply maintains_then; [stroll | intros ?; stroll]
  | |- maintains _ (if ?c then _ else _) _ => destruct c; stroll
  | |- maintains _ (match ?c with _ => _ end) _ => destruct c; stroll
  | |- maintains _ (setProp _ _ _) _ => apply same_setProp; assumption
  | |- maintains _ (resize _ _ _) _ => apply same_resize; assumption
  | |- maintains _ (appendChild _ _) _ => apply same_appendChild; assumption
  | |- maintains _ (notify _) _ => apply maintains_notify; quiet
  | |- maintains _ (sendProgress _ _) _ => apply maintains_sendProgress; quiet
  | |- maintains _ (scrollAndZoomIntoView _) _ =>
      apply maintains_scrollAndZoomIntoView; quiet
  | |- maintains _ (setCounters _ _) _ => apply maintains_setCounters; quiet
  | |- maintains _ getCounters _ => apply maintains_getCounters; quiet
  | |- maintains _ (getProp _ _) _ => apply maintains_getProp; quiet
  | |- maintains _ (canAppend _) _ => apply maintains_canAppend; quiet
  | |- maintains _ (loadFontAsync _ _) _ => apply maintains_loadFontAsync; quiet
  | _ => idtac
  end.

Section Untouched.

Variable n0 : nat.
Variable s0 : state.

Lemma same_applyStrokes (figmaNode : nat) (node : jsval) :
  (n0 <= figmaNode)%nat ->
  maintains (old_same n0 s0) (applyStrokes figmaNode node) (fun _ => True).
Proof. intros Hge. unfold applyStrokes. stroll. Qed.

Lemma same_applyCornerRadius (figmaNode : nat) (node : jsval) :
  (n0 <= figmaNode)%nat ->
  maintains (old_same n0 s0) (applyCornerRadius figmaNode node) (fun _ => True).
Proof. intros Hge. unfold applyCornerRadius. stroll. Qed.

Lemma same_applyEffects (figmaNode : nat) (node : jsval) :
  (n0 <= figmaNode)%nat ->
  maintains (old_same n0 s0) (applyEffects figmaNode node) (fun _ => True).
Proof. intros Hge. unfold applyEffects. stroll. Qed.

Ltac styled :=
  lazymatch goal with
  | |- maintains _ (applyStrokes _ _) _ => apply same_applyStrokes; assumption
  | |- maintains _ (applyCornerRadius _ _) _ =>
      apply same_applyCornerRadius; assumption
  | |- maintains _ (applyEffects _ _) _ => apply same_applyEffects; assumption
  | _ => idtac
  end.

Lemma same_createFrameNode (node : jsval) :
  maintains (old_same n0 s0) (createFrameNode node) (fun id => (n0 <= id)%nat).
Proof. unfold createFrameNode. stroll; styled. Qed.

Lemma same_tryFonts (fontLoads : nat -> jsval -> bool)
      (fontsToTry : list jsval) (textNode : nat) :
  (n0 <= textNode)%nat ->
  maintains (old_same n0 s0) (tryFonts fontLoads fontsToTry textNode)
            (fun _ => True).
Proof.
  intros Hge. induction fontsToTry as [|font rest IH]; cbn [tryFonts].
  - stroll.
  - apply maintains_try; [stroll|intros _; exact IH].
Qed.

Lemma same_createTextNode (fontLoads : nat -> jsval -> bool) (node : jsval) :
  maintains (old_same n0 s0) (createTextNode fontLoads node)
            (fun id => (n0 <= id)%nat).
Proof.
  unfold createTextNode.
  apply maintains_lift; [fuel|intros need _].
  eapply maintains_bind
    with (Q := fun w => match w with Some w' => (n0 <= w')%nat | None => True end).
  { destruct (fst need); stroll; styled. }
  intros wrapper Hw. stroll.
  apply same_tryFonts; assumption.
Qed.

Lemma same_createSvgNode (svgParses : jsval -> bool) (node : jsval) :
  maintains (old_same n0 s0) (createSvgNode svgParses node)
            (fun id => (n0 <= id)%nat).
Proof. unfold createSvgNode. stroll. Qed.

Lemma same_createImageNode (imageOfBase64 imageOfUrl : jsval -> option string)
      (node : jsval) :
  maintains (old_same n0 s0) (createImageNode imageOfBase64 imageOfUrl node)
            (fun id => (n0 <= id)%nat).
Proof. unfold createImageNode. stroll. Qed.

Lemma same_createRootFrame (data : jsval) :
  maintains (old_same n0 s0) (createRootFrame data) (fun id => (n0 <= id)%nat).
Proof. unfold createRootFrame. stroll. Qed.

Section Walk.

Variable fontLoads : nat -> jsval -> bool.
Variable svgParses : jsval -> bool.
Variable imageOfBase64 : jsval -> option string.
Variable imageOfUrl : jsval -> option string.
Variable viewportCenter : jsnum * jsnum.

Lemma same_processNode (fuel : nat) :
  forall (node : jsval) (parent : nat),
    (n0 <= parent)%nat ->
    (depth node < fuel)%nat ->
    maintains (old_same n0 s0)
              (processNode fontLoads svgParses imageOfBase64 imageOfUrl
                           fuel node parent)
              (fun _ => True).
Proof.
  induction fuel as [|fuel IH]; intros node parent Hp Hd; [lia|].
  cbn [processNode]. destruct (negb (truthy node)); [stroll|].
  apply maintains_then; [stroll|intros counters].
  apply maintains_then; [stroll|intros _].
  apply maintains_then; [stroll|intros _].
  apply maintains_lift; [fuel|intros ty _].
  eapply maintains_bind with (Q := fun id => (n0 <= id)%nat).
  { destruct (is_str ty "TEXT"); [apply same_createTextNode|].
    destruct (is_str ty "SVG"); [apply same_createSvgNode|].
    destruct (is_str ty "IMAGE");
      [apply same_createImageNode | apply same_createFrameNode]. }
  intros figmaNode Hid. stroll.
  match goal with
  | Hc : get node "children" = Ok ?c, Hi : iterate ?c = Ok ?items |- _ =>
      apply maintains_forEachM; intros child Hin;
      apply maintains_then; [|intros _; stroll];
      apply IH; [assumption|];
      pose proof (@depth_child _ _ _ _ _ Hc Hi Hin); lia
  end.
Qed.

Lemma same_importDesign (data : jsval) :
  maintains (old_same n0 s0)
            (importDesign fontLoads svgParses imageOfBase64 imageOfUrl
                          viewportCenter data)
            (fun _ => True).
Proof.
  unfold importDesign.
  apply maintains_then; [stroll|intros _].
  apply maintains_lift; [fuel|intros rootNode _].
  apply maintains_then;
    [apply maintains_countNodes; [apply old_same_scene|lia]|intros _].
  eapply maintains_bind; [apply same_createRootFrame|].
  cbv beta. intros rootFrame Hroot.
  apply maintains_then; [apply same_processNode; [assumption|lia]|intros _].
  stroll.
Qed.

Lemma same_onmessage (msg : jsval) :
  maintains (old_same n0 s0)
            (onmessage fontLoads svgParses imageOfBase64 imageOfUrl
                       viewportCenter msg)
            (fun _ => True).
Proof.
  unfold onmessage.
  apply maintains_lift; [fuel|intros ty _].
  destruct (is_str ty "import-design"); [|stroll].
  apply maintains_lift; [fuel|intros data _].
  apply maintains_lift; [fuel|intros invalid _].
  destruct invalid; [stroll|].
  apply maintains_then; [stroll|intros _].
  apply maintains_then; [stroll|intros _].
  apply maintains_try; [apply same_importDesign|].
  intros e. stroll.
Qed.

End Walk.

End Untouched.

End SceneFacts.

Module CountFacts.
Import FrameFacts.

(** ** The size of a document tree *)

Lemma tree_size_obj (fields : list (string * jsval)) :
  tree_size (VObj fields)
  = S (match table_get "children" fields with
       | Some (VArr items) => list_sum (map tree_size items)
       | _ => O
       end).
Proof.
  cbn [tree_size]. f_equal.
  induction fields as [|[k w] fs IH]; [reflexivity|].
  cbn [table_get]. destruct (String.eqb "children" k); [|exact IH].
  destruct w; try reflexivity.
  induction items as [|child l IHl]; [reflexivity|].
  rewrite IHl. reflexivity.
Qed.

Lemma countable_obj (fields : list (string * jsval)) :
  countable (VObj fields)
  = match table_get "children" fields with
    | Some (VArr items) => forallb countable items
    | Some other => negb (truthy other)
    | None => true
    end.
Proof.
  cbn [countable].
  induction fields as [|[k w] fs IH]; [reflexivity|].
  cbn [table_get]. destruct (String.eqb "children" k); [|exact IH].
  destruct w; reflexivity.
Qed.

Lemma more_counted_zero (s : state) : more_counted 0 s = s.
Proof. unfold more_counted. rewrite Nat.add_0_r. now destruct s. Qed.

Lemma more_counted_more (n m : nat) (s : state) :
  more_counted n (more_counted m s) = more_counted (m + n) s.
Proof.
  unfold more_counted.
  cbn [nodes notices posts views loads totalNodes processedNodes].
  now rewrite Nat.add_assoc.
Qed.

Lemma forEachM_counted (f : jsval -> M unit) (items : list jsval) :
  (forall item s, In item items ->
                  f item s = (Ok tt, more_counted (tree_size item) s)) ->
  forall s, forEachM f items s
            = (Ok tt, more_counted (list_sum (map tree_size items)) s).
Proof.
  induction items as [|item l IH]; intros Hf s.
  - cbn [forEachM map list_sum]. unfold ret. now rewrite more_counted_zero.
  - cbn [forEachM map list_sum]. unfold bind. rewrite Hf by now left.
    rewrite IH by (intros; apply Hf; now right).
    now rewrite more_counted_more.
Qed.

Lemma countNodes_counts (fuel : nat) :
  forall (n : jsval) (s : state),
    countable n = true ->
    (depth n < fuel)%nat ->
    countNodes fuel n s = (Ok tt, more_counted (tree_size n) s).
Proof.
  induction fuel as [|fuel IH]; intros n s Hc Hd; [lia|].
  cbn [countNodes].
  assert (One : more_counted 1 s
                = mkState (nodes s) (notices s) (posts s) (views s)
                          (loads s) (S (totalNodes s)) (processedNodes s)).
  { unfold more_counted. now rewrite Nat.add_1_r. }
  destruct n as [| |b|x|str|l|fields|nm]; try discriminate Hc;
    try (cbn; unfold ret; now rewrite more_counted_zero).
  - destruct b; cbn; unfold ret; [|now rewrite more_counted_zero].
    now rewrite One.
  - cbn [truthy tree_size]. destruct (num_truthy x); cbn [negb].
    + cbn. unfold ret. now rewrite One.
    + unfold ret. now rewrite more_counted_zero.
  - cbn [truthy tree_size]. destruct (str_truthy str); cbn [negb].
    + unfold bind, getCounters, setCounters, lift. cbn [fst snd get].
      replace (String.eqb "children" "length") with false by reflexivity.
      cbn [truthy]. unfold ret. now rewrite One.
    + unfold ret. now rewrite more_counted_zero.
  - cbn. unfold ret. now rewrite One.
  - rewrite tree_size_obj. rewrite countable_obj in Hc.
    cbn [truthy negb]. unfold bind at 1, getCounters. unfold bind at 1, setCounters.
    cbn [fst snd totalNodes processedNodes nodes notices posts views loads].
    rewrite SanitizeFacts.get_obj. unfold bind, lift. cbn [field].
    destruct (table_get "children" fields) as [c|] eqn:E.
    + destruct c as [| |b|x|str|items|fs|nm]; cbn [truthy negb] in Hc |- *;
        try discriminate Hc;
        try (unfold ret; now rewrite One);
        try (rewrite (proj1 (negb_true_iff _) Hc); unfold ret; now rewrite One).
      rewrite forEachM_counted.
      * rewrite <- One. now rewrite more_counted_more.
      * intros item s' Hin. apply IH.
        -- rewrite forallb_forall in Hc. now apply Hc.
        -- assert (Hg : get (VObj fields) "children" = Ok (VArr items)).
           { rewrite SanitizeFacts.get_obj. cbn [field]. now rewrite E. }
           pose proof (@depth_child _ _ _ _ _ Hg eq_refl Hin). lia.
    + cbn [truthy]. unfold ret. now rewrite One.
Qed.

End CountFacts.

Import JS Scrape Plugin.
Local Open Scope plugin_scope.

(** X17.  The handler leaves the scene it finds as it is: whatever the
    message, every node that was in the scene before is there afterwards
    with its kind, its properties and its children unchanged (nodes are
    only added, after them).  And the walk over the document never stops
    at the recursion bound of the model: the nesting depth of the root
    node is fuel enough. *)
Theorem onmessage_leaves_the_scene
        (fontLoads : nat -> jsval -> bool) (svgParses : jsval -> bool)
        (imageOfBase64 imageOfUrl : jsval -> option string)
        (viewportCenter : jsnum * jsnum) (msg : jsval) (st : state) :
  let r := onmessage fontLoads svgParses imageOfBase64 imageOfUrl
                     viewportCenter msg st in
  fueled (fst r)
  /\ (List.length (nodes st) <= List.length (nodes (snd r)))%nat
  /\ forall id, (id < List.length (nodes st))%nat ->
                nth_error (nodes (snd r)) id = nth_error (nodes st) id.
Proof.
  cbv zeta.
  destruct (@SceneFacts.same_onmessage (List.length (nodes st)) st fontLoads
              svgParses imageOfBase64 imageOfUrl viewportCenter msg st
              (SceneFacts.old_same_refl st)) as (F & [L K] & _).
  auto.
Qed.

(** X18.  An error raised during the import never leaves the handler: for
    every message that is an object the handler returns normally (or ends
    in a conversion the model does not follow); what the body of the
    [try] block throws is caught and reported. *)
Theorem onmessage_never_throws
        (fontLoads : nat -> jsval -> bool) (svgParses : jsval -> bool)
        (imageOfBase64 imageOfUrl : jsval -> option string)
        (viewportCenter : jsnum * jsnum)
        (fields : list (string * jsval)) (st : state) :
  let r := onmessage fontLoads svgParses imageOfBase64 imageOfUrl
                     viewportCenter (VObj fields) st in
  fst r = Ok tt \/ fst r = Unmodelled.
Proof.
  cbv zeta.
  destruct (@SceneFacts.same_onmessage (List.length (nodes st)) st fontLoads
              svgParses imageOfBase64 imageOfUrl viewportCenter (VObj fields) st
              (SceneFacts.old_same_refl st)) as (F & _ & _).
  destruct (fst (onmessage fontLoads svgParses imageOfBase64 imageOfUrl
                           viewportCenter (VObj fields) st))
    as [[]|err| |] eqn:R; [now left| |now right|now destruct F].
  exfalso. revert R. clear F. unfold onmessage.
  rewrite SanitizeFacts.get_obj, (NodeFacts.bind_lift_Ok _ _ eq_refl).
  destruct (is_str (field "type" (VObj fields)) "import-design");
    [|discriminate].
  rewrite SanitizeFacts.get_obj, (NodeFacts.bind_lift_Ok _ _ eq_refl).
  set (data := field "data" (VObj fields)).
  destruct (if negb (truthy data) then Ok true
            else rbind (get data "rootNode")
                       (fun rootNode => Ok (negb (truthy rootNode))))
    as [invalid|e| |] eqn:E.
  - rewrite (NodeFacts.bind_lift_Ok _ _ eq_refl).
    destruct invalid; [discriminate|].
    unfold bind at 1. unfold notify at 1. cbv beta iota.
    unfold bind at 1. unfold sendProgress at 1. cbv beta iota.
    unfold try_catch.
    match goal with
    | |- context [importDesign ?a ?b ?c ?d ?e ?f ?g] =>
        destruct (importDesign a b c d e f g) as [[[]|e'| |] s2]
    end; discriminate.
  - exfalso. destruct data as [| |[|]|[q|]|s|l|fs|nm]; cbn in E;
      try discriminate E;
      try (destruct (negb (Qeq_bool q 0)); discriminate E);
      try (destruct (str_truthy s); discriminate E).
  - discriminate.
  - discriminate.
Qed.

(** X19.  [countNodes] counts the nodes of the document: on a tree in
    which the [children] of every node are missing, falsy or an array of
    such trees, it returns normally, having added to the total the number
    of nodes of the tree, and changed nothing else. *)
Theorem countNodes_tree_size (n : jsval) (st : state) :
  countable n = true ->
  countNodes (S (depth n)) n st = (Ok tt, more_counted (tree_size n) st).
Proof. intros H. apply CountFacts.countNodes_counts; [exact H|lia]. Qed.

Lemma countNodes_tree_size_witness :
  countNodes (S (depth (field "rootNode" (VObj tall_page))))
             (field "rootNode" (VObj tall_page)) empty_scene
  = (Ok tt, more_counted 2 empty_scene).
Proof.
  apply (countNodes_tree_size (field "rootNode" (VObj tall_page)) empty_scene).
  reflexivity.
Defined.

(* ====================================================================== *)
(** * The plugin: frames *)
(* ====================================================================== *)

Module FrameNodeFacts.
Import SanitizeFacts HandlerFacts TextFacts.

Section FrameNode.

Variable fields : list (string * jsval).
Variable st : state.

Let node := VObj fields.
Let base := nodes st.

Hypothesis node_ok : frame_node_ok node = true.

Variables w h : Q.
Variable fills : jsval.
Hypothesis size : sizeOf node 1 = Ok (Num w, Num h).
Hypothesis paints : sanitizeFills (field "fills" node) = Ok fills.

Let sized_ps (ps : list (string * jsval)) : Prop :=
  table_get "width" ps = Some (VNum (Num w))
  /\ table_get "height" ps = Some (VNum (Num h)).

Let clipped_ps (ps : list (string * jsval)) : Prop :=
  sized_ps ps
  /\ table_get "clipsContent" ps
     = Some (or_else (field "clipsContent" node) (VBool false)).

Let filled_ps (ps : list (string * jsval)) : Prop :=
  clipped_ps ps /\ table_get "fills" ps = Some fills.

Lemma createFrameNode_returns :
  returns (fun s => s = st) (createFrameNode node)
          (fun id s => id = List.length base
                       /\ top_node base FRAME [] filled_ps s).
Proof.
  pose proof node_ok as Hok. unfold frame_node_ok in Hok.
  repeat (apply andb_true_iff in Hok as [Hok ?]).
  unfold createFrameNode.
  eapply returns_bind;
    [eapply returns_weaken;
     [apply (@returns_createNode base FRAME) | intros s ->; reflexivity
      | intros a s Ha; exact Ha]|].
  intros frame. apply returns_assuming. intros ->.
  eapply returns_pure; [exact size|]. cbn [fst snd]. unfold resize.
  eapply returns_then.
  { eapply returns_then;
      [eapply returns_setProp
         with (ok' := fun ps => table_get "width" ps = Some (VNum (Num w)));
       reflexivity|].
    eapply returns_setProp with (ok' := sized_ps).
    intros ps Hps. split; [exact Hps|reflexivity]. }
  apply returns_get.
  eapply returns_then;
    [eapply returns_setProp with (ok' := clipped_ps);
     intros ps Hps; split; [exact Hps|reflexivity]|].
  eapply returns_pure; [apply hasFills_list with (ok := paint_ok); assumption|].
  cbn [fst snd].
  eapply returns_then with (P' := top_node base FRAME [] filled_ps).
  { destruct (nonempty_list (field "fills" (VObj fields))) eqn:Hb.
    - eapply returns_pure; [exact paints|].
      apply returns_setProp. intros ps Hps. split; [exact Hps|reflexivity].
    - pose proof paints as HF. unfold node in HF.
      rewrite paints_empty in HF by assumption. apply Ok_inj in HF.
      apply returns_setProp. intros ps Hps. split; [exact Hps|].
      cbn [table_get String.eqb Ascii.eqb Bool.eqb]. now rewrite HF. }
  assert (Hkeep : keeps filled_ps
                        ["strokes"; "strokeWeight"; "strokeAlign";
                         "topLeftRadius"; "topRightRadius"; "bottomRightRadius";
                         "bottomLeftRadius"; "effects"]).
  { intros name v ps Hin Hps. simpl in Hin.
    repeat (destruct Hin as [<-|Hin]; [exact Hps|]). contradiction. }
  eapply returns_then;
    [apply applyStrokes_returns;
     [assumption | eapply keeps_sub; [exact Hkeep|intros x Hx; simpl in *; tauto]]|].
  eapply returns_then;
    [apply applyCornerRadius_returns;
     eapply keeps_sub; [exact Hkeep|intros x Hx; simpl in *; tauto]|].
  eapply returns_then;
    [apply applyEffects_returns;
     [assumption | eapply keeps_sub; [exact Hkeep|intros x Hx; simpl in *; tauto]]|].
  apply returns_ret. intros s Hs. split; auto.
Qed.

End FrameNode.

End FrameNodeFacts.

Import JS Scrape Plugin.
Local Open Scope plugin_scope.

(** X20.  [createFrameNode], for a well-formed FRAME node of the
    document, returns normally and creates one node, a frame without
    children, at least 1 wide and 1 high.  Its fills are always assigned:
    the sanitized fills of the node, the empty list when it has none; and
    [clipsContent] is the one of the node, false when it is missing. *)
Theorem createFrameNode_frame (fields : list (string * jsval)) (st : state) :
  let node := VObj fields in
  frame_node_ok node = true ->
  exists st' ps w h fills,
    createFrameNode node st = (Ok (List.length (nodes st)), st')
    /\ nodes st' = (nodes st ++ [mkNode FRAME ps []])%list
    /\ table_get "width" ps = Some (VNum (Num w)) /\ 1 <= w
    /\ table_get "height" ps = Some (VNum (Num h)) /\ 1 <= h
    /\ sanitizeFills (field "fills" node) = Ok fills
    /\ table_get "fills" ps = Some fills
    /\ table_get "clipsContent" ps
       = Some (or_else (field "clipsContent" node) (VBool false)).
Proof.
  intros node Hok. subst node.
  pose proof Hok as H. unfold frame_node_ok in H.
  repeat (apply andb_true_iff in H as [H ?]).
  destruct (@NodeFacts.sizeOf_range fields 1%Z) as (w & h & Es & Rw & Rh);
    [assumption|assumption|lia|].
  assert (Hf : exists fills, sanitizeFills (field "fills" (VObj fields)) = Ok fills)
    by now apply TextFacts.paints_total.
  destruct Hf as (fills & Hf).
  destruct (@FrameNodeFacts.createFrameNode_returns fields st Hok w h fills Es Hf
              st eq_refl)
    as (id & st' & Hrun & -> & (ps & Hn & ((Hw & Hh) & Hc) & Hfl)).
  exists st', ps, w, h, fills. repeat split; auto.
Qed.

(** A card: rounded, with a border and a fill written out of range. *)
Definition card_node : list (string * jsval) :=
  [ ("type", VStr "FRAME"); ("width", vnum 320); ("height", vnum 0);
    ("fills", VArr [ VObj [ ("type", VStr "SOLID");
                            ("color", VObj [("r", vnum 2); ("g", vnum 1); ("b", vnum 1)]) ] ]);
    ("strokes", VArr [ VObj [ ("type", VStr "SOLID");
                              ("color", VObj [("r", vnum 0); ("g", vnum 0); ("b", vnum 0)]);
                              ("opacity", vnum 1) ] ]);
    ("strokeWeight", vnum 1); ("topLeftRadius", vnum 8) ].

Lemma createFrameNode_frame_witness :
  exists st' ps w h fills,
    createFrameNode (VObj card_node) empty_scene = (Ok 0%nat, st')
    /\ nodes st' = [mkNode FRAME ps []]
    /\ table_get "width" ps = Some (VNum (Num w)) /\ 1 <= w
    /\ table_get "height" ps = Some (VNum (Num h)) /\ 1 <= h
    /\ sanitizeFills (field "fills" (VObj card_node)) = Ok fills
    /\ table_get "fills" ps = Some fills
    /\ table_get "clipsContent" ps = Some (VBool false).
Proof. exact (createFrameNode_frame card_node empty_scene eq_refl). Defined.

(* ====================================================================== *)
(** * The handler: nodes counted, nodes processed and progress *)
(* ====================================================================== *)

Module ProgressFacts.
Import FrameFacts CountFacts.

(** ** The percentage of a count *)

Lemma percent_in_range (processed total : nat) :
  (processed <= total)%nat -> (1 <= total)%nat ->
  exists z,
    Math_round (nmul (ndiv (nat_num processed) (nat_num total)) (num_of_Z 100))
    = num_of_Z z
    /\ (0 <= z <= 100)%Z.
Proof.
  intros Hp Ht. unfold nat_num, num_of_Z, ndiv.
  destruct (Qeq_bool (inject_Z (Z.of_nat total)) 0) eqn:E.
  { apply Qeq_bool_eq in E. unfold Qeq in E. cbn in E. lia. }
  cbn [nmul Math_round]. eexists. split; [reflexivity|].
  set (q := Qred (Qred (inject_Z (Z.of_nat processed) / inject_Z (Z.of_nat total))
                  * inject_Z 100)).
  assert (Hq : 0 <= q /\ q <= 100).
  { unfold q. rewrite !Qred_correct.
    destruct total as [|t]; [lia|].
    unfold Qdiv, Qinv, Qmult, Qle, inject_Z. cbn [Qnum Qden].
    rewrite Nat2Z.inj_succ. unfold Z.succ.
    destruct (Z.of_nat t + 1)%Z as [|d|d] eqn:D; try lia.
    cbn [Qnum Qden]. split; [nia|].
    assert (Z.of_nat processed <= Z.pos d)%Z by lia.
    change (Z.pos (1 * d * 1)) with (Z.pos d * 1 * 1)%Z || idtac.
    rewrite ?Pos.mul_1_l, ?Pos.mul_1_r. nia. }
  destruct Hq as [L U]. split.
  - change 0%Z with (Qfloor 0). apply Qfloor_resp_le.
    apply Qle_trans with (y := q); [exact L|].
    rewrite <- (Qplus_0_r q) at 1. apply Qplus_le_r. discriminate.
  - change 100%Z with (Qfloor (100 + (1 # 2))). apply Qfloor_resp_le.
    apply Qplus_le_l. exact U.
Qed.

(** ** Messages added *)

Lemma posted_same (s s' : state) : posts s' = posts s -> posted s s'.
Proof. intros E. exists []. rewrite E, app_nil_r. auto. Qed.

Lemma posted_refl (s : state) : posted s s.
Proof. now apply posted_same. Qed.

Lemma posted_trans (s1 s2 s3 : state) :
  posted s1 s2 -> posted s2 s3 -> posted s1 s3.
Proof.
  intros (a & E & F) (b & E' & F'). exists (a ++ b)%list.
  rewrite E', E, app_assoc. split; [reflexivity|].
  apply Forall_app. auto.
Qed.

Lemma posted_one (s s' : state) (post : progress_text * jsnum) :
  posts s' = (posts s ++ [post])%list -> progress_in_range post -> posted s s'.
Proof. intros E Hok. exists [post]. auto. Qed.

(** ** Rules for [spends] *)

Lemma spends_ret (A : Type) (a : A) : spends 0 (ret a).
Proof.
  intros s. unfold ret. cbn [snd].
  repeat split; auto using posted_refl; lia.
Qed.

Lemma spends_lift (A : Type) (r : outcome A) : spends 0 (lift r).
Proof.
  intros s. unfold lift. cbn [snd].
  repeat split; auto using posted_refl; lia.
Qed.

Lemma spends_le (A : Type) (k k' : nat) (m : M A) :
  (k <= k')%nat -> spends k m -> spends k' m.
Proof.
  intros Hk Hm s. destruct (Hm s) as (T & L & U & P).
  repeat split; auto; try lia. intros Hb. apply P. lia.
Qed.

Lemma spends_bind (A B : Type) (k1 k2 : nat) (m : M A) (f : A -> M B) :
  spends k1 m -> (forall x, spends k2 (f x)) -> spends (k1 + k2) (bind m f).
Proof.
  intros Hm Hf s. destruct (Hm s) as (T & L & U & P). unfold bind.
  destruct (m s) as [[x|e| |] s1]; cbn [snd] in *;
    try (repeat split; auto; try lia; intros Hb; apply P; lia).
  destruct (Hf x s1) as (T' & L' & U' & P'). repeat split; try lia.
  intros Hb. apply posted_trans with (s2 := s1); [apply P|apply P']; lia.
Qed.

Lemma spends_first (A B : Type) (k : nat) (m : M A) (f : A -> M B) :
  spends 0 m -> (forall x, spends k (f x)) -> spends k (bind m f).
Proof. intros Hm Hf. apply (@spends_bind A B 0 k); auto. Qed.

Lemma spends_last (A B : Type) (k : nat) (m : M A) (f : A -> M B) :
  spends k m -> (forall x, spends 0 (f x)) -> spends k (bind m f).
Proof.
  intros Hm Hf. apply spends_le with (k := (k + 0)%nat); [lia|].
  now apply spends_bind.
Qed.

(** A pure step, with what it returned. *)
Lemma spends_pure (A B : Type) (k : nat) (r : outcome A) (f : A -> M B) :
  (forall x, r = Ok x -> spends k (f x)) -> spends k (bind (lift r) f).
Proof.
  intros Hf s. unfold bind, lift.
  destruct r as [x|e| |]; cbn [snd];
    try (repeat split; auto using posted_refl; lia).
  apply (Hf x eq_refl).
Qed.

(** A step that returns at once. *)
Lemma spends_keep (A B : Type) (k : nat) (a : A) (f : A -> M B) :
  spends k (f a) -> spends k (bind (ret a) f).
Proof. intros Hf s. exact (Hf s). Qed.

Lemma spends_try (A : Type) (k1 k2 : nat) (body : M A) (handler : exn -> M A) :
  spends k1 body -> (forall e, spends k2 (handler e)) ->
  spends (k1 + k2) (try_catch body handler).
Proof.
  intros Hb Hh s. destruct (Hb s) as (T & L & U & P). unfold try_catch.
  destruct (body s) as [[x|e| |] s1]; cbn [snd] in *;
    try (repeat split; auto; try lia; intros Hk; apply P; lia).
  destruct (Hh e s1) as (T' & L' & U' & P'). repeat split; try lia.
  intros Hk. apply posted_trans with (s2 := s1); [apply P|apply P']; lia.
Qed.

Lemma spends_forEachM (A : Type) (cost : A -> nat) (f : A -> M unit) (l : list A) :
  (forall x, In x l -> spends (cost x) (f x)) ->
  spends (list_sum (map cost l)) (forEachM f l).
Proof.
  induction l as [|x l IH]; intros Hf; cbn [forEachM map list_sum].
  - apply spends_ret.
  - apply spends_bind; [apply Hf; now left|intros _].
    apply IH. intros y Hy. apply Hf. now right.
Qed.

(** What touches neither the counters nor the messages spends nothing. *)
Lemma spends_quiet (A : Type) (m : M A) :
  (forall s, totalNodes (snd (m s)) = totalNodes s
             /\ processedNodes (snd (m s)) = processedNodes s
             /\ posts (snd (m s)) = posts s) ->
  spends 0 m.
Proof.
  intros H s. destruct (H s) as (T & P & M). rewrite T, P.
  repeat split; auto using posted_same; lia.
Qed.

Lemma spends_createNode (k : node_kind) : spends 0 (createNode k).
Proof. apply spends_quiet. intros s. repeat split. Qed.

Lemma spends_setProp (id : nat) (name : string) (v : jsval) :
  spends 0 (setProp id name v).
Proof. apply spends_quiet. intros s. repeat split. Qed.

Lemma spends_resize (id : nat) (w h : jsval) : spends 0 (resize id w h).
Proof. apply spends_quiet. intros s. repeat split. Qed.

Lemma spends_appendChild (parent child : nat) : spends 0 (appendChild parent child).
Proof. apply spends_quiet. intros s. repeat split. Qed.

Lemma spends_notify (n : notice) : spends 0 (notify n).
Proof. apply spends_quiet. intros s. repeat split. Qed.

Lemma spends_scrollAndZoomIntoView (ids : list nat) :
  spends 0 (scrollAndZoomIntoView ids).
Proof. apply spends_quiet. intros s. repeat split. Qed.

Lemma spends_getCounters : spends 0 getCounters.
Proof. apply spends_quiet. intros s. repeat split. Qed.

Lemma spends_getProp (id : nat) (name : string) : spends 0 (getProp id name).
Proof. apply spends_quiet. intros s. repeat split. Qed.

Lemma spends_canAppend (id : nat) : spends 0 (canAppend id).
Proof. apply spends_quiet. intros s. repeat split. Qed.

Lemma spends_loadFontAsync (fontLoads : nat -> jsval -> bool) (font : jsval) :
  spends 0 (loadFontAsync fontLoads font).
Proof.
  apply spends_quiet. intros s. unfold loadFontAsync.
  destruct (fontLoads (loads s) font); repeat split.
Qed.

Lemma spends_sendProgress (message : progress_text) (percent : jsnum) :
  progress_in_range (message, percent) ->
  spends 0 (sendProgress message percent).
Proof.
  intros Hok s. unfold sendProgress. cbn [snd totalNodes processedNodes].
  repeat split; auto; try lia.
  intros _. now apply posted_one with (post := (message, percent)).
Qed.

Ltac ranged :=
  split; [eexists; split; [reflexivity|lia] | exact I].

Ltac thrift :=
  lazymatch goal with
  | |- spends _ (ret _) => apply spends_ret
  | |- spends _ (bind (lift _) _) => apply spends_pure; intros ? ?; thrift
  | |- spends _ (bind _ _) => apply spends_first; [thrift | intros ?; thrift]
  | |- spends _ (if ?c then _ else _) => destruct c; thrift
  | |- spends _ (match ?c with _ => _ end) => destruct c; thrift
  | |- spends _ (createNode _) => apply spends_createNode
  | |- spends _ (setProp _ _ _) => apply spends_setProp
  | |- spends _ (resize _ _ _) => apply spends_resize
  | |- spends _ (appendChild _ _) => apply spends_appendChild
  | |- spends _ (notify _) => apply spends_notify
  | |- spends _ (sendProgress _ _) => apply spends_sendProgress; ranged
  | |- spends _ (scrollAndZoomIntoView _) => apply spends_scrollAndZoomIntoView
  | |- spends _ getCounters => apply spends_getCounters
  | |- spends _ (getProp _ _) => apply spends_getProp
  | |- spends _ (canAppend _) => apply spends_canAppend
  | |- spends _ (loadFontAsync _ _) => apply spends_loadFontAsync
  | _ => idtac
  end.

Lemma spends_applyStrokes (figmaNode : nat) (node : jsval) :
  spends 0 (applyStrokes figmaNode node).
Proof. unfold applyStrokes. thrift. Qed.

Lemma spends_applyCornerRadius (figmaNode : nat) (node : jsval) :
  spends 0 (applyCornerRadius figmaNode node).
Proof. unfold applyCornerRadius. thrift. Qed.

Lemma spends_applyEffects (figmaNode : nat) (node : jsval) :
  spends 0 (applyEffects figmaNode node).
Proof. unfold applyEffects. thrift. Qed.

Ltac styled :=
  lazymatch goal with
  | |- spends _ (applyStrokes _ _) => apply spends_applyStrokes
  | |- spends _ (applyCornerRadius _ _) => apply spends_applyCornerRadius
  | |- spends _ (applyEffects _ _) => apply spends_applyEffects
  | _ => idtac
  end.

Lemma spends_createFrameNode (node : jsval) : spends 0 (createFrameNode node).
Proof. unfold createFrameNode. thrift; styled. Qed.

Lemma spends_tryFonts (fontLoads : nat -> jsval -> bool)
      (fontsToTry : list jsval) (textNode : nat) :
  spends 0 (tryFonts fontLoads fontsToTry textNode).
Proof.
  induction fontsToTry as [|font rest IH]; cbn [tryFonts].
  - thrift.
  - apply (@spends_try _ 0 0); [thrift|intros _; exact IH].
Qed.

Lemma spends_createTextNode (fontLoads : nat -> jsval -> bool) (node : jsval) :
  spends 0 (createTextNode fontLoads node).
Proof. unfold createTextNode. thrift; styled; apply spends_tryFonts. Qed.

Lemma spends_createSvgNode (svgParses : jsval -> bool) (node : jsval) :
  spends 0 (createSvgNode svgParses node).
Proof. unfold createSvgNode. thrift. Qed.

Lemma spends_createImageNode (imageOfBase64 imageOfUrl : jsval -> option string)
      (node : jsval) :
  spends 0 (createImageNode imageOfBase64 imageOfUrl node).
Proof. unfold createImageNode. thrift. Qed.

Lemma spends_createRootFrame (data : jsval) : spends 0 (createRootFrame data).
Proof. unfold createRootFrame. thrift. Qed.

(** ** The walk that builds the scene *)

(** One node counted as processed, with the progress message of every
    fiftieth. *)
Lemma spends_tick (B : Type) (k : nat) (rest : nat * nat -> M B) :
  (forall c, spends k (rest c)) ->
  spends (S k)
    (bind getCounters (fun counters =>
       bind (setCounters (fst counters) (S (snd counters))) (fun _ =>
         bind (if (S (snd counters) mod 50 =? 0)%nat then
                 sendProgress (PProcessing (S (snd counters)) (fst counters))
                   (Math_round
                      (nmul (ndiv (nat_num (S (snd counters)))
                                  (nat_num (fst counters)))
                            (num_of_Z 100)))
               else ret tt)
              (fun _ => rest counters)))).
Proof.
  intros Hrest s. unfold spends in Hrest.
  unfold bind, getCounters, setCounters. cbn [fst snd].
  destruct (S (processedNodes s) mod 50 =? 0)%nat.
  - unfold sendProgress. cbn [fst snd nodes notices posts views loads
                                totalNodes processedNodes].
    match goal with
    | |- context [rest ?c ?s2] =>
        destruct (Hrest c s2) as (T & L & U & P);
        destruct (rest c s2) as [r s3]
    end.
    cbn [snd nodes notices posts views loads totalNodes processedNodes] in *.
    repeat split; try lia.
    intros Hb.
    match type of P with
    | _ -> posted ?mid _ => apply (@posted_trans s mid s3); [|apply P; lia]
    end.
    eapply posted_one; [reflexivity|].
    split; [|cbn [fst]; lia].
    cbn [snd]. apply percent_in_range; lia.
  - unfold ret. cbn [fst snd].
    match goal with
    | |- context [rest ?c ?s2] =>
        destruct (Hrest c s2) as (T & L & U & P);
        destruct (rest c s2) as [r s3]
    end.
    cbn [snd nodes notices posts views loads totalNodes processedNodes] in *.
    repeat split; try lia.
    intros Hb.
    match type of P with
    | _ -> posted ?mid _ => apply (@posted_trans s mid s3); [|apply P; lia]
    end.
    now apply posted_same.
Qed.

Lemma tree_size_truthy (node : jsval) :
  truthy node = true -> (1 <= tree_size node)%nat.
Proof.
  destruct node; intros T; try (cbn [tree_size]; rewrite T); cbn; lia.
Qed.

(** The children the walk descends into are counted in the size of their
    parent. *)
Lemma children_of_countable (node children : jsval) (items : list jsval) :
  countable node = true ->
  get node "children" = Ok children ->
  has_items children = Ok true ->
  iterate children = Ok items ->
  children = VArr items
  /\ forallb countable items = true
  /\ tree_size node = S (list_sum (map tree_size items)).
Proof.
  intros Hc Hg Hs Hi.
  assert (Ht : truthy children = true).
  { unfold has_items in Hs. destruct (truthy children); [reflexivity|discriminate]. }
  destruct node as [| |b|x|str|l|fields|nm]; try discriminate Hg;
    try (cbn in Hg; injection Hg as <-; discriminate Ht).
  rewrite SanitizeFacts.get_obj in Hg. injection Hg as <-.
  rewrite countable_obj in Hc. rewrite tree_size_obj.
  unfold field in *.
  destruct (table_get "children" fields) as [c|]; [|discriminate Ht].
  destruct c; try (rewrite Ht in Hc; discriminate Hc).
  injection Hi as <-. auto.
Qed.

Section Walks.
Variable fontLoads : nat -> jsval -> bool.
Variable svgParses : jsval -> bool.
Variables imageOfBase64 imageOfUrl : jsval -> option string.

Lemma spends_processNode (fuel : nat) :
  forall (node : jsval) (parent : nat),
    countable node = true ->
    (depth node < fuel)%nat ->
    spends (tree_size node)
           (processNode fontLoads svgParses imageOfBase64 imageOfUrl
                        fuel node parent).
Proof.
  induction fuel as [|fuel IH]; intros node parent Hc Hd; [lia|].
  cbn [processNode]. destruct (truthy node) eqn:T; cbn [negb].
  2: { apply spends_le with (k := 0%nat); [lia|apply spends_ret]. }
  pose proof (tree_size_truthy node T) as H1.
  replace (tree_size node) with (S (tree_size node - 1)) by lia.
  cbv zeta. apply spends_tick. intros counters.
  apply spends_pure. intros ty _.
  apply spends_first.
  { destruct (is_str ty "TEXT"); [apply spends_createTextNode|].
    destruct (is_str ty "SVG"); [apply spends_createSvgNode|].
    destruct (is_str ty "IMAGE"); [apply spends_createImageNode|].
    apply spends_createFrameNode. }
  intros figmaNode.
  apply spends_pure. intros x _. apply spends_first; [thrift|intros _].
  apply spends_pure. intros y _. apply spends_first; [thrift|intros _].
  apply spends_pure. intros opacity _. apply spends_pure. intros faded _.
  apply spends_first; [thrift|intros _].
  apply spends_pure. intros name _. apply spends_first; [thrift|intros _].
  apply spends_first; [thrift|intros parentAppends].
  apply spends_first; [thrift|intros _].
  apply spends_pure. intros children Hg.
  apply spends_pure. intros some Hs.
  destruct some.
  2: { apply spends_keep. apply spends_last; [|intros _; apply spends_ret].
       apply spends_le with (k := 0%nat); [lia|apply spends_ret]. }
  apply spends_first; [thrift|intros appends].
  apply spends_last; [|intros _; apply spends_ret].
  destruct appends; [|apply spends_le with (k := 0%nat); [lia|apply spends_ret]].
  apply spends_pure. intros items Hi.
  destruct (children_of_countable _ Hc Hg Hs Hi) as (-> & Hall & Hsize).
  apply spends_le with (k := list_sum (map tree_size items)); [lia|].
  apply spends_forEachM. intros child Hin.
  apply spends_last; [|intros _; apply spends_ret].
  apply IH.
  - rewrite forallb_forall in Hall. now apply Hall.
  - pose proof (@depth_child _ _ _ _ _ Hg eq_refl Hin). lia.
Qed.

(** ** The walk that counts *)

Lemma forEachM_uncounted (f : jsval -> M unit) (items : list jsval) :
  (forall item s, In item items ->
                  processedNodes (snd (f item s)) = processedNodes s
                  /\ posts (snd (f item s)) = posts s
                  /\ (fst (f item s) = Ok tt -> countable item = true)) ->
  forall s, processedNodes (snd (forEachM f items s)) = processedNodes s
            /\ posts (snd (forEachM f items s)) = posts s
            /\ (fst (forEachM f items s) = Ok tt ->
                forallb countable items = true).
Proof.
  induction items as [|item l IH]; intros Hf s.
  - cbn [forEachM forallb]. unfold ret. auto.
  - cbn [forEachM forallb]. unfold bind.
    destruct (Hf item s (or_introl eq_refl)) as (P & M & C).
    destruct (f item s) as [[[]|e| |] s1]; cbn [fst snd] in *;
      try (repeat split; auto; discriminate).
    destruct (IH (fun x s' Hin => Hf x s' (or_intror Hin)) s1) as (P' & M' & C').
    repeat split; try congruence.
    intros R. rewrite (C eq_refl), (C' R). reflexivity.
Qed.

Lemma countNodes_uncounted (fuel : nat) :
  forall (n : jsval) (s : state),
    processedNodes (snd (countNodes fuel n s)) = processedNodes s
    /\ posts (snd (countNodes fuel n s)) = posts s
    /\ (fst (countNodes fuel n s) = Ok tt -> countable n = true).
Proof.
  induction fuel as [|fuel IH]; intros n s.
  - cbn [countNodes]. unfold lift. cbn [fst snd]. repeat split; discriminate.
  - cbn [countNodes]. destruct (truthy n) eqn:T; cbn [negb].
    + unfold bind, getCounters, setCounters. cbn [fst snd].
      destruct (get n "children") as [children|e| |] eqn:G;
        unfold lift; cbv beta iota;
        try (cbn [fst snd processedNodes posts]; repeat split; discriminate).
      destruct (truthy children) eqn:Tc.
      * destruct children as [| |b|x|str|items|fs|nm];
          try (unfold lift; cbn [fst snd processedNodes posts];
               repeat split; discriminate).
        match goal with
        | |- context [forEachM ?f items ?s1] =>
            destruct (@forEachM_uncounted f items
                        (fun item s' _ => IH item s') s1) as (P & M & C)
        end.
        destruct (forEachM (countNodes fuel) items _) as [r s2].
        cbn [fst snd processedNodes posts] in *.
        repeat split; auto. intros R.
        assert (Rr : r = Ok tt) by (destruct r as [[]| | |]; congruence).
        specialize (C Rr).
        destruct n as [| |b|x|str|l|fields|nm]; try reflexivity;
          try discriminate G.
        rewrite countable_obj. rewrite SanitizeFacts.get_obj in G.
        injection G as G. unfold field in G.
        destruct (table_get "children" fields) as [c|]; [|reflexivity].
        subst c. exact C.
      * unfold ret. cbn [fst snd processedNodes posts]. repeat split; auto.
        intros _.
        destruct n as [| |b|x|str|l|fields|nm]; try reflexivity;
          try discriminate G.
        rewrite countable_obj. rewrite SanitizeFacts.get_obj in G.
        injection G as G. unfold field in G.
        destruct (table_get "children" fields) as [c|]; [|reflexivity].
        subst c. destruct children; cbn [truthy] in Tc |- *;
          try rewrite Tc; try reflexivity; discriminate Tc.
    + unfold ret. cbn [fst snd]. repeat split; auto. intros _.
      destruct n; try reflexivity; discriminate T.
Qed.

End Walks.

(** ** The body of the [try] block *)

Section Handler.
Variable fontLoads : nat -> jsval -> bool.
Variable svgParses : jsval -> bool.
Variables imageOfBase64 imageOfUrl : jsval -> option string.
Variable viewportCenter : jsnum * jsnum.

(** Where a run that started in [s0] has come to. *)
Let settled (s0 s' : state) : Prop :=
  (processedNodes s' <= totalNodes s')%nat /\ posted s0 s'.

Lemma importDesign_settled (data : jsval) (s : state) :
  settled s (snd (importDesign fontLoads svgParses imageOfBase64 imageOfUrl
                               viewportCenter data s)).
Proof.
  unfold importDesign.
  unfold bind at 1, setCounters at 1. cbv beta iota.
  set (s0 := mkState (nodes s) (notices s) (posts s) (views s) (loads s) 0 0).
  assert (P0 : posted s s0) by now apply posted_same.
  unfold bind at 1, lift at 1.
  destruct (get data "rootNode") as [rootNode|e| |]; cbv beta iota;
    try (cbn [snd]; split; [cbn; lia|exact P0]).
  unfold bind at 1.
  destruct (countNodes_uncounted (S (depth rootNode)) rootNode s0) as (P & M & C).
  destruct (countNodes (S (depth rootNode)) rootNode s0) as [r s1] eqn:E.
  cbn [fst snd] in P, M, C.
  assert (P1 : posted s s1).
  { apply posted_trans with (s2 := s0); [exact P0|now apply posted_same]. }
  destruct r as [[]|e| |];
    try (cbn [snd]; split; [rewrite P; cbn; lia|exact P1]).
  specialize (C eq_refl).
  rewrite (@countNodes_counts (S (depth rootNode)) rootNode s0 C) in E by lia.
  injection E as <-.
  match goal with
  | |- settled s (snd (?rest ?s1)) =>
      assert (H : spends (tree_size rootNode) rest);
      [|destruct (H s1) as (T & L & U & Pp)]
  end.
  { apply spends_first; [apply spends_createRootFrame|intros rootFrame].
    apply spends_last.
    - apply spends_processNode; [exact C|lia].
    - intros _. thrift. }
  cbn [more_counted totalNodes processedNodes s0] in T, L, U, Pp.
  split; [lia|].
  eapply posted_trans; [exact P1|apply Pp; lia].
Qed.

(** ** The handler *)

(** Every message [m] posts is in range. *)
Let posts_ok (A : Type) (m : M A) : Prop :=
  forall s, posted s (snd (m s)).

Lemma posts_ok_bind (A B : Type) (m : M A) (f : A -> M B) :
  posts_ok m -> (forall x, posts_ok (f x)) -> posts_ok (bind m f).
Proof.
  intros Hm Hf s. specialize (Hm s). unfold bind.
  destruct (m s) as [[x|e| |] s1]; cbn [snd] in *; auto.
  eapply posted_trans; [exact Hm|apply Hf].
Qed.

Lemma posts_ok_try (A : Type) (body : M A) (handler : exn -> M A) :
  posts_ok body -> (forall e, posts_ok (handler e)) ->
  posts_ok (try_catch body handler).
Proof.
  intros Hb Hh s. specialize (Hb s). unfold try_catch.
  destruct (body s) as [[x|e| |] s1]; cbn [snd] in *; auto.
  eapply posted_trans; [exact Hb|apply Hh].
Qed.

Lemma posts_ok_lift (A : Type) (r : outcome A) : posts_ok (lift r).
Proof. intros s. apply posted_refl. Qed.

Lemma posts_ok_ret (A : Type) (a : A) : posts_ok (ret a).
Proof. intros s. apply posted_refl. Qed.

Lemma posts_ok_notify (n : notice) : posts_ok (notify n).
Proof. intros s. now apply posted_same. Qed.

Lemma posts_ok_sendProgress (message : progress_text) (percent : jsnum) :
  progress_in_range (message, percent) -> posts_ok (sendProgress message percent).
Proof. intros Hok s. now apply posted_one with (post := (message, percent)). Qed.

Lemma onmessage_posts (msg : jsval) :
  posts_ok (onmessage fontLoads svgParses imageOfBase64 imageOfUrl
                      viewportCenter msg).
Proof.
  unfold onmessage.
  apply posts_ok_bind; [apply posts_ok_lift|intros ty].
  destruct (is_str ty "import-design"); [|apply posts_ok_ret].
  apply posts_ok_bind; [apply posts_ok_lift|intros data].
  apply posts_ok_bind; [apply posts_ok_lift|intros invalid].
  destruct invalid; [apply posts_ok_notify|].
  apply posts_ok_bind; [apply posts_ok_notify|intros _].
  apply posts_ok_bind; [apply posts_ok_sendProgress; ranged|intros _].
  apply posts_ok_try.
  - intros s. now apply (importDesign_settled data s).
  - intros e. apply posts_ok_bind; [apply posts_ok_notify|intros _].
    apply posts_ok_sendProgress; ranged.
Qed.

End Handler.

End ProgressFacts.

Import JS Scrape Plugin.
Local Open Scope plugin_scope.

(** X21.  Progress never runs past the end.  Whatever the message and
    however the import ends, the handler only adds to the progress
    messages posted so far, and every message it adds carries a whole
    percentage from 0 to 100; a message of the form Processing layers
    (p/t) has p at most t. *)
Theorem onmessage_progress_in_range
        (fontLoads : nat -> jsval -> bool) (svgParses : jsval -> bool)
        (imageOfBase64 imageOfUrl : jsval -> option string)
        (viewportCenter : jsnum * jsnum) (msg : jsval) (st : state) :
  let r := onmessage fontLoads svgParses imageOfBase64 imageOfUrl
                     viewportCenter msg st in
  exists added,
    posts (snd r) = (posts st ++ added)%list
    /\ Forall progress_in_range added.
Proof.
  cbv zeta.
  apply (ProgressFacts.onmessage_posts fontLoads svgParses imageOfBase64
           imageOfUrl viewportCenter msg st).
Qed.

(** X22.  The walk that builds the scene processes no more nodes than
    the walk before it has counted: when the body of the [try] block is
    left, normally or by an error, the number of processed nodes is at
    most the total. *)
Theorem importDesign_processed_at_most_total
        (fontLoads : nat -> jsval -> bool) (svgParses : jsval -> bool)
        (imageOfBase64 imageOfUrl : jsval -> option string)
        (viewportCenter : jsnum * jsnum) (data : jsval) (st : state) :
  let r := importDesign fontLoads svgParses imageOfBase64 imageOfUrl
                        viewportCenter data st in
  (processedNodes (snd r) <= totalNodes (snd r))%nat.
Proof.
  cbv zeta.
  apply (ProgressFacts.importDesign_settled fontLoads svgParses imageOfBase64
           imageOfUrl viewportCenter data st).
Qed.
